(** * A shallow embedding of the STOMP 1.2 client [djoyahoy/stomp]

    The development follows the Go sources file by file:
    - the frame model and the wire codec ([NewFrame], [Encode], [Decode]);
    - the command builder of the transport ([makeSendFrame], [Send], ...);
    - the heart-beat negotiation of [Connect] and [Connect] itself;
    - the receipt registry ([Mark], [Clear], [doWithReceipt]) and the reader
      loop [Client.read];
    - transactions ([Tx.Commit], [Tx.Abort], [Tx.Send], [Tx.Ack], [Tx.Nack]);
    - the remaining verbs ([Subscribe], [Unsubscribe], [Ack], [Nack],
      [Begin]), the heart-beat emitter [Client.write] and [newUUID].
    The definitions come first, then the properties: of the stream
    functions, of the reader loop and the registry, of transactions, of the
    negotiation, of [Connect], of the SEND frame and of the codec; then
    those of the rest of the client: the encoder as one write, the reader
    loop frame by frame, the registry and the calls that wait for a
    receipt, the verbs on the wire, the heart-beat emitter, identifiers,
    the ways [Decode] and [Connect] fail, and the round trip of SEND
    frames.

    A method [m] of a Go type [T] is [T_m] here.  Goroutines are not
    run: the state they share (registry, channels, stream) is passed
    explicitly, a blocked [select] is a function of that state, and what
    the other goroutines do while a caller is blocked is a parameter
    ([Sched]).  A send on the channel without buffer goes through when
    the application receives, and blocks for ever when it does not.

    Go strings and byte slices are sequences of bytes: both are [string]
    here, one [ascii] per byte.  A [map[string]string] is a [gmap string
    string]; reading a nil map behaves like reading an empty one, and the
    program only writes to maps it has made.  Integers of type [int],
    [int64] and [time.Duration] are [Z] with the 64-bit wrap-around written
    out.  Text is taken rune by rune where the Go library does so
    ([strings.ToUpper], [strings.ToLower], the white space of [fmt]):
    UTF-8 is decoded as package [utf8] does it, and the case tables of
    package [unicode] are a parameter of the development ([CaseTables]),
    which the examples at the end instantiate. *)

From Stdlib Require Import ZArith Ascii String DecimalString DecimalPos Lia.
From stdpp Require Import base option list gmap strings.

Local Open Scope Z_scope.

(* ===================================================================== *)
(** * Bytes and the string functions of the Go library used by the code   *)
(* ===================================================================== *)

Definition LF : ascii := "010"%char.
Definition CR : ascii := "013"%char.
Definition NUL : ascii := "000"%char.
Definition COLON : ascii := ":"%char.

(** The one-byte strings ["\n"] and ["\x00"]. *)
Definition nl : string := String LF "".
Definition nul : string := String NUL "".

Definition is_lower (a : ascii) : bool :=
  (97 <=? nat_of_ascii a)%nat && (nat_of_ascii a <=? 122)%nat.
Definition is_upper (a : ascii) : bool :=
  (65 <=? nat_of_ascii a)%nat && (nat_of_ascii a <=? 90)%nat.

Definition upper_byte (a : ascii) : ascii :=
  if is_lower a then ascii_of_nat (nat_of_ascii a - 32) else a.
Definition lower_byte (a : ascii) : ascii :=
  if is_upper a then ascii_of_nat (nat_of_ascii a + 32) else a.

Fixpoint map_bytes (f : ascii → ascii) (s : string) : string :=
  match s with
  | EmptyString => EmptyString
  | String a s' => String (f a) (map_bytes f s')
  end.

(** A [rune] is a Unicode code point; a byte as a number, and the byte of
    a number below 256. *)
Definition rune : Type := Z.
Definition RuneError : rune := 65533.          (* U+FFFD *)
Definition MaxASCII : rune := 127.
Definition byte_val (a : ascii) : Z := Z.of_nat (nat_of_ascii a).
Definition to_byte (z : Z) : ascii := ascii_of_nat (Z.to_nat z).

(** A continuation byte between [lo] and [hi]: its six low bits. *)
Definition cont (lo hi : Z) (a : ascii) : option Z :=
  let b := byte_val a in
  if (lo <=? b) && (b <=? hi) then Some (b mod 64) else None.

(** [utf8.DecodeRuneInString]: the first rune of [s] and its width in
    bytes.  A byte that starts no well-formed encoding (a stray
    continuation byte, an over-long form, a surrogate, a value above
    U+10FFFF, a sequence cut short) is [RuneError] of width 1. *)
Definition DecodeRuneInString (s : string) : rune * nat :=
  match s with
  | EmptyString => (RuneError, 0%nat)
  | String a0 s1 =>
      let b0 := byte_val a0 in
      if b0 <? 128 then (b0, 1%nat)
      else if (b0 <? 194) || (244 <? b0) then (RuneError, 1%nat)
      else if b0 <? 224 then
        match s1 with
        | String a1 _ =>
            match cont 128 191 a1 with
            | Some x1 => (b0 mod 32 * 64 + x1, 2%nat)
            | None => (RuneError, 1%nat)
            end
        | _ => (RuneError, 1%nat)
        end
      else if b0 <? 240 then
        let lo := if b0 =? 224 then 160 else 128 in
        let hi := if b0 =? 237 then 159 else 191 in
        match s1 with
        | String a1 (String a2 _) =>
            match cont lo hi a1, cont 128 191 a2 with
            | Some x1, Some x2 => (b0 mod 16 * 4096 + x1 * 64 + x2, 3%nat)
            | _, _ => (RuneError, 1%nat)
            end
        | _ => (RuneError, 1%nat)
        end
      else
        let lo := if b0 =? 240 then 144 else 128 in
        let hi := if b0 =? 244 then 143 else 191 in
        match s1 with
        | String a1 (String a2 (String a3 _)) =>
            match cont lo hi a1, cont 128 191 a2, cont 128 191 a3 with
            | Some x1, Some x2, Some x3 =>
                (b0 mod 8 * 262144 + x1 * 4096 + x2 * 64 + x3, 4%nat)
            | _, _, _ => (RuneError, 1%nat)
            end
        | _ => (RuneError, 1%nat)
        end
  end.

(** [strings.Builder.WriteRune] for a rune that is not negative: its
    UTF-8 encoding, that of [RuneError] for a surrogate and for a value
    above U+10FFFF. *)
Definition WriteRune (r : rune) : string :=
  if r <=? 127 then String (to_byte r) EmptyString
  else if r <=? 2047 then
    String (to_byte (192 + r / 64)) (String (to_byte (128 + r mod 64)) EmptyString)
  else if (1114111 <? r) || ((55296 <=? r) && (r <=? 57343)) then
    String (to_byte 239) (String (to_byte 191) (String (to_byte 189) EmptyString))
  else if r <=? 65535 then
    String (to_byte (224 + r / 4096))
      (String (to_byte (128 + r / 64 mod 64))
         (String (to_byte (128 + r mod 64)) EmptyString))
  else
    String (to_byte (240 + r / 262144))
      (String (to_byte (128 + r / 4096 mod 64))
         (String (to_byte (128 + r / 64 mod 64))
            (String (to_byte (128 + r mod 64)) EmptyString))).

(** [strings.Map(mapping, s)]: the runes of [s], each mapped and written
    again; a rune mapped to a negative value is dropped, and a byte that
    is not part of a well-formed rune is mapped and written as
    [RuneError].  [skip] counts the bytes of the rune decoded last that
    are still to be passed. *)
Fixpoint Map_from (mapping : rune → rune) (skip : nat) (s : string) : string :=
  match s with
  | EmptyString => EmptyString
  | String a s' =>
      match skip with
      | S k => Map_from mapping k s'
      | O =>
          let '(r, w) := DecodeRuneInString s in
          let r' := mapping r in
          (if 0 <=? r' then WriteRune r' else EmptyString)
            +:+ Map_from mapping (w - 1)%nat s'
      end
  end.

Definition Map (mapping : rune → rune) (s : string) : string :=
  Map_from mapping 0 s.

Fixpoint isASCII (s : string) : bool :=
  match s with
  | EmptyString => true
  | String a s' => (byte_val a <? 128) && isASCII s'
  end.

(** The case tables of package [unicode] ([unicode.CaseRanges]) differ
    from one version of Go to the next and are not copied here:
    [To_UpperCase r] and [To_LowerCase r] stand for
    [unicode.To(unicode.UpperCase, r)] and [unicode.To(unicode.LowerCase,
    r)] on the runes above ASCII, for which alone they are consulted.  All
    that is used of them is that the lower case of such a rune (a letter,
    or the rune itself) is neither a newline nor a colon. *)
Class CaseTables : Type := mkCaseTables {
  To_UpperCase : rune → rune;
  To_LowerCase : rune → rune;
  To_LowerCase_text : ∀ r, MaxASCII < r → To_LowerCase r ≠ 10 ∧ To_LowerCase r ≠ 58
}.

(** Tables without an entry: those of the examples, whose texts are
    ASCII. *)
Definition noCaseTables : CaseTables.
Proof.
  refine (mkCaseTables (λ r, r) (λ r, r) _).
  unfold MaxASCII. intros r Hr. split; lia.
Defined.

(** Four entries of the tables: the upper case of U+00E9 is U+00C9 and
    the lower case of U+00C9 is U+00E9; the lower case of U+0130 (capital
    I with a dot above) is the letter i, that of U+212A (the Kelvin sign)
    the letter k. *)
Definition someCaseTables : CaseTables.
Proof.
  refine (mkCaseTables
            (λ r, if r =? 233 then 201 else r)
            (λ r, if r =? 201 then 233 else
                  if r =? 304 then 105 else
                  if r =? 8490 then 107 else r) _).
  unfold MaxASCII. intros r Hr. repeat case_match; split; lia.
Defined.

Section Stomp.

Context {tables : CaseTables}.

(** [unicode.ToUpper] and [unicode.ToLower]. *)
Definition unicode_ToUpper (r : rune) : rune :=
  if r <=? MaxASCII
  then (if (97 <=? r) && (r <=? 122) then r - 32 else r)
  else To_UpperCase r.
Definition unicode_ToLower (r : rune) : rune :=
  if r <=? MaxASCII
  then (if (65 <=? r) && (r <=? 90) then r + 32 else r)
  else To_LowerCase r.

(** [strings.ToUpper] and [strings.ToLower]: on ASCII text the letters
    change case and every other byte is kept; any other text is taken
    rune by rune. *)
Definition ToUpper (s : string) : string :=
  if isASCII s then map_bytes upper_byte s else Map unicode_ToUpper s.
Definition ToLower (s : string) : string :=
  if isASCII s then map_bytes lower_byte s else Map unicode_ToLower s.

Fixpoint TrimLeft (cut : ascii → bool) (s : string) : string :=
  match s with
  | EmptyString => EmptyString
  | String a s' => if cut a then TrimLeft cut s' else s
  end.

Fixpoint TrimRight (cut : ascii → bool) (s : string) : string :=
  match s with
  | EmptyString => EmptyString
  | String a s' =>
      match TrimRight cut s' with
      | EmptyString => if cut a then EmptyString else String a EmptyString
      | t => String a t
      end
  end.

(** [strings.Trim(s, cutset)]: leading and trailing bytes of the cut set
    are removed. *)
Definition Trim (cut : ascii → bool) (s : string) : string :=
  TrimRight cut (TrimLeft cut s).

Definition cut_crlf (a : ascii) : bool := bool_decide (a = CR) || bool_decide (a = LF).
Definition cut_lf (a : ascii) : bool := bool_decide (a = LF).

(** [strings.Split(s, sep)] for a one-byte separator: one more piece than
    there are separators. *)
Fixpoint Split (sep : ascii) (s : string) : list string :=
  match s with
  | EmptyString => [EmptyString]
  | String a s' =>
      if bool_decide (a = sep) then EmptyString :: Split sep s'
      else match Split sep s' with
           | x :: xs => String a x :: xs
           | [] => [String a EmptyString]
           end
  end.

Definition digit (a : ascii) : option Z :=
  let n := nat_of_ascii a in
  if (48 <=? n)%nat && (n <=? 57)%nat then Some (Z.of_nat n - 48) else None.

Fixpoint digits_val (acc : Z) (s : string) : option Z :=
  match s with
  | EmptyString => Some acc
  | String a s' =>
      match digit a with
      | Some d => digits_val (10 * acc + d) s'
      | None => None
      end
  end.

Definition min_int64 : Z := - 2 ^ 63.
Definition max_int64 : Z := 2 ^ 63 - 1.
Definition in_int64 (z : Z) : bool := (min_int64 <=? z) && (z <=? max_int64).

(** Two's complement wrap-around of 64-bit arithmetic. *)
Definition wrap64 (z : Z) : Z := (z + 2 ^ 63) mod 2 ^ 64 - 2 ^ 63.

(** [strconv.ParseInt(s, 10, 64)]: an optional sign, one digit or more,
    nothing else, and a value that fits 64 bits. *)
Definition ParseInt10 (s : string) : option Z :=
  let '(neg, ds) :=
    match s with
    | String a s' =>
        if bool_decide (a = "+"%char) then (false, s')
        else if bool_decide (a = "-"%char) then (true, s')
        else (false, s)
    | EmptyString => (false, s)
    end in
  match ds with
  | EmptyString => None
  | _ =>
      match digits_val 0 ds with
      | Some v =>
          let z := if neg : bool then - v else v in
          if in_int64 z then Some z else None
      | None => None
      end
  end.

(** [strconv.Itoa]. *)
Definition Itoa (z : Z) : string := NilZero.string_of_int (Z.to_int z).

(* ===================================================================== *)
(** * Errors                                                              *)
(* ===================================================================== *)

Inductive error : Type :=
| EOF                                   (* io.EOF *)
| ErrIO (msg : string)                  (* a failure of the stream, the dialer, TLS or rand *)
| ErrDecodeHeader                       (* "stomp: unable to decode frame header" *)
| ErrAtoi (s : string)                  (* the *NumError of strconv.Atoi *)
| ErrTxDone                             (* "stomp: transaction has already been committed or aborted" *)
| ErrChannelClosed                      (* "stomp: channel closed" *)
| ErrTLSTimeout                         (* "stomp: tls handshake timed out" *)
| ErrNoContentType                      (* "stomp: server response has no content-type" *)
| ErrBadContentType (ct : string)       (* "stomp: server response has bad content-type %s" *)
| ErrServer (text : string).            (* "stomp: %s" *)

Global Instance error_eq_dec : EqDecision error.
Proof. solve_decision. Defined.

(** A Go result [(v, err)]. *)
Inductive result (A : Type) : Type :=
| Ok (a : A)
| Err (e : error).
#[global] Arguments Ok {A} a.
#[global] Arguments Err {A} e.

(** [strconv.Atoi]. *)
Definition Atoi (s : string) : result Z :=
  match ParseInt10 s with
  | Some z => Ok z
  | None => Err (ErrAtoi s)
  end.

(* ===================================================================== *)
(** * The stream ([net.Conn]) and the state monad of the code that uses it *)
(* ===================================================================== *)

(** The connection as the client sees it: the bytes the peer has sent and
    that are not read yet, the failure [Read] reports once they are used
    up, the bytes written so far, and how many more bytes [Write] accepts
    before it fails ([None]: no limit). *)
Record Conn : Type := mkConn {
  c_in : string;
  c_rerr : error;
  c_out : string;
  c_room : option nat;
  c_werr : error;
  c_closed : bool;
  c_deadline : option Z      (* the last read deadline set, counted from now *)
}.

Definition set_in (s : string) (c : Conn) : Conn :=
  mkConn s (c_rerr c) (c_out c) (c_room c) (c_werr c) (c_closed c) (c_deadline c).
Definition set_out (s : string) (room : option nat) (c : Conn) : Conn :=
  mkConn (c_in c) (c_rerr c) s room (c_werr c) (c_closed c) (c_deadline c).
Definition SetReadDeadline (d : Z) (c : Conn) : Conn :=
  mkConn (c_in c) (c_rerr c) (c_out c) (c_room c) (c_werr c) (c_closed c) (Some d).
(** [conn.Close()]. *)
Definition conn_Close (c : Conn) : Conn :=
  mkConn (c_in c) (c_rerr c) (c_out c) (c_room c) (c_werr c) true (c_deadline c).

(** Code that reads or writes the stream and may fail. *)
Definition IO (A : Type) : Type := Conn → result A * Conn.

Definition ret {A} (a : A) : IO A := λ c, (Ok a, c).
Definition fail {A} (e : error) : IO A := λ c, (Err e, c).
Definition bind {A B} (m : IO A) (k : A → IO B) : IO B :=
  λ c, match m c with
       | (Ok a, c') => k a c'
       | (Err e, c') => (Err e, c')
       end.
Definition lift {A} (r : result A) : IO A := λ c, (r, c).

Notation "x <- m ;; k" := (bind m (λ x, k))
  (at level 100, m at next level, right associativity, only parsing).
Notation "m ;;; k" := (bind m (λ _, k))
  (at level 100, right associativity, only parsing).

Fixpoint take_bytes (n : nat) (s : string) : string :=
  match n, s with
  | S k, String a s' => String a (take_bytes k s')
  | _, _ => EmptyString
  end.

Fixpoint drop_bytes (n : nat) (s : string) : string :=
  match n, s with
  | S k, String a s' => drop_bytes k s'
  | _, _ => s
  end.

(** One [Write] call ([fmt.Fprintf] makes one). *)
Definition Write (s : string) : IO unit := λ c,
  match c_room c with
  | None => (Ok tt, set_out (c_out c +:+ s) None c)
  | Some n =>
      if (String.length s <=? n)%nat
      then (Ok tt, set_out (c_out c +:+ s) (Some (n - String.length s)%nat) c)
      else (Err (c_werr c), set_out (c_out c +:+ take_bytes n s) (Some 0%nat) c)
  end.

(** The text up to and including the first [delim], and what follows it. *)
Fixpoint read_until (delim : ascii) (s : string) : option (string * string) :=
  match s with
  | EmptyString => None
  | String a s' =>
      if bool_decide (a = delim) then Some (String a EmptyString, s')
      else match read_until delim s' with
           | Some (l, rest) => Some (String a l, rest)
           | None => None
           end
  end.

(** [bufio.Reader.ReadString(delim)] and [ReadBytes(delim)]: the data up to
    and including the delimiter; when the stream fails first, its failure. *)
Definition ReadString (delim : ascii) : IO string := λ c,
  match read_until delim (c_in c) with
  | Some (l, rest) => (Ok l, set_in rest c)
  | None => (Err (c_rerr c), set_in EmptyString c)
  end.

Definition ReadBytes (delim : ascii) : IO string := ReadString delim.

(** [ioutil.ReadAll(io.LimitReader(r, n))]: [n] bytes, or fewer when the
    stream ends first ([io.EOF] is not a failure of [ReadAll]). *)
Definition ReadAllLimit (n : Z) : IO string := λ c,
  if n <=? 0 then (Ok EmptyString, c)
  else
    let k := Z.to_nat n in
    if (k <=? String.length (c_in c))%nat
    then (Ok (take_bytes k (c_in c)), set_in (drop_bytes k (c_in c)) c)
    else match c_rerr c with
         | EOF => (Ok (c_in c), set_in EmptyString c)
         | e => (Err e, set_in EmptyString c)
         end.

(* ===================================================================== *)
(** * Frames (frame.go)                                                   *)
(* ===================================================================== *)

(** An [io.Reader] value handed in as a body: the bytes it yields, the
    failure its [Read] reports after them (if any), whether its dynamic
    type also has [Close] (what it returns) and [Len] (what it reports). *)
Record Reader : Type := mkReader {
  r_bytes : string;
  r_err : option error;
  r_closer : bool;
  r_close : option error;
  r_len : option Z
}.

(** [&bytes.Buffer{}]. *)
Definition emptyBuffer : Reader := mkReader EmptyString None false None (Some 0).

(** [bytes.NewReader(b)] and [*bytes.Buffer] holding [b]. *)
Definition bytesReader (b : string) : Reader :=
  mkReader b None false None (Some (Z.of_nat (String.length b))).

(** [ioutil.NopCloser(r)]: only [Read] of [r] is kept, [Close] does nothing. *)
Definition NopCloser (r : Reader) : Reader :=
  mkReader (r_bytes r) (r_err r) true None None.

Record Frame : Type := mkFrame {
  Command : string;
  Headers : gmap string string;
  Body : option Reader               (* io.ReadCloser, nil is [None] *)
}.

(** The zero value [&Frame{}]. *)
Definition zeroFrame : Frame := mkFrame EmptyString ∅ None.

Definition setHeader (k v : string) (f : Frame) : Frame :=
  mkFrame (Command f) (<[k := v]> (Headers f)) (Body f).

Definition NewFrame (cmd : string) (body : option Reader) : Frame :=
  let body := match body with None => emptyBuffer | Some b => b end in
  let rc := if r_closer body then body else NopCloser body in
  mkFrame (ToUpper cmd) ∅ (Some rc).

(** The order in which [range] visits a map is left open by Go: an [order]
    is one choice of it, [fair] when it visits every entry once. *)
Definition order : Type := gmap string string → list (string * string).
Definition fair (rg : order) : Prop := ∀ m, rg m ≡ₚ map_to_list m.

Fixpoint write_headers (kvs : list (string * string)) : IO unit :=
  match kvs with
  | [] => ret tt
  | (k, v) :: kvs' => Write (k +:+ ":" +:+ v +:+ nl) ;;; write_headers kvs'
  end.

(** [io.Copy(w, r)]. *)
Definition Copy (r : Reader) : IO unit :=
  Write (r_bytes r) ;;;
  match r_err r with
  | Some e => fail e
  | None => ret tt
  end.

Definition CloseBody (r : Reader) : IO unit :=
  match r_close r with
  | Some e => fail e
  | None => ret tt
  end.

Definition Encode (rg : order) (f : Frame) : IO unit :=
  if bool_decide (Command f = "HEARTBEAT") then Write nl
  else
    Write (Command f +:+ nl) ;;;
    write_headers (rg (Headers f)) ;;;
    Write nl ;;;
    match Body f with
    | Some b => Copy b ;;; CloseBody b
    | None => ret tt
    end ;;;
    Write nul.

(** The header loop of [Decode].  Every round consumes a line, so [fuel]
    above the length of the unread input is never used up
    (see [read_headers_fuel]). *)
Fixpoint read_headers (fuel : nat) (hdrs : gmap string string)
  : IO (gmap string string) := λ c,
  match fuel with
  | O => (Err (c_rerr c), c)
  | S fuel' =>
      match ReadString LF c with
      | (Err e, c') => (Err e, c')
      | (Ok h, c') =>
          if bool_decide (h = nl) then (Ok hdrs, c')
          else match Split COLON (Trim cut_lf h) with
               | [k; v] => read_headers fuel' (<[k := v]> hdrs) c'
               | _ => (Err ErrDecodeHeader, c')
               end
      end
  end.

Definition Decode (f : Frame) : IO Frame :=
  c <- ReadString LF ;;
  if bool_decide (c = nl) then ret (mkFrame "HEARTBEAT" (Headers f) (Body f))
  else
    let c := Trim cut_crlf c in
    hdrs <- (λ s, read_headers (S (String.length (c_in s))) ∅ s) ;;
    body <- match hdrs !! "content-length" with
           | Some length => n <- lift (Atoi length) ;; ReadAllLimit n
           | None => ret nul
           end ;;
    b <- ReadBytes NUL ;;
    let body := if bool_decide (b = nul) then body else body +:+ b in
    ret (mkFrame c hdrs (Some (NopCloser (bytesReader body)))).

(* ===================================================================== *)
(** * The command builder (transport.go)                                  *)
(* ===================================================================== *)

(** [Transport] wraps one [net.Conn] in an encoder and a decoder: its
    methods are [IO] actions on that connection. *)

Definition forbidden : gset string :=
  {[ "destination"; "id"; "content-type"; "content-length"; "receipt";
     "transaction" ]}.

(** One round of the loop over the caller's headers. *)
Definition mergeHeader (f : Frame) (kv : string * string) : Frame :=
  let k := ToLower kv.1 in
  if bool_decide (k ∈ forbidden) then f else setHeader k kv.2 f.

(** The body of [if f.Body != nil { ... }]: the length is what [Len]
    reports when the body has one, else the body is copied to a buffer,
    closed, and replaced by the buffer. *)
Definition measureBody (bodyType : string) (f : Frame) : result Frame :=
  match Body f with
  | None => Ok f
  | Some b =>
      let sized : result (Z * Frame) :=
        match r_len b with
        | Some n => Ok (wrap64 n, f)
        | None =>
            match r_err b with
            | Some e => Err e
            | None =>
                match r_close b with
                | Some e => Err e
                | None =>
                    Ok (Z.of_nat (String.length (r_bytes b)),
                        mkFrame (Command f) (Headers f)
                          (Some (NopCloser (bytesReader (r_bytes b)))))
                end
            end
        end in
      match sized with
      | Err e => Err e
      | Ok (n, f) =>
          Ok (setHeader "content-length" (Itoa n)
                (setHeader "content-type" bodyType f))
      end
  end.

Definition makeSendFrame (rg : order) (dest : string)
    (hdrs : option (gmap string string)) (bodyType : string)
    (body : option Reader) : result Frame :=
  let f := setHeader "destination" dest (NewFrame "SEND" body) in
  match measureBody bodyType f with
  | Err e => Err e
  | Ok f =>
      match hdrs with
      | Some hdrs => Ok (fold_left mergeHeader (rg hdrs) f)
      | None => Ok f
      end
  end.

(** [if receipt != nil { f.Headers["receipt"] = *receipt }]. *)
Definition withReceipt (receipt : option string) (f : Frame) : Frame :=
  match receipt with
  | Some r => setHeader "receipt" r f
  | None => f
  end.

(** The frame [Transport.Send] hands to the encoder. *)
Definition sendFrame (rg : order) (dest : string)
    (hdrs : option (gmap string string)) (bodyType : string)
    (body : option Reader) (receipt : option string) : result Frame :=
  match makeSendFrame rg dest hdrs bodyType body with
  | Err e => Err e
  | Ok f => Ok (withReceipt receipt f)
  end.

Definition Transport_Send (rg : order) (dest : string)
    (hdrs : option (gmap string string)) (bodyType : string)
    (body : option Reader) (receipt : option string) : IO unit :=
  f <- lift (sendFrame rg dest hdrs bodyType body receipt) ;;
  Encode rg f.

Definition Transport_Disconnect (rg : order) (receipt : string) : IO unit :=
  Encode rg (setHeader "receipt" receipt (NewFrame "DISCONNECT" None)).

Definition Transport_Heartbeat (rg : order) : IO unit :=
  Encode rg (NewFrame "HEARTBEAT" None).

Definition Transport_Ack (rg : order) (id : string) (receipt : option string) : IO unit :=
  Encode rg (withReceipt receipt (setHeader "id" id (NewFrame "ACK" None))).

Definition Transport_Nack (rg : order) (id : string) (receipt : option string) : IO unit :=
  Encode rg (withReceipt receipt (setHeader "id" id (NewFrame "NACK" None))).

Definition Transport_TxBegin (rg : order) (tid : string) (receipt : option string) : IO unit :=
  Encode rg (withReceipt receipt (setHeader "transaction" tid (NewFrame "BEGIN" None))).

Definition Transport_TxCommit (rg : order) (tid : string) (receipt : option string) : IO unit :=
  Encode rg (withReceipt receipt (setHeader "transaction" tid (NewFrame "COMMIT" None))).

Definition Transport_TxAbort (rg : order) (tid : string) (receipt : option string) : IO unit :=
  Encode rg (withReceipt receipt (setHeader "transaction" tid (NewFrame "ABORT" None))).

Definition Transport_TxSend (rg : order) (tid dest : string)
    (hdrs : option (gmap string string)) (bodyType : string)
    (body : option Reader) : IO unit :=
  f <- lift (makeSendFrame rg dest hdrs bodyType body) ;;
  Encode rg (setHeader "transaction" tid f).

Definition Transport_TxAck (rg : order) (tid id : string) : IO unit :=
  Encode rg (setHeader "transaction" tid (setHeader "id" id (NewFrame "ACK" None))).

Definition Transport_TxNack (rg : order) (tid id : string) : IO unit :=
  Encode rg (setHeader "transaction" tid (setHeader "id" id (NewFrame "NACK" None))).

(** [Recv]: a positive [timeout] sets the read deadline to twice its
    value from now; then one frame is decoded into [&Frame{}]. *)
Definition Transport_Recv (timeout : Z) : IO Frame := λ c,
  let c := if 0 <? timeout then SetReadDeadline (wrap64 (timeout * 2)) c else c in
  Decode zeroFrame c.

(* ===================================================================== *)
(** * Configuration and heart-beat negotiation (config.go, client.go)     *)
(* ===================================================================== *)

(** A [time.Duration] is a 64-bit count of nanoseconds. *)
Definition Millisecond : Z := 1000000.

Record Heartbeat : Type := mkHeartbeat {
  Send : Z;
  Recv : Z
}.

Definition maxDuration (a b : Z) : Z := if b <? a then a else b.

Record Config : Type := mkConfig {
  Host : string;
  Login : string;
  Passcode : string;
  Heartbeat_ : Heartbeat             (* the field [Heartbeat] *)
}.

Definition DefaultConfig : Config :=
  mkConfig "/" EmptyString EmptyString (mkHeartbeat 0 0).

Definition Version : string := "1.2".

(** What [fmt.Sscanf] does with a [%d]: white space is skipped (a newline
    is not: it ends the scan), a sign is accepted, then the longest run of
    decimal digits is taken and must be a 64-bit number.

    [isSpace]: the table [space] of package [fmt], a copy of the white
    space of Unicode. *)
Definition isSpace (r : rune) : bool :=
  ((9 <=? r) && (r <=? 13)) || (r =? 32) || (r =? 133) || (r =? 160)
  || (r =? 5760) || ((8192 <=? r) && (r <=? 8202))
  || ((8232 <=? r) && (r <=? 8233)) || (r =? 8239) || (r =? 8287)
  || (r =? 12288).

(** [ss.SkipSpace] on the text that is left: what follows the white
    space, or [None] when a newline is met.  The text is read rune by
    rune; [skip] is as in [Map_from]. *)
Fixpoint SkipSpace_from (skip : nat) (s : string) : option string :=
  match s with
  | EmptyString => Some EmptyString
  | String a s' =>
      match skip with
      | S k => SkipSpace_from k s'
      | O =>
          let '(r, w) := DecodeRuneInString s in
          if r =? 10 then None
          else if isSpace r then SkipSpace_from (w - 1)%nat s' else Some s
      end
  end.

Definition SkipSpace (s : string) : option string := SkipSpace_from 0 s.

(** A byte of [decimalDigits]. *)
Definition isDigit (a : ascii) : bool :=
  match digit a with
  | Some _ => true
  | None => false
  end.

Fixpoint span (p : ascii → bool) (s : string) : string * string :=
  match s with
  | EmptyString => (EmptyString, EmptyString)
  | String a s' =>
      if p a then let '(t, r) := span p s' in (String a t, r)
      else (EmptyString, s)
  end.

Definition scanInt (s : string) : option (Z * string) :=
  match SkipSpace s with
  | None => None
  | Some s1 =>
      let '(sign, s2) :=
        match s1 with
        | String a r =>
            if bool_decide (a = "+"%char) || bool_decide (a = "-"%char)
            then (String a EmptyString, r) else (EmptyString, s1)
        | EmptyString => (EmptyString, s1)
        end in
      let '(tok, s3) := span isDigit s2 in
      match tok with
      | EmptyString => None
      | _ =>
          match ParseInt10 (sign +:+ tok) with
          | Some z => Some (z, s3)
          | None => None
          end
      end
  end.

(** [s, r := 0, 0; fmt.Sscanf(v, "%d,%d", &s, &r)]: the scan stops at the
    first thing that does not match, and what was not scanned stays 0. *)
Definition Sscanf_d_d (v : string) : Z * Z :=
  match scanInt v with
  | None => (0, 0)
  | Some (s, rest) =>
      match rest with
      | String a rest' =>
          if bool_decide (a = ","%char)
          then match scanInt rest' with
               | Some (r, _) => (s, r)
               | None => (s, 0)
               end
          else (s, 0)
      | EmptyString => (s, 0)
      end
  end.

(** The heart-beat object [Connect] builds from the client's request and
    the [heart-beat] header of the CONNECTED frame. *)
Definition negotiate (conf : Heartbeat) (v : option string) : Heartbeat :=
  match v with
  | None => mkHeartbeat 0 0
  | Some v =>
      let '(s, r) := Sscanf_d_d v in
      let send := wrap64 (Millisecond * s) in
      let recv := wrap64 (Millisecond * r) in
      mkHeartbeat
        (if negb (Send conf =? 0) && negb (recv =? 0)
         then maxDuration (Send conf) recv else 0)
        (if negb (Recv conf =? 0) && negb (send =? 0)
         then maxDuration (Recv conf) send else 0)
  end.

(* ===================================================================== *)
(** * The receipt registry (client.go)                                    *)
(* ===================================================================== *)

(** A [chan struct{}] is known by its allocation number.  Nothing is ever
    sent on these channels: all that happens to one is that it is closed. *)
Definition chan : Type := nat.

Record receipts : Type := mkReceipts {
  closed : bool;                    (* the channel [closed] has been closed *)
  orders : gmap string chan;
  fired : gset chan;                (* the channels made by [Mark] that were closed *)
  fresh : chan                      (* the next channel [make] returns *)
}.

Definition newReceipts : receipts := mkReceipts false ∅ ∅ 0%nat.

Definition Mark (id : string) (r : receipts) : chan * receipts :=
  let ch := fresh r in
  (ch, mkReceipts (closed r) (<[id := ch]> (orders r)) (fired r) (S ch)).

Definition Clear (id : string) (r : receipts) : receipts :=
  match orders r !! id with
  | Some ch => mkReceipts (closed r) (delete id (orders r)) ({[ch]} ∪ fired r) (fresh r)
  | None => r
  end.

(** [close(r.closed)]. *)
Definition shutdown (r : receipts) : receipts :=
  mkReceipts true (orders r) (fired r) (fresh r).

(** [MsgCh] has no buffer: a send on it goes through when the
    application receives, and blocks until it does.  [MsgCh_recv] is the
    other end of the channel: how many more frames the application
    receives from it ([None]: every frame that comes).  [ErrCh] has a
    buffer of one frame, which [Connect] makes empty and on which the
    library sends in one place only, so that the send finds room. *)
Record Client : Type := mkClient {
  transport : Conn;
  receipts_ : receipts;              (* the field [receipts] *)
  MsgCh : list Frame;                (* the frames handed to the consumers, oldest first *)
  MsgCh_closed : bool;
  ErrCh : list Frame;                (* the content of the one-slot buffer *)
  MsgCh_recv : option nat            (* the receives still to come on [MsgCh] *)
}.

Definition set_transport (t : Conn) (c : Client) : Client :=
  mkClient t (receipts_ c) (MsgCh c) (MsgCh_closed c) (ErrCh c) (MsgCh_recv c).
Definition set_receipts (r : receipts) (c : Client) : Client :=
  mkClient (transport c) r (MsgCh c) (MsgCh_closed c) (ErrCh c) (MsgCh_recv c).

(** An [IO] action run on the connection of the client. *)
Definition on_transport {A} (m : IO A) (c : Client) : result A * Client :=
  let '(r, t) := m (transport c) in (r, set_transport t c).

Definition to_err (r : result unit) : option error :=
  match r with
  | Ok _ => None
  | Err e => Some e
  end.

(* ===================================================================== *)
(** * Connect (client.go)                                                 *)
(* ===================================================================== *)

Record TransportConfig : Type := mkTransportConfig {
  Dial : string → result Conn;       (* [Dial("tcp", addr)] *)
  TLSConfig : option unit;           (* nil, or a configuration *)
  TLSHandshakeTimeout : Z
}.

(** What [Connect] meets outside the program: [net.Dial], the result of
    the TLS handshake, whether the timer of the handshake fires before the
    handshake reports, how many bytes beyond the response the buffered
    reader of [Connect] has taken from the stream when the response is
    complete (that depends on how the bytes arrive), and the receives the
    application is going to make on [MsgCh]. *)
Record World : Type := mkWorld {
  net_Dial : string → result Conn;
  Handshake : option error;
  timer_first : bool;
  read_ahead : nat;
  receives : option nat
}.

Definition DefaultTransportConfig (w : World) : TransportConfig :=
  mkTransportConfig (net_Dial w) None 0.

(** The first value received on [errc]. *)
Definition tlsResult (w : World) (tr : TransportConfig) : option error :=
  if negb (TLSHandshakeTimeout tr =? 0) && timer_first w
  then Some ErrTLSTimeout
  else Handshake w.

Definition connectFrame (toString : Heartbeat → string) (conf : Config) : Frame :=
  let req := setHeader "accept-version" Version (NewFrame "CONNECT" None) in
  let req := if bool_decide (Host conf ≠ EmptyString)
             then setHeader "host" (Host conf) req
             else setHeader "host" "/" req in
  let req := if bool_decide (Login conf ≠ EmptyString)
             then setHeader "login" (Login conf) req else req in
  let req := if bool_decide (Passcode conf ≠ EmptyString)
             then setHeader "passcode" (Passcode conf) req else req in
  setHeader "heart-beat" (toString (Heartbeat_ conf)) req.

(** [if conf == nil { conf = DefaultConfig }]. *)
Definition orDefault (conf : option Config) : Config :=
  match conf with Some c => c | None => DefaultConfig end.

(** The failure [Connect] returns for a response that is not CONNECTED. *)
Definition rejection (resp : Frame) : error :=
  match Headers resp !! "content-type" with
  | None => ErrNoContentType
  | Some ct =>
      if bool_decide (ct ≠ "text/plain") then ErrBadContentType ct
      else match Body resp with
           | Some b =>
               match r_err b with
               | Some e => e
               | None => ErrServer (r_bytes b)
               end
           | None => ErrServer EmptyString   (* not reached: see [Decode_headers_body] *)
           end
  end.

(** [Connect] returns the client and the heart-beat object handed to the
    two goroutines it starts, or a failure; the second component is the
    stream [Dial] returned, as [Connect] leaves it.  [Heartbeat.toString]
    computes in [float64] and is a parameter here.

    The response is decoded by a [bufio.Reader] of its own
    ([NewDecoder(conn).Decode(&resp)]), which is dropped afterwards:
    [NewTransport(conn)] starts a new one on the stream, so that the bytes
    the first had read ahead are lost to the client.  (On the paths that
    close the stream these bytes are of no account.) *)
Definition Connect (w : World) (rg : order) (toString : Heartbeat → string)
    (addr : string) (conf : option Config) (tr : option TransportConfig)
  : result (Client * Heartbeat) * option Conn :=
  let conf := orDefault conf in
  let tr := match tr with Some t => t | None => DefaultTransportConfig w end in
  match Dial tr addr with
  | Err e => (Err e, None)
  | Ok conn =>
      match (match TLSConfig tr with
             | Some _ => tlsResult w tr
             | None => None
             end) with
      | Some e => (Err e, Some (conn_Close conn))
      | None =>
          match Encode rg (connectFrame toString conf) conn with
          | (Err e, conn) => (Err e, Some conn)
          | (Ok _, conn) =>
              match Decode zeroFrame conn with
              | (Err e, conn) => (Err e, Some (conn_Close conn))
              | (Ok resp, conn) =>
                  if bool_decide (Command resp ≠ "CONNECTED")
                  then (Err (rejection resp), Some (conn_Close conn))
                  else
                    let hb := negotiate (Heartbeat_ conf)
                                (Headers resp !! "heart-beat") in
                    let conn := set_in (drop_bytes (read_ahead w) (c_in conn)) conn in
                    (Ok (mkClient conn newReceipts [] false [] (receives w), hb),
                     Some conn)
              end
          end
      end
  end.

(* ===================================================================== *)
(** * The reader loop (client.go)                                         *)
(* ===================================================================== *)

(** How a goroutine ends: it returns, or it panics, which aborts the
    process, or it is blocked for ever in a send; the state is the one it
    leaves, panics or is blocked in. *)
Inductive outcome (A : Type) : Type :=
| Exited (a : A)
| Panicked (msg : string) (a : A)
| Blocked (a : A)
| OutOfFuel.
#[global] Arguments Exited {A} a.
#[global] Arguments Panicked {A} msg a.
#[global] Arguments Blocked {A} a.
#[global] Arguments OutOfFuel {A}.

Definition push_MsgCh (f : Frame) (c : Client) : Client :=
  mkClient (transport c) (receipts_ c) (MsgCh c ++ [f]) (MsgCh_closed c) (ErrCh c)
    (MsgCh_recv c).
Definition push_ErrCh (f : Frame) (c : Client) : Client :=
  mkClient (transport c) (receipts_ c) (MsgCh c) (MsgCh_closed c) (ErrCh c ++ [f])
    (MsgCh_recv c).

(** One receive of the application on [MsgCh]: what is left of its
    receives, or [None] when it makes none. *)
Definition receive (c : Client) : option Client :=
  match MsgCh_recv c with
  | None => Some c
  | Some (S n) =>
      Some (mkClient (transport c) (receipts_ c) (MsgCh c) (MsgCh_closed c) (ErrCh c)
              (Some n))
  | Some O => None
  end.

(** The two statements after the loop:
    [close(c.receipts.closed); close(c.MsgCh)]. *)
Definition closeAll (c : Client) : Client :=
  mkClient (transport c) (shutdown (receipts_ c)) (MsgCh c) true (ErrCh c)
    (MsgCh_recv c).

(** The loop of [read].  The send [c.MsgCh <- f] goes through when the
    application receives; when it never does, the loop is blocked in the
    send and the statements after the loop are not reached.  The send on
    [ErrCh] finds room in the buffer (see [Client]).  Every round
    decodes a frame and so consumes input: [fuel] above the length of the
    unread input is never used up (see [Client_read_fuel]). *)
Fixpoint read_loop (fuel : nat) (d : Z) (c : Client) : outcome Client :=
  match fuel with
  | O => OutOfFuel
  | S fuel' =>
      match on_transport (Transport_Recv d) c with
      | (Err _, c) => Exited (closeAll c)
      | (Ok f, c) =>
          if bool_decide (Command f = "HEARTBEAT") then read_loop fuel' d c
          else if bool_decide (Command f = "RECEIPT") then
            match Headers f !! "receipt-id" with
            | None => Panicked "stomp: received a receipt frame without an ID" c
            | Some id => read_loop fuel' d (set_receipts (Clear id (receipts_ c)) c)
            end
          else if bool_decide (Command f = "MESSAGE") then
            match receive c with
            | Some c => read_loop fuel' d (push_MsgCh f c)
            | None => Blocked c
            end
          else if bool_decide (Command f = "ERROR") then
            Exited (closeAll (push_ErrCh f c))
          else Panicked ("stomp: received unkown frame " +:+ Command f) c
      end
  end.

Definition Client_read (d : Z) (c : Client) : outcome Client :=
  read_loop (S (String.length (c_in (transport c)))) d c.

(* ===================================================================== *)
(** * Waiting for a receipt (client.go)                                   *)
(* ===================================================================== *)

(** What a caller blocked in [select] depends on: the identifier
    [newUUID] returns, what the other goroutines do to the shared state
    while the caller waits, and the case [select] takes when both are
    ready. *)
Record Sched : Type := mkSched {
  uuid : result string;
  meanwhile : Client → Client;
  pick_ch : bool
}.

Inductive selected : Type := TookCh | TookClosed.

(** [select { case <-ch: ... case <-r.closed: ... }]: a receive on a
    closed channel is ready, on an open one it is not; [None] when the
    caller stays blocked. *)
Definition select2 (ch_ready closed_ready pick : bool) : option selected :=
  match ch_ready, closed_ready with
  | true, true => Some (if pick then TookCh else TookClosed)
  | true, false => Some TookCh
  | false, true => Some TookClosed
  | false, false => None
  end.

Definition ready (ch : chan) (r : receipts) : bool := bool_decide (ch ∈ fired r).

(** A call returns or stays blocked for ever. *)
Inductive blocking (A : Type) : Type :=
| Returns (a : A)
| Blocks.
#[global] Arguments Returns {A} a.
#[global] Arguments Blocks {A}.

(** The [select] of [doWithReceipt] and what follows it, for the caller
    that waits on [ch] for [id], in the state [c] it wakes up in. *)
Definition awaitReceipt (pick : bool) (id : string) (ch : chan) (c : Client)
  : blocking (option error * Client) :=
  match select2 (ready ch (receipts_ c)) (closed (receipts_ c)) pick with
  | None => Blocks
  | Some TookCh => Returns (None, c)
  | Some TookClosed =>
      Returns (Some ErrChannelClosed, set_receipts (Clear id (receipts_ c)) c)
  end.

Definition doWithReceipt (s : Sched) (f : string → IO unit) (c : Client)
  : blocking (option error * Client) :=
  match uuid s with
  | Err e => Returns (Some e, c)
  | Ok id =>
      let '(ch, r) := Mark id (receipts_ c) in
      match on_transport (f id) (set_receipts r c) with
      | (Err e, c) => Returns (Some e, set_receipts (Clear id (receipts_ c)) c)
      | (Ok _, c) => awaitReceipt (pick_ch s) id ch (meanwhile s c)
      end
  end.

(** [Disconnect]: the same wait, but both cases return nil, and the
    stream is closed on every path. *)
Definition Client_Disconnect (s : Sched) (rg : order) (c : Client)
  : blocking (option error * Client) :=
  let close c := set_transport (conn_Close (transport c)) c in
  match uuid s with
  | Err e => Returns (Some e, close c)
  | Ok id =>
      let '(ch, r) := Mark id (receipts_ c) in
      match on_transport (Transport_Disconnect rg id) (set_receipts r c) with
      | (Err e, c) => Returns (Some e, close (set_receipts (Clear id (receipts_ c)) c))
      | (Ok _, c) =>
          let c := meanwhile s c in
          match select2 (ready ch (receipts_ c)) (closed (receipts_ c)) (pick_ch s) with
          | None => Blocks
          | Some _ => Returns (None, close c)
          end
      end
  end.

Definition Client_Send (s : Sched) (rg : order) (dest : string)
    (hdrs : option (gmap string string)) (bodyType : string)
    (body : option Reader) (receipt : bool) (c : Client)
  : blocking (option error * Client) :=
  if receipt
  then doWithReceipt s (λ rid, Transport_Send rg dest hdrs bodyType body (Some rid)) c
  else let '(r, c) := on_transport (Transport_Send rg dest hdrs bodyType body None) c in
       Returns (to_err r, c).

(* ===================================================================== *)
(** * Transactions (tx.go)                                                *)
(* ===================================================================== *)

(** [Tx] points to the registry and the transport of its client: its
    methods act on the client's state. *)
Record Tx : Type := mkTx {
  tid : string;
  done : bool
}.

(** [defer func() { t.done = true }()]. *)
Definition finish (t : Tx) (r : blocking (option error * Client))
  : blocking (option error * Tx * Client) :=
  match r with
  | Returns (e, c) => Returns (e, mkTx (tid t) true, c)
  | Blocks => Blocks
  end.

Definition plain {A} (x : result unit * A) : blocking (option error * A) :=
  Returns (to_err x.1, x.2).

Definition Tx_Commit (s : Sched) (rg : order) (receipt : bool) (t : Tx) (c : Client)
  : blocking (option error * Tx * Client) :=
  if done t then Returns (Some ErrTxDone, t, c)
  else finish t
         (if receipt
          then doWithReceipt s (λ rid, Transport_TxCommit rg (tid t) (Some rid)) c
          else plain (on_transport (Transport_TxCommit rg (tid t) None) c)).

Definition Tx_Abort (s : Sched) (rg : order) (receipt : bool) (t : Tx) (c : Client)
  : blocking (option error * Tx * Client) :=
  if done t then Returns (None, t, c)
  else finish t
         (if receipt
          then doWithReceipt s (λ rid, Transport_TxAbort rg (tid t) (Some rid)) c
          else plain (on_transport (Transport_TxAbort rg (tid t) None) c)).

Definition Tx_Send (rg : order) (dest : string)
    (hdrs : option (gmap string string)) (bodyType : string)
    (body : option Reader) (t : Tx) (c : Client) : option error * Tx * Client :=
  if done t then (Some ErrTxDone, t, c)
  else let '(r, c) := on_transport (Transport_TxSend rg (tid t) dest hdrs bodyType body) c in
       (to_err r, t, c).

Definition Tx_Ack (rg : order) (id : string) (t : Tx) (c : Client)
  : option error * Tx * Client :=
  if done t then (Some ErrTxDone, t, c)
  else let '(r, c) := on_transport (Transport_TxAck rg (tid t) id) c in
       (to_err r, t, c).

Definition Tx_Nack (rg : order) (id : string) (t : Tx) (c : Client)
  : option error * Tx * Client :=
  if done t then (Some ErrTxDone, t, c)
  else let '(r, c) := on_transport (Transport_TxNack rg (tid t) id) c in
       (to_err r, t, c).

(* ===================================================================== *)
(** * The remaining verbs (transport.go, client.go)                       *)
(* ===================================================================== *)

(** [type AckMode string] and its three values. *)
Definition AckMode : Type := string.
Definition AutoMode : AckMode := "auto".
Definition ClientMode : AckMode := "client".
Definition ClientIndividualMode : AckMode := "client-individual".

Definition Transport_Subscribe (rg : order) (id dest : string) (mode : AckMode)
    (receipt : option string) : IO unit :=
  Encode rg (withReceipt receipt
               (setHeader "ack" mode
                  (setHeader "id" id
                     (setHeader "destination" dest (NewFrame "SUBSCRIBE" None))))).

Definition Transport_Unsubscribe (rg : order) (id : string)
    (receipt : option string) : IO unit :=
  Encode rg (withReceipt receipt (setHeader "id" id (NewFrame "UNSUBSCRIBE" None))).

(** The shape the receipted methods of [Client] share: with a receipt the
    send goes through [doWithReceipt], without one it is a plain call. *)
Definition receipted (s : Sched) (receipt : bool) (f : option string → IO unit)
    (c : Client) : blocking (option error * Client) :=
  if receipt
  then doWithReceipt s (λ rid, f (Some rid)) c
  else plain (on_transport (f None) c).

Definition Client_Ack (s : Sched) (rg : order) (id : string) (receipt : bool)
    (c : Client) : blocking (option error * Client) :=
  receipted s receipt (Transport_Ack rg id) c.

Definition Client_Nack (s : Sched) (rg : order) (id : string) (receipt : bool)
    (c : Client) : blocking (option error * Client) :=
  receipted s receipt (Transport_Nack rg id) c.

Definition Client_Unsubscribe (s : Sched) (rg : order) (id : string)
    (receipt : bool) (c : Client) : blocking (option error * Client) :=
  receipted s receipt (Transport_Unsubscribe rg id) c.

(** [Subscribe] draws the subscription id first ([uid] is what that call
    of [newUUID] returns) and returns it with the outcome of the send. *)
Definition Client_Subscribe (uid : result string) (s : Sched) (rg : order)
    (dest : string) (mode : AckMode) (receipt : bool) (c : Client)
  : blocking (string * option error * Client) :=
  match uid with
  | Err e => Returns (EmptyString, Some e, c)
  | Ok id =>
      match receipted s receipt (Transport_Subscribe rg id dest mode) c with
      | Returns (err, c) => Returns (id, err, c)
      | Blocks => Blocks
      end
  end.

(** [Begin] draws the transaction id first ([uid]) and returns a
    transaction only when the BEGIN frame went out (and, if asked for, its
    receipt came back). *)
Definition Client_Begin (uid : result string) (s : Sched) (rg : order)
    (receipt : bool) (c : Client)
  : blocking (option Tx * option error * Client) :=
  match uid with
  | Err e => Returns (None, Some e, c)
  | Ok tid =>
      match receipted s receipt (Transport_TxBegin rg tid) c with
      | Returns (Some e, c) => Returns (None, Some e, c)
      | Returns (None, c) => Returns (Some (mkTx tid false), None, c)
      | Blocks => Blocks
      end
  end.

(* ===================================================================== *)
(** * The heart-beat emitter (client.go)                                  *)
(* ===================================================================== *)

(** The loop of [write] over the first [ticks] ticks of the ticker: the
    state it has reached, and whether it has returned (which it does on
    the first heart-beat that cannot be written, and only then). *)
Fixpoint heartbeats (ticks : nat) (rg : order) (c : Client) : Client * bool :=
  match ticks with
  | O => (c, false)
  | S ticks' =>
      match on_transport (Transport_Heartbeat rg) c with
      | (Err _, c) => (c, true)
      | (Ok _, c) => heartbeats ticks' rg c
      end
  end.

Definition Client_write (ticks : nat) (rg : order) (d : Z) (c : Client)
  : Client * bool :=
  if d <=? 0 then (c, true) else heartbeats ticks rg c.

(* ===================================================================== *)
(** * Identifiers (uuid.go)                                               *)
(* ===================================================================== *)

Definition hexDigit (n : N) : ascii :=
  match String.get (N.to_nat n) "0123456789abcdef" with
  | Some a => a
  | None => "0"%char
  end.

(** [%x] of one byte: two lower-case hexadecimal digits, the high half of
    the byte first. *)
Definition hexHi (a : ascii) : ascii := hexDigit (N_of_ascii a / 16).
Definition hexLo (a : ascii) : ascii := hexDigit (N_of_ascii a mod 16).
Definition hexByte (a : ascii) : string :=
  String (hexHi a) (String (hexLo a) EmptyString).

(** [%x] of a byte slice. *)
Fixpoint hex (l : list ascii) : string :=
  match l with
  | [] => EmptyString
  | a :: l' => hexByte a +:+ hex l'
  end.

(** [(b & and) | or]. *)
Definition maskByte (and or : N) (b : ascii) : ascii :=
  ascii_of_N (N.lor (N.land (N_of_ascii b) and) or).

(** [newUUID], from what [rand.Read] does to the 16 bytes of [buf]: it
    fails, or it fills them. *)
Definition newUUID (rnd : result (list ascii)) : result string :=
  match rnd with
  | Err e => Err e
  | Ok buf =>
      let buf := alter (maskByte 15 64) 6%nat buf in
      let buf := alter (maskByte 63 128) 8%nat buf in
      Ok (hex (take 4 buf) +:+ "-" +:+ hex (take 2 (drop 4 buf)) +:+ "-" +:+
          hex (take 2 (drop 6 buf)) +:+ "-" +:+ hex (take 2 (drop 8 buf)) +:+ "-" +:+
          hex (drop 10 buf))
  end.

(* ===================================================================== *)
(** * Notions used in the statements                                      *)
(* ===================================================================== *)

(** A connection nobody has written to or closed, with [inp] to read and
    no limit on writing. *)
Definition pipe (inp : string) : Conn :=
  mkConn inp EOF EmptyString None (ErrIO "broken pipe") false None.

(** A connection on which every write fails. *)
Definition brokenPipe (inp : string) : Conn :=
  mkConn inp EOF EmptyString (Some 0%nat) (ErrIO "broken pipe") false None.

(** Actions that leave the stream as open or closed as they found it. *)
Definition keeps_open {A} (m : IO A) : Prop :=
  ∀ c r c', m c = (r, c') → c_closed c' = c_closed c.

(** A frame the peer is not expected to send: a RECEIPT without its
    [receipt-id], or a command the loop has no case for. *)
Definition violation (f : Frame) : Prop :=
  (Command f = "RECEIPT" ∧ Headers f !! "receipt-id" = None) ∨
  Command f ∉ ["HEARTBEAT"; "RECEIPT"; "MESSAGE"; "ERROR"].

(** What the loop panics with on such a frame. *)
Definition panicMessage (f : Frame) : string :=
  if bool_decide (Command f = "RECEIPT")
  then "stomp: received a receipt frame without an ID"
  else "stomp: received unkown frame " +:+ Command f.

(** A client fresh from [Connect] on a stream holding [inp], with an
    application that receives every frame. *)
Definition clientOn (inp : string) : Client :=
  mkClient (pipe inp) newReceipts [] false [] None.

(** The client [c] with an application that makes [n] more receives on
    [MsgCh] ([None]: one for every frame). *)
Definition receiving (n : option nat) (c : Client) : Client :=
  mkClient (transport c) (receipts_ c) (MsgCh c) (MsgCh_closed c) (ErrCh c) n.

(** A schedule in which nothing else happens while the caller waits. *)
Definition idle : Sched := mkSched (Ok "2f1c") (λ c, c) true.

(** The interval two sides agree on, in nanoseconds: the larger of what
    the client asks for and of the [ms] milliseconds the server asks for,
    when neither is zero, and zero (no heart-beat) otherwise. *)
Definition agreed (client ms : Z) : Z :=
  if bool_decide (client ≠ 0 ∧ ms ≠ 0) then Z.max client (Millisecond * ms) else 0.

(** A text that does not go on with a digit. *)
Definition no_digit_next (s : string) : Prop :=
  match s with
  | EmptyString => True
  | String a _ => isDigit a = false
  end.

(** A world without a network, in which the buffered reader of [Connect]
    takes nothing beyond the response and the application receives every
    frame; the same with a reader that has taken [n] bytes beyond the
    response; and a transport configuration whose [Dial] hands out [conn]
    and asks for no TLS. *)
Definition quiet : World := mkWorld (λ _, Err (ErrIO "no route")) None false 0 None.

Definition eager (n : nat) : World :=
  mkWorld (λ _, Err (ErrIO "no route")) None false n None.

Definition plainDial (conn : Conn) : TransportConfig :=
  mkTransportConfig (λ _, Ok conn) None 0.

(** The entries of the caller's headers whose lower-cased name is [j], in
    the order the loop meets them. *)
Definition named (j : string) (l : list (string * string)) : list (string * string) :=
  filter (λ kv, ToLower kv.1 = j) l.

(** The length [makeSendFrame] writes into [content-length]: the number
    of bytes of the body, unless the body is an [io.ReadCloser] that has
    a [Len] of its own, which is then believed. *)
Definition bodyLength (body : option Reader) : Z :=
  match body with
  | None => 0
  | Some b =>
      if r_closer b
      then match r_len b with
           | Some n => wrap64 n
           | None => Z.of_nat (String.length (r_bytes b))
           end
      else Z.of_nat (String.length (r_bytes b))
  end.

(** What an encoder writes for [f] on a fresh stream, fed to a decoder. *)
Definition roundtrip (rg : order) (f : Frame) : result Frame :=
  match Encode rg f (pipe EmptyString) with
  | (Ok _, c) => (Decode zeroFrame (pipe (c_out c))).1
  | (Err e, _) => Err e
  end.

(** The bytes the body of [f] yields, if [f] has a body. *)
Definition body_bytes (f : Frame) : option string := r_bytes <$> Body f.

(** Whether some byte of [s] satisfies [p]. *)
Fixpoint has_byte (p : ascii → bool) (s : string) : bool :=
  match s with
  | EmptyString => false
  | String a s' => p a || has_byte p s'
  end.

(** Whether [a] is the byte [d]. *)
Definition is_byte (d : ascii) (a : ascii) : bool := bool_decide (a = d).

(** The line the encoder writes for a header, and the lines it writes for
    the headers [kvs] in that order. *)
Definition header_line (kv : string * string) : string :=
  kv.1 +:+ ":" +:+ kv.2 +:+ nl.

Definition header_lines (kvs : list (string * string)) : string :=
  foldr (λ kv acc, header_line kv +:+ acc) EmptyString kvs.

(** A header the naive split of the decoder reads back: neither its name
    nor its value has a newline or a colon. *)
Definition is_sep (a : ascii) : bool := is_byte LF a || is_byte COLON a.

Definition clean_header (kv : string * string) : Prop :=
  has_byte is_sep kv.1 = false ∧ has_byte is_sep kv.2 = false.

(** The map the header loop of [Decode] builds from the lines of [kvs]. *)
Definition insert_all (kvs : list (string * string)) (hdrs : gmap string string)
  : gmap string string :=
  fold_left (λ m kv, <[kv.1 := kv.2]> m) kvs hdrs.

(* ===================================================================== *)
(** * Notions used in the statements about the rest of the client       *)
(* ===================================================================== *)

(** A digit of lower-case hexadecimal, and a text made of such digits. *)
Definition is_hex (a : ascii) : bool :=
  bool_decide (a ∈ String.list_ascii_of_string "0123456789abcdef").

Definition all_hex (s : string) : bool := negb (has_byte (λ a, negb (is_hex a)) s).

(** The bytes of a frame on the wire, its headers in the order [kvs]. *)
Definition wire (kvs : list (string * string)) (cmd body : string) : string :=
  cmd +:+ nl +:+ header_lines kvs +:+ nl +:+ body +:+ nul.

(** Actions that only read: they leave alone what was written, the room
    for writing and whether the stream is closed. *)
Definition reads_only {A} (m : IO A) : Prop :=
  ∀ c r c', m c = (r, c') →
    c_out c' = c_out c ∧ c_room c' = c_room c ∧ c_closed c' = c_closed c ∧
    c_rerr c' = c_rerr c ∧ c_werr c' = c_werr c ∧ c_deadline c' = c_deadline c.

(** What the loop may have done to the client [c] when it ends in [c']:
    it has handed over MESSAGE frames, one after the other and one for
    each receive the application has made, and at most one ERROR frame;
    it has not written to the stream nor closed it. *)
Definition read_trace (c c' : Client) : Prop :=
  c_out (transport c') = c_out (transport c) ∧
  c_closed (transport c') = c_closed (transport c) ∧
  (∃ msgs, MsgCh c' = MsgCh c ++ msgs ∧
           Forall (λ f, Command f = "MESSAGE") msgs ∧
           ∀ n, MsgCh_recv c = Some n →
                (length msgs ≤ n)%nat ∧ MsgCh_recv c' = Some (n - length msgs)%nat) ∧
  (ErrCh c' = ErrCh c ∨
   ∃ f, Command f = "ERROR" ∧ ErrCh c' = ErrCh c ++ [f]).

(** The client as the loop leaves it when it stops, by returning or by
    panicking; and as it leaves it when it ends, which it also does by
    being blocked for ever. *)
Definition stopped_in (o : outcome Client) : option Client :=
  match o with
  | Exited c | Panicked _ c => Some c
  | Blocked _ | OutOfFuel => None
  end.

Definition ended_in (o : outcome Client) : option Client :=
  match o with
  | Exited c | Panicked _ c | Blocked c => Some c
  | OutOfFuel => None
  end.

(** The registry as the program keeps it: the channels it holds are open
    and have been made, no channel is held under two ids, and the closed
    channels have been made. *)
Definition registry_ok (r : receipts) : Prop :=
  (∀ id ch, orders r !! id = Some ch → (ch ∉ fired r) ∧ (ch < fresh r)%nat) ∧
  (∀ id1 id2 ch, orders r !! id1 = Some ch → orders r !! id2 = Some ch → id1 = id2) ∧
  (∀ ch, ch ∈ fired r → (ch < fresh r)%nat).

(** The headers of a verb, with the receipt it may ask for. *)
Definition withReceiptHeader (receipt : option string) (m : gmap string string)
  : gmap string string :=
  match receipt with
  | Some r => <["receipt" := r]> m
  | None => m
  end.

(** [k] newline bytes. *)
Fixpoint newlines (k : nat) : string :=
  match k with
  | O => EmptyString
  | S k' => String LF (newlines k')
  end.

(** The number of bytes [d] in [s]. *)
Fixpoint count_byte (d : ascii) (s : string) : nat :=
  match s with
  | EmptyString => 0
  | String a s' => (if is_byte d a then 1 else 0) + count_byte d s'
  end.

(** A header without a newline in its name or value; a header with a
    colon in its name or value. *)
Definition lf_free (kv : string * string) : Prop :=
  has_byte (is_byte LF) kv.1 = false ∧ has_byte (is_byte LF) kv.2 = false.

Definition has_colon (kv : string * string) : Prop :=
  has_byte (is_byte COLON) (kv.1 +:+ kv.2) = true.

(** The bytes of a frame on the wire up to the end of its body. *)
Definition unterminated (kvs : list (string * string)) (cmd body : string) : string :=
  cmd +:+ nl +:+ header_lines kvs +:+ nl +:+ body.

(** [if tr == nil { tr = DefaultTransportConfig }]. *)
Definition trOrDefault (w : World) (tr : option TransportConfig) : TransportConfig :=
  match tr with Some t => t | None => DefaultTransportConfig w end.

(** The bytes a body yields ([nil] yields none), and a body that can be
    sent: it reads and closes without failure, and if it is trusted for
    its length, its [Len] is the number of its bytes. *)
Definition bytes_of (body : option Reader) : string :=
  match body with
  | Some b => r_bytes b
  | None => EmptyString
  end.

Definition sendable (body : option Reader) : Prop :=
  match body with
  | Some b => r_err b = None ∧ r_close b = None
  | None => True
  end ∧
  bodyLength body = Z.of_nat (String.length (bytes_of body)) ∧
  in_int64 (Z.of_nat (String.length (bytes_of body))) = true.

Definition clean_headers (m : gmap string string) : Prop :=
  map_Forall (λ k v, clean_header (k, v)) m.

(** A schedule in which the reader gets the RECEIPT of [id] while the
    caller waits. *)
Definition receiptArrives (id : string) : Sched :=
  mkSched (Ok id) (λ c, set_receipts (Clear id (receipts_ c)) c) false.

(** A broker that has accepted, or refused, the connection: a stream
    holding its answer. *)
Definition accepting : Conn :=
  pipe ("CONNECTED" +:+ nl +:+ "heart-beat:500,3000" +:+ nl +:+ nl +:+ nul).

Definition refusing : Conn :=
  pipe ("ERROR" +:+ nl +:+ "content-type:text/plain" +:+ nl +:+ "content-length:9"
          +:+ nl +:+ nl +:+ "bad login" +:+ nul).

(* ===================================================================== *)
(** * Properties of the stream functions                                  *)
(* ===================================================================== *)

Lemma app_String a s t : String a s +:+ t = String a (s +:+ t).
Proof. reflexivity. Qed.

Lemma app_empty_l t : EmptyString +:+ t = t.
Proof. reflexivity. Qed.

Lemma app_empty_r s : s +:+ EmptyString = s.
Proof. induction s as [|a s IH]; [done|]. by rewrite app_String, IH. Qed.

Lemma string_app_assoc s t u : (s +:+ t) +:+ u = s +:+ t +:+ u.
Proof. induction s as [|a s IH]; [done|]. by rewrite !app_String, IH. Qed.

Lemma string_app_length s t :
  String.length (s +:+ t) = (String.length s + String.length t)%nat.
Proof. induction s as [|a s IH]; [done|]. rewrite ?app_String. simpl. by rewrite IH. Qed.

Lemma has_byte_app p s t : has_byte p (s +:+ t) = has_byte p s || has_byte p t.
Proof.
  induction s as [|a s IH]; [done|]. rewrite ?app_String. simpl.
  by rewrite IH, orb_assoc.
Qed.

Lemma read_until_shorter delim s l rest :
  read_until delim s = Some (l, rest) →
  (String.length rest < String.length s)%nat.
Proof.
  revert l rest. induction s as [|a s IH]; intros l rest; simpl; [done|].
  case_bool_decide.
  - intros [= <- <-]. lia.
  - destruct (read_until delim s) as [[l' rest']|] eqn:E; [|done].
    intros [= <- <-]. specialize (IH _ _ eq_refl). lia.
Qed.

Lemma ReadString_Ok delim c l c' :
  ReadString delim c = (Ok l, c') →
  (String.length (c_in c') < String.length (c_in c))%nat ∧
  c_closed c' = c_closed c ∧ c_out c' = c_out c ∧ c_rerr c' = c_rerr c.
Proof.
  unfold ReadString.
  destruct (read_until delim (c_in c)) as [[l' rest]|] eqn:E; [|done].
  intros [= <- <-]. simpl. eauto using read_until_shorter.
Qed.

Lemma ReadString_le delim c r c' :
  ReadString delim c = (r, c') →
  (String.length (c_in c') ≤ String.length (c_in c))%nat ∧
  c_closed c' = c_closed c ∧ c_rerr c' = c_rerr c.
Proof.
  unfold ReadString.
  destruct (read_until delim (c_in c)) as [[l' rest]|] eqn:E.
  - intros [= <- <-]. simpl. apply read_until_shorter in E. split; [lia|done].
  - intros [= <- <-]. simpl. split; [lia|done].
Qed.

Lemma drop_bytes_length n s :
  String.length (drop_bytes n s) = (String.length s - n)%nat.
Proof.
  revert s. induction n as [|n IH]; intros [|a s]; simpl; auto with lia.
Qed.

Lemma ReadAllLimit_le n c r c' :
  ReadAllLimit n c = (r, c') →
  (String.length (c_in c') ≤ String.length (c_in c))%nat ∧
  c_closed c' = c_closed c ∧ c_rerr c' = c_rerr c.
Proof.
  unfold ReadAllLimit. destruct (n <=? 0).
  - intros [= <- <-]. split; [lia|done].
  - destruct (_ <=? _)%nat.
    + intros [= <- <-]. simpl. rewrite drop_bytes_length. split; [lia|done].
    + destruct (c_rerr c) eqn:E; intros [= <- <-]; simpl;
        (split; [lia|by rewrite ?E]).
Qed.

Lemma read_headers_le fuel hdrs c r c' :
  read_headers fuel hdrs c = (r, c') →
  (String.length (c_in c') ≤ String.length (c_in c))%nat ∧
  c_closed c' = c_closed c ∧ c_rerr c' = c_rerr c.
Proof.
  revert hdrs c. induction fuel as [|fuel IH]; intros hdrs c; simpl.
  - intros [= <- <-]. split; [lia|done].
  - destruct (ReadString LF c) as [[h|e] c1] eqn:E.
    + apply ReadString_Ok in E as (Hlt & Hcl & _ & Herr).
      case_bool_decide.
      * intros [= <- <-]. split; [lia|done].
      * destruct (Split COLON (Trim cut_lf h)) as [|k [|v [|? ?]]];
          try (intros [= <- <-]; split; [lia|done]).
        intros Hrec. apply IH in Hrec as (? & -> & ->). split; [lia|done].
    + apply ReadString_le in E as (? & ? & ?).
      intros [= <- <-]. split; [lia|done].
Qed.

(** The header loop does not depend on its fuel, once there is more of it
    than unread input. *)
Lemma read_headers_fuel fuel hdrs c :
  (String.length (c_in c) < fuel)%nat →
  read_headers fuel hdrs c = read_headers (S (String.length (c_in c))) hdrs c.
Proof.
  remember (String.length (c_in c)) as n eqn:Hn.
  revert fuel hdrs c Hn.
  induction (lt_wf n) as [n _ IH]; intros fuel hdrs c Hn Hlt.
  destruct fuel as [|fuel]; [lia|]. simpl.
  destruct (ReadString LF c) as [[h|e] c1] eqn:E; [|done].
  apply ReadString_Ok in E as (Hsh & _).
  case_bool_decide; [done|].
  destruct (Split COLON (Trim cut_lf h)) as [|k [|v [|? ?]]]; try done.
  rewrite (IH (String.length (c_in c1))) by lia.
  symmetry. rewrite (IH (String.length (c_in c1))) by lia. done.
Qed.

Lemma bind_Ok {A B} (m : IO A) (k : A → IO B) c b c' :
  bind m k c = (Ok b, c') →
  ∃ a c1, m c = (Ok a, c1) ∧ k a c1 = (Ok b, c').
Proof.
  unfold bind. destruct (m c) as [[a|e] c1]; [eauto|done].
Qed.

(** A decoded frame has cost at least one byte of input, and decoding
    neither closes the stream nor writes to it. *)
Lemma Decode_Ok f c g c' :
  Decode f c = (Ok g, c') →
  (String.length (c_in c') < String.length (c_in c))%nat ∧
  c_closed c' = c_closed c.
Proof.
  unfold Decode. intros H.
  apply bind_Ok in H as (l & c1 & H1 & H).
  apply ReadString_Ok in H1 as (Hlt & Hcl & _).
  case_bool_decide.
  { injection H as <- <-. done. }
  apply bind_Ok in H as (hdrs & c2 & H2 & H).
  apply read_headers_le in H2 as (Hle2 & Hcl2 & _).
  apply bind_Ok in H as (body & c3 & H3 & H).
  apply bind_Ok in H as (b & c4 & H4 & H).
  apply ReadString_Ok in H4 as (Hlt4 & Hcl4 & _).
  injection H as <- <-.
  assert ((String.length (c_in c3) ≤ String.length (c_in c2))%nat ∧
          c_closed c3 = c_closed c2) as [Hle3 Hcl3].
  { destruct (hdrs !! "content-length") as [len|].
    - apply bind_Ok in H3 as (n & c2' & Hn & H3).
      unfold lift in Hn. injection Hn as _ <-.
      apply ReadAllLimit_le in H3 as (? & ? & _). done.
    - injection H3 as _ <-. done. }
  split; [lia|congruence].
Qed.

(** A frame that [Decode] gives headers has been given a body too. *)
Lemma Decode_headers_body c g c' k v :
  Decode zeroFrame c = (Ok g, c') →
  Headers g !! k = Some v → is_Some (Body g).
Proof.
  unfold Decode. intros H.
  apply bind_Ok in H as (l & c1 & H1 & H).
  case_bool_decide.
  { injection H as <- <-. simpl. by rewrite lookup_empty. }
  apply bind_Ok in H as (hdrs & c2 & H2 & H).
  apply bind_Ok in H as (body & c3 & H3 & H).
  apply bind_Ok in H as (b & c4 & H4 & H).
  injection H as <- <-. simpl. eauto.
Qed.

Lemma keeps_open_ret {A} (a : A) : keeps_open (ret a).
Proof. by intros c r c' [= <- <-]. Qed.

Lemma keeps_open_fail {A} e : keeps_open (@fail A e).
Proof. by intros c r c' [= <- <-]. Qed.

Lemma keeps_open_lift {A} (x : result A) : keeps_open (lift x).
Proof. by intros c r c' [= <- <-]. Qed.

Lemma keeps_open_bind {A B} (m : IO A) (k : A → IO B) :
  keeps_open m → (∀ a, keeps_open (k a)) → keeps_open (bind m k).
Proof.
  intros Hm Hk c r c'. unfold bind.
  destruct (m c) as [[a|e] c1] eqn:E; apply Hm in E.
  - intros H. apply Hk in H. congruence.
  - intros [= <- <-]. done.
Qed.

Lemma keeps_open_Write s : keeps_open (Write s).
Proof.
  intros c r c'. unfold Write.
  destruct (c_room c); [destruct (_ <=? _)%nat|]; by intros [= <- <-].
Qed.

Lemma keeps_open_write_headers kvs : keeps_open (write_headers kvs).
Proof.
  induction kvs as [|[k v] kvs IH]; simpl.
  - apply keeps_open_ret.
  - apply keeps_open_bind; [apply keeps_open_Write|done].
Qed.

Create HintDb keeps discriminated.
#[local] Hint Resolve keeps_open_ret keeps_open_fail keeps_open_lift
  keeps_open_Write keeps_open_write_headers : keeps.

Lemma keeps_open_Encode rg f : keeps_open (Encode rg f).
Proof.
  unfold Encode, Copy, CloseBody. case_bool_decide; [auto with keeps|].
  repeat (apply keeps_open_bind; [|intros ?]); auto with keeps.
  - destruct (Body f) as [b|]; [|auto with keeps].
    apply keeps_open_bind; [|intros ?].
    + apply keeps_open_bind; [auto with keeps|intros ?].
      destruct (r_err b); auto with keeps.
    + destruct (r_close b); auto with keeps.
Qed.

(* ===================================================================== *)
(** * Properties of the reader loop                                       *)
(* ===================================================================== *)

Lemma Recv_Ok d c f c' :
  on_transport (Transport_Recv d) c = (Ok f, c') →
  (String.length (c_in (transport c')) < String.length (c_in (transport c)))%nat ∧
  receipts_ c' = receipts_ c ∧ MsgCh c' = MsgCh c ∧
  MsgCh_closed c' = MsgCh_closed c ∧ ErrCh c' = ErrCh c.
Proof.
  unfold on_transport, Transport_Recv.
  destruct (Decode _ _) as [r t] eqn:E. intros [= -> <-].
  apply Decode_Ok in E as [Hlt _]. simpl.
  split; [|done]. by destruct (0 <? d).
Qed.

(** A receive of the application changes its end of the channel only. *)
Lemma receive_Some c c' :
  receive c = Some c' →
  transport c' = transport c ∧ receipts_ c' = receipts_ c ∧ MsgCh c' = MsgCh c ∧
  MsgCh_closed c' = MsgCh_closed c ∧ ErrCh c' = ErrCh c.
Proof.
  unfold receive. destruct (MsgCh_recv c) as [[|n]|]; [done|..]; by intros [= <-].
Qed.

(** The loop never runs out of fuel that exceeds the unread input. *)
Lemma read_loop_fuel fuel d c :
  (String.length (c_in (transport c)) < fuel)%nat →
  read_loop fuel d c ≠ OutOfFuel.
Proof.
  revert c. induction fuel as [|fuel IH]; intros c Hlt; [lia|]. simpl.
  destruct (on_transport (Transport_Recv d) c) as [[f|e] c1] eqn:E; [|done].
  apply Recv_Ok in E as (Hsh & _).
  repeat case_bool_decide; try done; try (apply IH; simpl; lia).
  - destruct (Headers f !! "receipt-id"); [|done]. apply IH. simpl. lia.
  - destruct (receive c1) as [c2|] eqn:Er; [|done].
    apply receive_Some in Er as (Ht & _). apply IH. simpl. rewrite Ht. lia.
Qed.

Lemma Client_read_fuel d c : Client_read d c ≠ OutOfFuel.
Proof. apply read_loop_fuel. lia. Qed.

(** Whenever the loop returns, it has run the two [close] statements
    that follow it. *)
Lemma read_loop_Exited fuel d c c' :
  read_loop fuel d c = Exited c' →
  closed (receipts_ c') = true ∧ MsgCh_closed c' = true.
Proof.
  revert c. induction fuel as [|fuel IH]; intros c; simpl; [done|].
  destruct (on_transport (Transport_Recv d) c) as [[f|e] c1].
  - repeat case_bool_decide; try done; try (by apply IH).
    + destruct (Headers f !! "receipt-id"); [apply IH|done].
    + destruct (receive c1); [apply IH|done].
    + by intros [= <-].
  - by intros [= <-].
Qed.

Lemma read_loop_violation fuel d c f c1 :
  on_transport (Transport_Recv d) c = (Ok f, c1) →
  violation f →
  read_loop (S fuel) d c = Panicked (panicMessage f) c1.
Proof.
  intros HR Hv. simpl. rewrite HR. unfold panicMessage.
  destruct Hv as [[Hcmd Hid]|Hcmd].
  - rewrite Hcmd, Hid. done.
  - rewrite !not_elem_of_cons in Hcmd. destruct Hcmd as (?&?&?&?&_).
    repeat (case_bool_decide; [done|]). done.
Qed.

(* ===================================================================== *)
(** * The claims about the frame constructor and the reader loop          *)
(* ===================================================================== *)

(** C10: for every command string and every body argument, the absent one
    included, [NewFrame] gives a frame whose command is the upper-cased
    string and whose body is never nil: a nil body becomes an empty reader,
    so the frame built from no body is the frame built from an empty
    buffer.  The string is upper-cased as [strings.ToUpper] does it: byte
    by byte when it is ASCII, and otherwise rune by rune, with the case
    tables of package [unicode] and every byte that is not part of a
    well-formed rune taken as U+FFFD. *)
Theorem NewFrame_normalises_body (cmd : string) (body : option Reader) :
  Command (NewFrame cmd body) = ToUpper cmd ∧
  is_Some (Body (NewFrame cmd body)) ∧
  NewFrame cmd None = NewFrame cmd (Some emptyBuffer) ∧
  r_bytes <$> Body (NewFrame cmd None) = Some EmptyString ∧
  (isASCII cmd = true → Command (NewFrame cmd body) = map_bytes upper_byte cmd) ∧
  (isASCII cmd = false → Command (NewFrame cmd body) = Map unicode_ToUpper cmd).
Proof.
  unfold NewFrame, ToUpper. simpl.
  split; [done|]. split; [eauto|]. split; [done|]. split; [done|].
  split; by intros ->.
Qed.

(** C5, as the code has it: on a RECEIPT frame without [receipt-id], and
    on a frame whose command is none of HEARTBEAT, RECEIPT, MESSAGE and
    ERROR, the reader loop panics.  The process is aborted in the state the
    frame was received in: nothing is put on the error channel, the
    shutdown signal is not given and the message channel is not closed. *)
Theorem read_panics_on_violation (fuel : nat) (d : Z) (c : Client) (f : Frame)
    (c1 : Client) :
  on_transport (Transport_Recv d) c = (Ok f, c1) →
  violation f →
  read_loop (S fuel) d c = Panicked (panicMessage f) c1 ∧
  Client_read d c = Panicked (panicMessage f) c1 ∧
  ErrCh c1 = ErrCh c ∧
  receipts_ c1 = receipts_ c ∧
  MsgCh_closed c1 = MsgCh_closed c.
Proof.
  intros HR Hv. split; [|split].
  - by apply read_loop_violation.
  - by apply read_loop_violation.
  - apply Recv_Ok in HR as (_ & ? & _ & ? & ?). done.
Qed.

Lemma Clear_removes id r : orders (Clear id r) !! id = None.
Proof.
  unfold Clear. destruct (orders r !! id) eqn:E; simpl; [|done].
  apply lookup_delete_eq.
Qed.

Lemma Clear_idemp id r : Clear id (Clear id r) = Clear id r.
Proof.
  unfold Clear at 1. by rewrite Clear_removes.
Qed.

(** C9: the reader loop always ends, and whenever it returns (on an ERROR
    frame or on a failure to decode) the shutdown channel and the message
    channel are closed.  A caller of [doWithReceipt] whose receipt is
    still pending then (its channel was not closed) wakes up, whatever
    [select] would prefer, with the failure "channel closed"; its
    registration is cleared on the way out, so that it is not resolved a
    second time. *)
Theorem read_exit_unblocks_waiters (d : Z) (c : Client) :
  Client_read d c ≠ OutOfFuel ∧
  (∀ e c1, on_transport (Transport_Recv d) c = (Err e, c1) →
           Client_read d c = Exited (closeAll c1)) ∧
  (∀ f c1, on_transport (Transport_Recv d) c = (Ok f, c1) →
           Command f = "ERROR" →
           Client_read d c = Exited (closeAll (push_ErrCh f c1))) ∧
  (∀ c', Client_read d c = Exited c' →
     closed (receipts_ c') = true ∧
     MsgCh_closed c' = true ∧
     ∀ (pick : bool) (id : string) (ch : chan),
       ready ch (receipts_ c') = false →
       let c'' := set_receipts (Clear id (receipts_ c')) c' in
       awaitReceipt pick id ch c' = Returns (Some ErrChannelClosed, c'') ∧
       orders (receipts_ c'') !! id = None ∧
       Clear id (receipts_ c'') = receipts_ c'') ∧
  (∀ (s : Sched) (f : string → IO unit) (c0 c2 : Client) (id : string),
     uuid s = Ok id →
     on_transport (f id) (set_receipts (Mark id (receipts_ c0)).2 c0) = (Ok tt, c2) →
     Client_read d c = Exited (meanwhile s c2) →
     ready (fresh (receipts_ c0)) (receipts_ (meanwhile s c2)) = false →
     doWithReceipt s f c0
     = Returns (Some ErrChannelClosed,
                set_receipts (Clear id (receipts_ (meanwhile s c2))) (meanwhile s c2))).
Proof.
  split; [apply Client_read_fuel|]. split; [|split; [|split]].
  - intros e c1 HR. unfold Client_read. simpl. by rewrite HR.
  - intros f c1 HR Hcmd. unfold Client_read. simpl. rewrite HR, Hcmd. done.
  - intros c' Hexit. apply read_loop_Exited in Hexit as [Hcl Hmsg].
    split; [done|]. split; [done|].
    intros pick id ch Hpending. simpl.
    split; [|split].
    + unfold awaitReceipt. by rewrite Hpending, Hcl.
    + apply Clear_removes.
    + apply Clear_idemp.
  - intros s f c0 c2 id Hid Hf Hexit Hpending.
    apply read_loop_Exited in Hexit as [Hcl _].
    unfold doWithReceipt. rewrite Hid. simpl in *. rewrite Hf.
    unfold awaitReceipt. by rewrite Hpending, Hcl.
Qed.

(* ===================================================================== *)
(** * The claim about transactions                                        *)
(* ===================================================================== *)

(** C7: on a transaction whose [done] flag is set, [Send], [Ack], [Nack]
    and [Commit] return [ErrTxDone] and [Abort] returns nil, all without
    touching the transaction or the connection.  A [Commit] (and an
    [Abort]) that returns leaves the flag set whether it failed or not, so
    that a failed [Commit] cannot be tried again; a [Commit] that asks for
    no receipt always returns. *)
Theorem Tx_done_is_terminal (s : Sched) (rg : order) (t : Tx) (c : Client) :
  (done t = true →
     (∀ dest hdrs bodyType body,
        Tx_Send rg dest hdrs bodyType body t c = (Some ErrTxDone, t, c)) ∧
     (∀ id, Tx_Ack rg id t c = (Some ErrTxDone, t, c)) ∧
     (∀ id, Tx_Nack rg id t c = (Some ErrTxDone, t, c)) ∧
     (∀ receipt, Tx_Commit s rg receipt t c = Returns (Some ErrTxDone, t, c)) ∧
     (∀ receipt, Tx_Abort s rg receipt t c = Returns (None, t, c))) ∧
  (∀ receipt e t' c',
     Tx_Commit s rg receipt t c = Returns (e, t', c') →
     done t' = true ∧
     ∀ s' receipt', Tx_Commit s' rg receipt' t' c' = Returns (Some ErrTxDone, t', c')) ∧
  (∀ receipt e t' c',
     Tx_Abort s rg receipt t c = Returns (e, t', c') → done t' = true) ∧
  (∃ e t' c', Tx_Commit s rg false t c = Returns (e, t', c')).
Proof.
  split; [|split; [|split]].
  - intros Hdone.
    unfold Tx_Send, Tx_Ack, Tx_Nack, Tx_Commit, Tx_Abort. rewrite Hdone.
    repeat split; done.
  - intros receipt e t' c' H.
    assert (done t' = true) as Hdone.
    { unfold Tx_Commit in H. destruct (done t) eqn:Hd.
      - by injection H as _ <- _.
      - destruct receipt; simpl in H.
        + destruct (doWithReceipt _ _ _) as [[? ?]|]; [|done].
          by injection H as _ <- _.
        + by injection H as _ <- _. }
    split; [done|]. intros s' receipt'. unfold Tx_Commit. by rewrite Hdone.
  - intros receipt e t' c' H.
    unfold Tx_Abort in H. destruct (done t) eqn:Hd.
    + by injection H as _ <- _.
    + destruct receipt; simpl in H.
      * destruct (doWithReceipt _ _ _) as [[? ?]|]; [|done].
        by injection H as _ <- _.
      * by injection H as _ <- _.
  - unfold Tx_Commit. destruct (done t); simpl; eauto.
Qed.

(* ===================================================================== *)
(** * The claim about heart-beat negotiation                              *)
(* ===================================================================== *)

Lemma wrap64_in_range z : in_int64 z = true → wrap64 z = z.
Proof.
  unfold in_int64, wrap64, min_int64, max_int64.
  intros [H1 H2]%andb_prop. apply Z.leb_le in H1, H2.
  rewrite Z.mod_small; lia.
Qed.

Lemma maxDuration_max a b : maxDuration a b = Z.max a b.
Proof. unfold maxDuration. destruct (Z.ltb_spec b a); lia. Qed.

Lemma agreed_code client ms :
  (if negb (client =? 0) && negb (Millisecond * ms =? 0)
   then maxDuration client (Millisecond * ms) else 0) = agreed client ms.
Proof.
  unfold agreed, Millisecond. rewrite maxDuration_max.
  destruct (Z.eqb_spec client 0), (Z.eqb_spec (1000000 * ms) 0); simpl;
    case_bool_decide; try done; lia.
Qed.

Lemma digits_val_acc d acc :
  digits_val (Z.pos acc) (NilEmpty.string_of_uint d)
  = Some (Z.pos (Pos.of_uint_acc d acc)).
Proof.
  revert acc. induction d as [|d IH|d IH|d IH|d IH|d IH|d IH|d IH|d IH|d IH|d IH];
    intros acc; [done|..]; simpl; rewrite <- IH; f_equal; vm_compute Z.sub; lia.
Qed.

Lemma digits_val_uint d :
  digits_val 0 (NilEmpty.string_of_uint d) = Some (Z.of_N (Pos.of_uint d)).
Proof.
  induction d as [|d IH|d IH|d IH|d IH|d IH|d IH|d IH|d IH|d IH|d IH];
    [done|exact IH|..]; simpl; apply digits_val_acc.
Qed.

Lemma string_of_uint_head d :
  ∃ a s, NilZero.string_of_uint d = String a s ∧ a ≠ "+"%char ∧ a ≠ "-"%char ∧
         digits_val 0 (String a s) = Some (Z.of_N (Pos.of_uint d)).
Proof.
  destruct d; (eexists _, _; split; [reflexivity|]; split; [done|]; split; [done|]);
    try done;
    match goal with
    | |- _ = Some (Z.of_N (Pos.of_uint ?x)) => exact (digits_val_uint x)
    end.
Qed.

Lemma Atoi_Itoa z : in_int64 z = true → Atoi (Itoa z) = Ok z.
Proof.
  intros Hz. unfold Atoi, Itoa. destruct z as [|p|p].
  - done.
  - simpl Z.to_int. simpl NilZero.string_of_int.
    destruct (string_of_uint_head (Pos.to_uint p)) as (a & s & -> & Hp & Hm & Hv).
    unfold ParseInt10. rewrite !bool_decide_eq_false_2 by done.
    rewrite Hv, Unsigned.of_to. simpl. by rewrite Hz.
  - simpl Z.to_int. simpl NilZero.string_of_int.
    destruct (string_of_uint_head (Pos.to_uint p)) as (a & s & Hs & Hp & Hm & Hv).
    unfold ParseInt10. rewrite bool_decide_eq_false_2 by done.
    rewrite bool_decide_eq_true_2 by done. rewrite Hs, Hv, Unsigned.of_to.
    change (- Z.of_N (N.pos p)) with (Z.neg p). by rewrite Hz.
Qed.

Lemma span_uint d rest :
  no_digit_next rest →
  span isDigit (NilEmpty.string_of_uint d +:+ rest) = (NilEmpty.string_of_uint d, rest).
Proof.
  intros Hrest.
  induction d as [|d IH|d IH|d IH|d IH|d IH|d IH|d IH|d IH|d IH|d IH];
    try (simpl NilEmpty.string_of_uint; rewrite app_String;
         simpl; by rewrite IH).
  simpl. destruct rest as [|a r]; [done|]. simpl in *. by rewrite Hrest.
Qed.

Lemma span_NilZero d rest :
  no_digit_next rest →
  span isDigit (NilZero.string_of_uint d +:+ rest) = (NilZero.string_of_uint d, rest).
Proof.
  intros Hrest. destruct d; try exact (span_uint _ rest Hrest).
  simpl. destruct rest as [|a r]; [done|]. simpl in *. by rewrite Hrest.
Qed.

(** White space is not skipped past a digit or a sign. *)
Lemma SkipSpace_ascii a s :
  byte_val a < 128 → byte_val a ≠ 10 → isSpace (byte_val a) = false →
  SkipSpace (String a s) = Some (String a s).
Proof.
  intros Hlt H10 Hsp. unfold SkipSpace. simpl.
  rewrite (proj2 (Z.ltb_lt _ _)) by done.
  rewrite (proj2 (Z.eqb_neq _ _)) by done. by rewrite Hsp.
Qed.

Lemma digit_byte a d :
  digit a = Some d → byte_val a < 128 ∧ byte_val a ≠ 10 ∧ isSpace (byte_val a) = false.
Proof.
  unfold digit, byte_val. case_match eqn:E; [|done]. intros _.
  apply andb_prop in E as [H1 H2]. apply Nat.leb_le in H1, H2.
  split; [lia|]. split; [lia|]. unfold isSpace.
  repeat match goal with
         | |- context [?x <=? ?y] => destruct (Z.leb_spec x y); try lia
         | |- context [?x =? ?y] => destruct (Z.eqb_spec x y); try lia
         end; done.
Qed.

Lemma scanInt_Itoa z rest :
  in_int64 z = true → no_digit_next rest →
  scanInt (Itoa z +:+ rest) = Some (z, rest).
Proof.
  intros Hz Hrest. pose proof (Atoi_Itoa z Hz) as HA. unfold Atoi in HA.
  destruct (ParseInt10 (Itoa z)) as [z'|] eqn:HP; [|done]. injection HA as ->.
  unfold Itoa in *. destruct z as [|p|p].
  - change (NilZero.string_of_int (Z.to_int 0)) with "0". unfold scanInt.
    rewrite app_String, SkipSpace_ascii by done. simpl.
    destruct rest as [|a r]; [done|]. simpl in *. by rewrite Hrest.
  - simpl Z.to_int in *. simpl NilZero.string_of_int in *.
    destruct (string_of_uint_head (Pos.to_uint p)) as (a & s & Hs & Hp & Hm & Hv).
    unfold scanInt. rewrite Hs, app_String.
    assert (∃ d, digit a = Some d) as [d Hd].
    { simpl in Hv. destruct (digit a); [eauto|done]. }
    apply digit_byte in Hd as (H1 & H2 & H3).
    rewrite SkipSpace_ascii by done.
    rewrite !bool_decide_eq_false_2 by done. simpl orb. cbv iota.
    rewrite <- app_String. rewrite <- Hs. rewrite span_NilZero by done.
    rewrite Hs. cbv iota beta. rewrite app_empty_l, <- Hs, HP. done.
  - simpl Z.to_int in *. simpl NilZero.string_of_int in *.
    unfold scanInt. rewrite app_String, SkipSpace_ascii by done.
    rewrite bool_decide_eq_false_2 by done.
    rewrite bool_decide_eq_true_2 by done. simpl orb. cbv iota.
    rewrite span_NilZero by done.
    destruct (string_of_uint_head (Pos.to_uint p)) as (a & s & Hs & _).
    rewrite Hs. cbv iota beta. rewrite <- Hs.
    change (String "-" EmptyString +:+ NilZero.string_of_uint (Pos.to_uint p))
      with (String "-" (NilZero.string_of_uint (Pos.to_uint p))).
    by rewrite HP.
Qed.

(** The header [x,y] written in decimal scans as its two numbers. *)
Lemma Sscanf_Itoa x y :
  in_int64 x = true → in_int64 y = true →
  Sscanf_d_d (Itoa x +:+ "," +:+ Itoa y) = (x, y).
Proof.
  intros Hx Hy. unfold Sscanf_d_d.
  rewrite (scanInt_Itoa x) by done. rewrite app_String, app_empty_l.
  rewrite bool_decide_eq_true_2 by done.
  rewrite <- (app_empty_r (Itoa y)). by rewrite (scanInt_Itoa y).
Qed.

(** C4, as the code has it: when the two numbers of the server's
    [heart-beat] header, taken as milliseconds, fit a 64-bit count of
    nanoseconds, the negotiated send interval is the larger of the client's
    send interval and the server's second number if both are non-zero, and
    zero otherwise; the receive interval likewise from the client's receive
    interval and the server's first number.  That holds for every header
    from which [Sscanf] scans these two numbers, and so for the header that
    spells them in decimal with a comma between them.  Without the header
    both are zero.  A client asking for 1000ms and 2000ms against the
    header "500,3000" gets 3000ms and 2000ms. *)
Theorem negotiate_agreed (conf : Heartbeat) (v : string) (x y : Z) :
  Sscanf_d_d v = (x, y) →
  in_int64 (Millisecond * x) = true →
  in_int64 (Millisecond * y) = true →
  negotiate conf (Some v)
  = mkHeartbeat (agreed (Send conf) y) (agreed (Recv conf) x) ∧
  negotiate conf None
  = mkHeartbeat (agreed (Send conf) 0) (agreed (Recv conf) 0) ∧
  negotiate (mkHeartbeat (1000 * Millisecond) (2000 * Millisecond)) (Some "500,3000")
  = mkHeartbeat (3000 * Millisecond) (2000 * Millisecond) ∧
  negotiate conf (Some (Itoa x +:+ "," +:+ Itoa y))
  = mkHeartbeat (agreed (Send conf) y) (agreed (Recv conf) x).
Proof.
  intros Hscan Hx Hy.
  assert (∀ v', Sscanf_d_d v' = (x, y) →
            negotiate conf (Some v')
            = mkHeartbeat (agreed (Send conf) y) (agreed (Recv conf) x)) as Hgen.
  { intros v' Hv'. unfold negotiate. rewrite Hv'.
    rewrite !wrap64_in_range by done. by rewrite !agreed_code. }
  split; [by apply Hgen|]. split; [|split].
  - unfold negotiate, agreed.
    f_equal; (case_bool_decide as Hd; [destruct Hd as [_ Hd]; congruence|done]).
  - reflexivity.
  - apply Hgen, Sscanf_Itoa.
    + revert Hx. unfold in_int64, min_int64, max_int64, Millisecond.
      intros [H1 H2]%andb_prop. apply Z.leb_le in H1, H2.
      apply andb_true_intro. split; apply Z.leb_le; lia.
    + revert Hy. unfold in_int64, min_int64, max_int64, Millisecond.
      intros [H1 H2]%andb_prop. apply Z.leb_le in H1, H2.
      apply andb_true_intro. split; apply Z.leb_le; lia.
Qed.

(* ===================================================================== *)
(** * The claim about failures of Connect                                 *)
(* ===================================================================== *)

(** Every failure of [Connect] but one closes the stream: the exception
    is the failure to send the CONNECT frame. *)
Lemma Connect_failure w rg toString addr conf tr e conn' :
  Connect w rg toString addr conf (Some tr) = (Err e, Some conn') →
  c_closed conn' = true ∨
  ∃ conn, Dial tr addr = Ok conn ∧
          Encode rg (connectFrame toString (orDefault conf)) conn = (Err e, conn').
Proof.
  unfold Connect.
  destruct (Dial tr addr) as [conn|e0]; [|done].
  destruct (match TLSConfig tr with Some _ => _ | None => _ end).
  { intros [= <- <-]. by left. }
  destruct (Encode _ _ _) as [[[]|e1] conn1] eqn:EE.
  - destruct (Decode _ _) as [[resp|e2] conn2].
    + case_bool_decide; [|done]. intros [= <- <-]. by left.
    + intros [= <- <-]. by left.
  - intros [= <- <-]. right. eauto.
Qed.

(** C6 fails on the code where the CONNECT frame cannot be sent: [Connect]
    returns the failure of the encoder, and the stream that [Dial] opened
    is handed back as the encoder left it, not closed. *)
Theorem Connect_send_failure_leaves_stream_open (w : World) (rg : order)
    (toString : Heartbeat → string) (addr : string) (conf : option Config)
    (tr : TransportConfig) (conn conn' : Conn) (e : error) :
  Dial tr addr = Ok conn →
  TLSConfig tr = None →
  Encode rg (connectFrame toString (orDefault conf)) conn = (Err e, conn') →
  Connect w rg toString addr conf (Some tr) = (Err e, Some conn') ∧
  c_closed conn' = c_closed conn.
Proof.
  intros HD HT HE. split.
  - unfold Connect. by rewrite HD, HT, HE.
  - by apply keeps_open_Encode in HE.
Qed.

(* ===================================================================== *)
(** * The claims about the SEND frame                                     *)
(* ===================================================================== *)

(** The loop over the caller's headers, header by header of the result: a
    protected name keeps what the frame had, any other name gets the
    value of the last entry that lower-cases to it. *)
Lemma mergeHeader_lookup (l : list (string * string)) (f : Frame) (j : string) :
  Headers (fold_left mergeHeader l f) !! j
  = if bool_decide (j ∈ forbidden) then Headers f !! j
    else match last (named j l) with
         | Some kv => Some kv.2
         | None => Headers f !! j
         end.
Proof.
  induction l as [|kv l IH] using rev_ind.
  - simpl. by case_bool_decide.
  - rewrite fold_left_app. simpl. unfold named in *. rewrite filter_app.
    unfold mergeHeader at 1.
    destruct (decide (ToLower kv.1 ∈ forbidden)) as [Hin|Hnin].
    + rewrite bool_decide_eq_true_2 by done. rewrite IH.
      case_bool_decide; [done|].
      rewrite filter_cons_False, filter_nil, app_nil_r; [done|].
      simpl. congruence.
    + rewrite bool_decide_eq_false_2 by done. simpl.
      destruct (decide (ToLower kv.1 = j)) as [<-|Hne].
      * rewrite lookup_insert_eq. rewrite bool_decide_eq_false_2 by done.
        rewrite filter_cons_True, filter_nil by done. by rewrite last_snoc.
      * rewrite lookup_insert_ne by done. rewrite IH.
        rewrite filter_cons_False, filter_nil, app_nil_r by done. done.
Qed.

Lemma mergeHeader_Command l f : Command (fold_left mergeHeader l f) = Command f.
Proof.
  revert f. induction l as [|kv l IH]; intros f; simpl; [done|].
  rewrite IH. unfold mergeHeader. by case_bool_decide.
Qed.

Lemma fair_elem_of rg (hdrs : gmap string string) k v :
  fair rg → (k, v) ∈ rg hdrs ↔ hdrs !! k = Some v.
Proof.
  intros Hfair. rewrite (Hfair hdrs). apply elem_of_map_to_list.
Qed.

Lemma fair_map_to_list : fair map_to_list.
Proof. by intros m. Qed.

(** The headers of the frame before the caller's are merged in. *)
Lemma measureBody_headers dest bodyType body f :
  measureBody bodyType (setHeader "destination" dest (NewFrame "SEND" body)) = Ok f →
  Headers f = <["content-length" := Itoa (bodyLength body)]>
                (<["content-type" := bodyType]> (<["destination" := dest]> ∅)).
Proof.
  unfold measureBody, NewFrame, bodyLength. simpl.
  destruct body as [b|]; simpl.
  - destruct (r_closer b) eqn:Hc; simpl.
    + destruct (r_len b); [by intros [= <-]|].
      destruct (r_err b); [done|]. destruct (r_close b); [done|].
      by intros [= <-].
    + destruct (r_err b); [done|]. by intros [= <-].
  - by intros [= <-].
Qed.

Lemma makeSendFrame_Ok rg dest hdrs bodyType body f :
  makeSendFrame rg dest hdrs bodyType body = Ok f →
  ∃ f0, measureBody bodyType (setHeader "destination" dest (NewFrame "SEND" body)) = Ok f0 ∧
        f = match hdrs with
            | Some hdrs => fold_left mergeHeader (rg hdrs) f0
            | None => f0
            end.
Proof.
  unfold makeSendFrame. destruct (measureBody _ _) as [f0|]; [|done].
  destruct hdrs; intros [= <-]; eauto.
Qed.

Ltac forbidden_name :=
  apply (bool_decide_eq_true_1 _); vm_compute; reflexivity.

(** The headers the protocol manages are out of the caller's reach. *)
Lemma makeSendFrame_managed rg dest hdrs bodyType body f :
  makeSendFrame rg dest hdrs bodyType body = Ok f →
  Headers f !! "destination" = Some dest ∧
  Headers f !! "content-type" = Some bodyType ∧
  Headers f !! "content-length" = Some (Itoa (bodyLength body)) ∧
  Headers f !! "id" = None ∧
  Headers f !! "receipt" = None ∧
  Headers f !! "transaction" = None.
Proof.
  intros (f0 & H0 & ->)%makeSendFrame_Ok.
  apply measureBody_headers in H0.
  assert (∀ j, j ∈ forbidden →
            Headers (match hdrs with
                     | Some hdrs => fold_left mergeHeader (rg hdrs) f0
                     | None => f0
                     end) !! j = Headers f0 !! j) as Hkeep.
  { intros j Hj. destruct hdrs; [|done].
    rewrite mergeHeader_lookup. by rewrite bool_decide_eq_true_2. }
  rewrite !Hkeep by forbidden_name. rewrite H0.
  repeat split; by simplify_map_eq.
Qed.

(** C8, as the code has it: whatever headers the caller hands to the
    construction of a SEND frame, the frame has [destination],
    [content-type] and [content-length] as the builder computes them (the
    length of the body for [content-length]) and no [id], [receipt] or
    [transaction]: the caller's entries with those names, in any case of
    the letters, are dropped.  Every other entry of the caller is merged in
    under its lower-cased name: the frame has that name, with the value of
    a caller's entry of that lower-cased name, which is the entry's own
    value when no other name of the caller differs from it by case only;
    and the frame has no further header. *)
Theorem makeSendFrame_merges_lowercased (rg : order) (dest : string)
    (hdrs : gmap string string) (bodyType : string) (body : option Reader)
    (f : Frame) :
  fair rg →
  makeSendFrame rg dest (Some hdrs) bodyType body = Ok f →
  (Headers f !! "destination" = Some dest ∧
   Headers f !! "content-type" = Some bodyType ∧
   Headers f !! "content-length" = Some (Itoa (bodyLength body)) ∧
   Headers f !! "id" = None ∧
   Headers f !! "receipt" = None ∧
   Headers f !! "transaction" = None) ∧
  (∀ k v, hdrs !! k = Some v → ToLower k ∉ forbidden →
     ∃ k' v', hdrs !! k' = Some v' ∧ ToLower k' = ToLower k ∧
              Headers f !! ToLower k = Some v') ∧
  (∀ k v, hdrs !! k = Some v → ToLower k ∉ forbidden →
     (∀ k', is_Some (hdrs !! k') → ToLower k' = ToLower k → k' = k) →
     Headers f !! ToLower k = Some v) ∧
  (∀ j v, Headers f !! j = Some v → j ∉ forbidden →
     ∃ k, hdrs !! k = Some v ∧ ToLower k = j).
Proof.
  intros Hfair Hmk.
  split; [by eapply makeSendFrame_managed|].
  apply makeSendFrame_Ok in Hmk as (f0 & H0 & ->).
  apply measureBody_headers in H0.
  assert (∀ k v, hdrs !! k = Some v → ToLower k ∉ forbidden →
            ∃ k' v', hdrs !! k' = Some v' ∧ ToLower k' = ToLower k ∧
                     Headers (fold_left mergeHeader (rg hdrs) f0) !! ToLower k
                     = Some v') as Hin.
  { intros k v Hk Hnf. rewrite mergeHeader_lookup.
    rewrite bool_decide_eq_false_2 by done.
    destruct (last (named (ToLower k) (rg hdrs))) as [[k' v']|] eqn:El.
    - exists k', v'. apply last_Some in El as [l' El].
      assert ((k', v') ∈ named (ToLower k) (rg hdrs)) as Hel
        by (rewrite El; set_solver).
      apply list_elem_of_filter in Hel as [Hlow Hel].
      apply fair_elem_of in Hel; done.
    - exfalso. apply last_None in El.
      assert ((k, v) ∈ named (ToLower k) (rg hdrs)) as Hel.
      { apply list_elem_of_filter. split; [done|]. by apply fair_elem_of. }
      rewrite El in Hel. by apply not_elem_of_nil in Hel. }
  split; [done|]. split.
  - intros k v Hk Hnf Huniq.
    destruct (Hin k v Hk Hnf) as (k' & v' & Hk' & Hlow & ->).
    assert (k' = k) as -> by (apply Huniq; eauto). congruence.
  - intros j v Hj Hnf. rewrite mergeHeader_lookup in Hj.
    rewrite bool_decide_eq_false_2 in Hj by done.
    destruct (last (named j (rg hdrs))) as [[k' v']|] eqn:El.
    + injection Hj as ->. exists k'. apply last_Some in El as [l' El].
      assert ((k', v) ∈ named j (rg hdrs)) as Hel by (rewrite El; set_solver).
      apply list_elem_of_filter in Hel as [Hlow Hel].
      apply fair_elem_of in Hel; done.
    + exfalso. rewrite H0 in Hj.
      apply lookup_insert_Some in Hj as [[<- _]|[_ Hj]]; [apply Hnf; forbidden_name|].
      apply lookup_insert_Some in Hj as [[<- _]|[_ Hj]]; [apply Hnf; forbidden_name|].
      apply lookup_insert_Some in Hj as [[<- _]|[_ Hj]]; [apply Hnf; forbidden_name|].
      by rewrite lookup_empty in Hj.
Qed.

(** The half of C3 that holds: the SEND frame has a [receipt] header
    exactly when the caller gives a receipt id, and then it is that id. *)
Lemma sendFrame_receipt rg dest hdrs bodyType body receipt f :
  sendFrame rg dest hdrs bodyType body receipt = Ok f →
  Headers f !! "receipt" = receipt.
Proof.
  unfold sendFrame.
  destruct (makeSendFrame _ _ _ _ _) as [f0|] eqn:E; [|done].
  intros [= <-]. apply makeSendFrame_managed in E as (_ & _ & _ & _ & Hr & _).
  destruct receipt; simpl; [apply lookup_insert_eq|done].
Qed.

(** C3 fails on the code for a caller that supplies no body: [NewFrame]
    has replaced the nil body by an empty reader before [makeSendFrame]
    tests it, and the frame gets its [content-type] (and a
    [content-length] of 0) all the same, whatever headers and receipt the
    caller gives. *)
Theorem sendFrame_without_body_has_content_type (rg : order) (dest : string)
    (hdrs : option (gmap string string)) (bodyType : string)
    (receipt : option string) :
  ∃ f, sendFrame rg dest hdrs bodyType None receipt = Ok f ∧
       Headers f !! "content-type" = Some bodyType ∧
       Headers f !! "content-length" = Some "0".
Proof.
  unfold sendFrame.
  destruct (makeSendFrame rg dest hdrs bodyType None) as [f0|e] eqn:E.
  - exists (withReceipt receipt f0). split; [done|].
    apply makeSendFrame_managed in E as (_ & Hct & Hcl & _).
    destruct receipt; simpl; [|done].
    rewrite !lookup_insert_ne by done. done.
  - exfalso. unfold makeSendFrame in E. simpl in E. by destruct hdrs.
Qed.

(* ===================================================================== *)
(** * The claims about the codec                                          *)
(* ===================================================================== *)

(** C1 fails on the code for a frame without [content-length]: the
    decoder starts the body from the one-byte slice [[]byte{0}] and
    appends what it reads with the terminator left on.  The ACK frame of
    [Transport.Ack], whose body is empty, comes back with a body of one
    zero byte; a MESSAGE frame with the body "hi" comes back with a zero
    byte before and after it.  Command and headers do come back. *)
Theorem roundtrip_without_content_length :
  let ack := setHeader "id" "42" (NewFrame "ACK" None) in
  let msg := setHeader "destination" "/queue/a"
               (NewFrame "MESSAGE" (Some (bytesReader "hi"))) in
  (∃ g, roundtrip map_to_list ack = Ok g ∧
        Command g = Command ack ∧ Headers g = Headers ack ∧
        body_bytes ack = Some EmptyString ∧
        body_bytes g = Some nul) ∧
  (∃ g, roundtrip map_to_list msg = Ok g ∧
        Command g = Command msg ∧ Headers g = Headers msg ∧
        body_bytes msg = Some "hi" ∧
        body_bytes g = Some (nul +:+ "hi" +:+ nul)).
Proof.
  split; eexists; (split; [vm_compute; reflexivity|]);
    repeat split; vm_compute; reflexivity.
Qed.

(** C2 fails on the code in both branches.  With [content-length: 2] and
    the bytes "hixy" before the terminator, the body is "hi", then "xy",
    then the terminator itself; without [content-length] and with "hello"
    before the terminator, the body is a zero byte, "hello", and the
    terminator.  Only a body of exactly [content-length] bytes comes out
    as the claim says. *)
Theorem Decode_body_keeps_terminator :
  let sized := "SEND" +:+ nl +:+ "content-length:2" +:+ nl +:+ nl in
  let plain := "SEND" +:+ nl +:+ nl in
  (∃ g c, Decode zeroFrame (pipe (sized +:+ "hixy" +:+ nul)) = (Ok g, c) ∧
          body_bytes g = Some ("hi" +:+ "xy" +:+ nul)) ∧
  (∃ g c, Decode zeroFrame (pipe (plain +:+ "hello" +:+ nul)) = (Ok g, c) ∧
          body_bytes g = Some (nul +:+ "hello" +:+ nul)) ∧
  (∃ g c, Decode zeroFrame (pipe (plain +:+ nul)) = (Ok g, c) ∧
          body_bytes g = Some nul) ∧
  (∃ g c, Decode zeroFrame (pipe (sized +:+ "hi" +:+ nul)) = (Ok g, c) ∧
          body_bytes g = Some "hi").
Proof.
  repeat split; do 2 eexists; (split; [vm_compute; reflexivity|]);
    vm_compute; reflexivity.
Qed.

(* ===================================================================== *)
(** * Where the round trip holds                                          *)
(* ===================================================================== *)

Lemma read_until_app d s rest :
  has_byte (is_byte d) s = false →
  read_until d (s +:+ String d rest) = Some (s +:+ String d EmptyString, rest).
Proof.
  induction s as [|a s IH]; simpl.
  - intros _. rewrite ?app_empty_l. simpl. by rewrite bool_decide_eq_true_2.
  - intros [Ha Hs]%orb_false_elim. rewrite ?app_String. simpl.
    unfold is_byte in Ha. rewrite Ha. by rewrite (IH Hs).
Qed.

Lemma TrimRight_line cut s :
  cut LF = true → has_byte cut s = false → TrimRight cut (s +:+ nl) = s.
Proof.
  intros Hcut. induction s as [|a s IH]; simpl.
  - intros _. rewrite ?app_empty_l. simpl. by rewrite Hcut.
  - intros [Ha Hs]%orb_false_elim. rewrite ?app_String. simpl.
    rewrite (IH Hs). destruct s; [by rewrite Ha|done].
Qed.

Lemma Trim_line cut s :
  cut LF = true → has_byte cut s = false → Trim cut (s +:+ nl) = s.
Proof.
  intros Hcut Hs. unfold Trim. destruct s as [|a s].
  - rewrite ?app_empty_l. simpl. by rewrite Hcut.
  - rewrite ?app_String. simpl in *. apply orb_false_elim in Hs as [Ha Hs].
    rewrite Ha. rewrite <- app_String. apply TrimRight_line; [done|].
    simpl. by rewrite Ha, Hs.
Qed.


Lemma Split_none sep s : has_byte (is_byte sep) s = false → Split sep s = [s].
Proof.
  induction s as [|a s IH]; simpl; [done|].
  intros [Ha Hs]%orb_false_elim. unfold is_byte in Ha. rewrite Ha.
  by rewrite (IH Hs).
Qed.

Lemma Split_app sep k v :
  has_byte (is_byte sep) k = false →
  Split sep (k +:+ String sep v) = k :: Split sep v.
Proof.
  induction k as [|a k IH]; simpl.
  - intros _. rewrite ?app_empty_l. simpl. by rewrite bool_decide_eq_true_2.
  - intros [Ha Hk]%orb_false_elim. rewrite ?app_String. simpl.
    unfold is_byte in Ha. rewrite Ha. by rewrite (IH Hk).
Qed.

Lemma has_byte_weaken (p q : ascii → bool) s :
  (∀ a, q a = true → p a = true) → has_byte p s = false → has_byte q s = false.
Proof.
  intros Hpq. induction s as [|a s IH]; simpl; [done|].
  intros [Ha Hs]%orb_false_elim. rewrite (IH Hs), orb_false_r.
  destruct (q a) eqn:E; [|done]. apply Hpq in E. congruence.
Qed.

Lemma sep_free_LF s : has_byte is_sep s = false → has_byte (is_byte LF) s = false.
Proof. apply has_byte_weaken. unfold is_sep. by intros a ->. Qed.

Lemma sep_free_COLON s : has_byte is_sep s = false → has_byte (is_byte COLON) s = false.
Proof. apply has_byte_weaken. unfold is_sep. intros a ->. apply orb_true_r. Qed.

Lemma set_out_set_out s1 s2 r1 r2 c : set_out s2 r2 (set_out s1 r1 c) = set_out s2 r2 c.
Proof. done. Qed.

Lemma set_in_set_in s1 s2 c : set_in s2 (set_in s1 c) = set_in s2 c.
Proof. done. Qed.

Lemma Write_unlimited s c :
  c_room c = None → Write s c = (Ok tt, set_out (c_out c +:+ s) None c).
Proof. unfold Write. by intros ->. Qed.

Lemma write_headers_unlimited kvs c :
  c_room c = None →
  write_headers kvs c = (Ok tt, set_out (c_out c +:+ header_lines kvs) None c).
Proof.
  revert c. induction kvs as [|[k v] kvs IH]; intros c Hroom; simpl.
  - unfold ret. rewrite app_empty_r. destruct c as [i re o ro we cl dl]; simpl in *; subst. reflexivity.
  - unfold bind. rewrite Write_unlimited by done. rewrite IH by done.
    rewrite set_out_set_out. simpl. unfold header_line. simpl.
    by rewrite !string_app_assoc.
Qed.

Lemma Encode_pipe rg f b :
  Command f ≠ "HEARTBEAT" → Body f = Some b → r_err b = None → r_close b = None →
  Encode rg f (pipe EmptyString)
  = (Ok tt, set_out (Command f +:+ nl +:+ header_lines (rg (Headers f)) +:+ nl
                       +:+ r_bytes b +:+ nul) None (pipe EmptyString)).
Proof.
  intros Hcmd Hb Herr Hclose. unfold Encode.
  rewrite bool_decide_eq_false_2 by done.
  unfold bind, Copy, CloseBody, bind. rewrite Hb, Herr, Hclose.
  rewrite Write_unlimited by done.
  rewrite write_headers_unlimited by done.
  rewrite !Write_unlimited by done. unfold ret.
  rewrite !set_out_set_out. rewrite Write_unlimited by done.
  rewrite !set_out_set_out. simpl. by rewrite !string_app_assoc.
Qed.

Lemma header_lines_length kvs : (length kvs ≤ String.length (header_lines kvs))%nat.
Proof.
  induction kvs as [|kv kvs IH]; simpl; [done|].
  unfold header_line. rewrite !string_app_length. simpl. lia.
Qed.

Lemma read_headers_lines kvs :
  Forall clean_header kvs →
  ∀ fuel hdrs c rest,
    c_in c = header_lines kvs +:+ nl +:+ rest →
    (length kvs < fuel)%nat →
    read_headers fuel hdrs c = (Ok (insert_all kvs hdrs), set_in rest c).
Proof.
  induction 1 as [|[k v] kvs [Hk Hv] _ IH]; intros fuel hdrs c rest Hin Hfuel;
    (destruct fuel as [|fuel]; [simpl in Hfuel; lia|]); simpl.
  - unfold ReadString. rewrite Hin. reflexivity.
  - simpl in Hk, Hv.
    assert (has_byte (is_byte LF) (k +:+ String COLON v) = false) as Hlf.
    { rewrite has_byte_app. simpl.
      by rewrite (sep_free_LF k), (sep_free_LF v). }
    assert (c_in c = (k +:+ String COLON v) +:+ String LF (header_lines kvs +:+ nl +:+ rest))
      as Hin'.
    { rewrite Hin. simpl. unfold header_line. simpl.
      by rewrite !string_app_assoc. }
    unfold ReadString. rewrite Hin', (read_until_app _ _ _ Hlf).
    rewrite bool_decide_eq_false_2; last first.
    { intros Heq. apply (f_equal String.length) in Heq.
      rewrite !string_app_length in Heq. simpl in Heq. lia. }
    change (String LF EmptyString) with nl.
    rewrite (Trim_line cut_lf) by done.
    rewrite Split_app, Split_none by (by apply sep_free_COLON).
    rewrite (IH fuel (<[k:=v]> hdrs) _ rest); [done|done|simpl in Hfuel; lia].
Qed.

Lemma insert_all_list_to_map kvs :
  insert_all kvs ∅ = list_to_map (reverse kvs).
Proof.
  unfold insert_all. rewrite <- (reverse_involutive kvs) at 1.
  generalize (reverse kvs). intros l. induction l as [|kv l IH]; [done|].
  rewrite reverse_cons, fold_left_app. simpl. by rewrite IH.
Qed.

Lemma insert_all_fair rg (m : gmap string string) :
  fair rg → insert_all (rg m) ∅ = m.
Proof.
  intros Hfair. rewrite insert_all_list_to_map. symmetry.
  apply list_to_map_flip. rewrite reverse_Permutation. symmetry. apply Hfair.
Qed.

Lemma take_bytes_app s t : take_bytes (String.length s) (s +:+ t) = s.
Proof. induction s as [|a s IH]; simpl; [by destruct t|]. by rewrite IH. Qed.

Lemma drop_bytes_app s t : drop_bytes (String.length s) (s +:+ t) = t.
Proof. induction s as [|a s IH]; simpl; [by destruct t|]. by rewrite IH. Qed.

Lemma set_in_same c : set_in (c_in c) c = c.
Proof. by destruct c. Qed.

Lemma ReadAllLimit_exact body rest c :
  c_in c = body +:+ rest →
  ReadAllLimit (Z.of_nat (String.length body)) c = (Ok body, set_in rest c).
Proof.
  intros Hin. unfold ReadAllLimit.
  destruct (Z.leb_spec (Z.of_nat (String.length body)) 0) as [Hle|Hgt].
  - destruct body; [|simpl in Hle; lia]. change (c_in c = rest) in Hin.
    by rewrite <- Hin, set_in_same.
  - rewrite Nat2Z.id, Hin, string_app_length.
    rewrite (proj2 (Nat.leb_le _ _)) by lia.
    by rewrite take_bytes_app, drop_bytes_app.
Qed.

(** The round trip of a frame that announces the length of its body. *)
Lemma roundtrip_sized (rg : order) (f : Frame) (b : Reader)
    (len : string) :
  fair rg →
  Command f ≠ EmptyString →
  Command f ≠ "HEARTBEAT" →
  has_byte cut_crlf (Command f) = false →
  map_Forall (λ k v, clean_header (k, v)) (Headers f) →
  Body f = Some b → r_err b = None → r_close b = None →
  Headers f !! "content-length" = Some len →
  Atoi len = Ok (Z.of_nat (String.length (r_bytes b))) →
  ∃ g, roundtrip rg f = Ok g ∧
       Command g = Command f ∧ Headers g = Headers f ∧
       body_bytes g = body_bytes f.
Proof.
  intros Hfair Hne Hhb Hcmd Hclean Hb Herr Hclose Hlen Hatoi.
  unfold roundtrip. rewrite (Encode_pipe rg f b) by done. simpl.
  assert (Forall clean_header (rg (Headers f))) as Hkvs.
  { apply Forall_forall. intros [k v] Hkv.
    apply (fair_elem_of _ _ _ _ Hfair) in Hkv. by apply Hclean in Hkv. }
  assert (has_byte (is_byte LF) (Command f) = false) as Hlf.
  { revert Hcmd. apply has_byte_weaken. unfold cut_crlf, is_byte.
    intros a ->. apply orb_true_r. }
  unfold Decode, bind.
  unfold ReadString at 1. simpl c_in.
  change (Command f +:+ nl +:+ ?x) with (Command f +:+ String LF x).
  rewrite (read_until_app _ _ _ Hlf).
  rewrite bool_decide_eq_false_2; last first.
  { intros Heq. apply (f_equal String.length) in Heq.
    rewrite string_app_length in Heq. simpl in Heq.
    destruct (Command f); [done|simpl in Heq; lia]. }
  change (String LF EmptyString) with nl.
  rewrite (Trim_line cut_crlf) by done.
  erewrite (read_headers_lines _ Hkvs); [|reflexivity|]; last first.
  { simpl. rewrite !string_app_length.
    pose proof (header_lines_length (rg (Headers f))). lia. }
  rewrite (insert_all_fair _ _ Hfair), Hlen. unfold lift. rewrite Hatoi.
  erewrite ReadAllLimit_exact by reflexivity.
  unfold ReadBytes, ReadString. simpl.
  eexists. split; [reflexivity|]. unfold body_bytes. by rewrite Hb.
Qed.

(** X1: where the round trip does hold: a frame whose command and headers are
    free of the bytes the wire format uses, and whose [content-length]
    header is the length of its body (as [makeSendFrame] sets it), is
    decoded from its encoding with the same command, headers and body,
    whatever the order in which the encoder visits the headers. *)
Theorem roundtrip_with_content_length (rg : order) (f : Frame) (b : Reader)
    (len : string) :
  fair rg →
  Command f ≠ EmptyString →
  Command f ≠ "HEARTBEAT" →
  has_byte cut_crlf (Command f) = false →
  map_Forall (λ k v, clean_header (k, v)) (Headers f) →
  Body f = Some b → r_err b = None → r_close b = None →
  Headers f !! "content-length" = Some len →
  Atoi len = Ok (Z.of_nat (String.length (r_bytes b))) →
  ∃ g, roundtrip rg f = Ok g ∧
       Command g = Command f ∧ Headers g = Headers f ∧
       body_bytes g = body_bytes f.
Proof. apply roundtrip_sized. Qed.

(* ===================================================================== *)
(** * The encoder as one write                                            *)
(* ===================================================================== *)

Lemma take_bytes_all n s : (String.length s ≤ n)%nat → take_bytes n s = s.
Proof.
  revert n. induction s as [|a s IH]; intros [|n] Hn; simpl in *; try done; try lia.
  rewrite IH by lia. done.
Qed.

Lemma take_bytes_app_l n s t :
  (n ≤ String.length s)%nat → take_bytes n (s +:+ t) = take_bytes n s.
Proof.
  revert n. induction s as [|a s IH]; intros [|n] Hn; simpl in *; try done; try lia.
  rewrite IH by lia. done.
Qed.

Lemma take_bytes_app_r n s t :
  (String.length s ≤ n)%nat →
  take_bytes n (s +:+ t) = s +:+ take_bytes (n - String.length s) t.
Proof.
  revert n. induction s as [|a s IH]; intros n Hn; simpl in *.
  - by rewrite Nat.sub_0_r.
  - destruct n as [|n]; [lia|]. simpl. rewrite IH by lia. done.
Qed.

Lemma set_out_same c : set_out (c_out c) (c_room c) c = c.
Proof. by destruct c. Qed.

Lemma Write_empty c : Write EmptyString c = (Ok tt, c).
Proof.
  unfold Write. destruct (c_room c) as [n|] eqn:E; simpl.
  - rewrite Nat.sub_0_r, app_empty_r, <- E. by rewrite set_out_same.
  - rewrite app_empty_r, <- E. by rewrite set_out_same.
Qed.

(** Two writes in a row are one write of the two texts. *)
Lemma Write_app a b c : bind (Write a) (λ _, Write b) c = Write (a +:+ b) c.
Proof.
  unfold bind, Write. destruct (c_room c) as [n|] eqn:E; simpl.
  - rewrite string_app_length.
    destruct (Nat.leb_spec (String.length a) n) as [Ha|Ha]; simpl.
    + destruct (Nat.leb_spec (String.length b) (n - String.length a)) as [Hb|Hb].
      * rewrite (proj2 (Nat.leb_le _ _)) by lia.
        rewrite set_out_set_out, string_app_assoc. do 3 f_equal. lia.
      * rewrite (proj2 (Nat.leb_gt _ _)) by lia.
        rewrite set_out_set_out, string_app_assoc, take_bytes_app_r by lia. done.
    + rewrite (proj2 (Nat.leb_gt _ _)) by lia.
      rewrite take_bytes_app_l by lia. done.
  - by rewrite ?E, set_out_set_out, string_app_assoc.
Qed.

Lemma bind_Write_Write {A} a b (k : unit → IO A) c :
  bind (Write a) (λ _, bind (Write b) k) c = bind (Write (a +:+ b)) k c.
Proof.
  pose proof (Write_app a b c) as H. unfold bind in *. rewrite <- H. clear H.
  destruct (Write a c) as [[[]|e] c1]; [|done].
  by destruct (Write b c1) as [[[]|e] c2].
Qed.

Lemma write_headers_Write kvs c : write_headers kvs c = Write (header_lines kvs) c.
Proof.
  revert c. induction kvs as [|[k v] kvs IH]; intros c; simpl.
  - by rewrite Write_empty.
  - pose proof (Write_app (header_line (k, v)) (header_lines kvs) c) as H.
    rewrite <- H. clear H. unfold bind, header_line. simpl.
    destruct (Write (k +:+ ":" +:+ v +:+ nl) c) as [[[]|e] c1]; [apply IH|done].
Qed.

Lemma bind_ext {A B} (m : IO A) (k1 k2 : A → IO B) c :
  (∀ a c', k1 a c' = k2 a c') → bind m k1 c = bind m k2 c.
Proof. intros H. unfold bind. destruct (m c) as [[a|e] c1]; [apply H|done]. Qed.

Lemma bind_ext_l {A B} (m1 m2 : IO A) (k : A → IO B) c :
  m1 c = m2 c → bind m1 k c = bind m2 k c.
Proof. intros H. unfold bind. by rewrite H. Qed.

(** The writes of [Encode], taken together. *)
Lemma Encode_wire (rg : order) (f : Frame) (b : Reader) (c : Conn) :
  Command f ≠ "HEARTBEAT" →
  Body f = Some b → r_err b = None → r_close b = None →
  Encode rg f c = Write (wire (rg (Headers f)) (Command f) (r_bytes b)) c.
Proof.
  intros Hcmd Hb Herr Hclose. unfold Encode, wire.
  rewrite bool_decide_eq_false_2 by done.
  rewrite Hb. unfold Copy, CloseBody. rewrite Herr, Hclose.
  rewrite (bind_ext (Write (Command f +:+ nl)) _
             (λ _, Write (header_lines (rg (Headers f)) +:+ nl +:+ r_bytes b +:+ nul)) c).
  { rewrite Write_app. by rewrite string_app_assoc. }
  intros [] c1.
  rewrite (bind_ext (write_headers (rg (Headers f))) _
             (λ _, Write (nl +:+ r_bytes b +:+ nul)) c1).
  { rewrite (bind_ext_l _ _ _ _ (write_headers_Write _ _)). apply Write_app. }
  intros [] c2.
  rewrite (bind_ext (Write nl) _ (λ _, Write (r_bytes b +:+ nul)) c2).
  { apply Write_app. }
  intros [] c3.
  pose proof (Write_app (r_bytes b) nul c3) as H. rewrite <- H. clear H.
  unfold bind, ret.
  by destruct (Write (r_bytes b) c3) as [[[]|e] c4].
Qed.

(** X2: a frame other than a heart-beat whose body reads and closes without
    failure is encoded by what amounts to one write of its wire form:
    the command and a newline, a line [name:value] per header, an empty
    line, the body and a zero byte. *)
Theorem Encode_is_Write (rg : order) (f : Frame) (b : Reader) (c : Conn) :
  Command f ≠ "HEARTBEAT" →
  Body f = Some b → r_err b = None → r_close b = None →
  Encode rg f c = Write (wire (rg (Headers f)) (Command f) (r_bytes b)) c.
Proof. apply Encode_wire. Qed.

(* ===================================================================== *)
(** * The reader loop, frame by frame                                      *)
(* ===================================================================== *)

Lemma read_loop_fuel_irrel fuel1 fuel2 d c :
  (String.length (c_in (transport c)) < fuel1)%nat →
  (String.length (c_in (transport c)) < fuel2)%nat →
  read_loop fuel1 d c = read_loop fuel2 d c.
Proof.
  revert fuel2 c. induction fuel1 as [|fuel1 IH]; intros fuel2 c H1 H2; [lia|].
  destruct fuel2 as [|fuel2]; [lia|]. simpl.
  destruct (on_transport (Transport_Recv d) c) as [[f|e] c1] eqn:E; [|done].
  apply Recv_Ok in E as (Hsh & _).
  repeat case_bool_decide; try done; try (apply IH; simpl; lia).
  - destruct (Headers f !! "receipt-id"); [|done]. apply IH; simpl; lia.
  - destruct (receive c1) as [c2|] eqn:Er; [|done].
    apply receive_Some in Er as (Ht & _). apply IH; simpl; rewrite Ht; lia.
Qed.

Lemma read_loop_unfold fuel d c :
  read_loop (S fuel) d c
  = match on_transport (Transport_Recv d) c with
    | (Err _, c) => Exited (closeAll c)
    | (Ok f, c) =>
        if bool_decide (Command f = "HEARTBEAT") then read_loop fuel d c
        else if bool_decide (Command f = "RECEIPT") then
          match Headers f !! "receipt-id" with
          | None => Panicked "stomp: received a receipt frame without an ID" c
          | Some id => read_loop fuel d (set_receipts (Clear id (receipts_ c)) c)
          end
        else if bool_decide (Command f = "MESSAGE") then
          match receive c with
          | Some c => read_loop fuel d (push_MsgCh f c)
          | None => Blocked c
          end
        else if bool_decide (Command f = "ERROR") then
          Exited (closeAll (push_ErrCh f c))
        else Panicked ("stomp: received unkown frame " +:+ Command f) c
    end.
Proof. reflexivity. Qed.

(** After a heart-beat the loop goes on as if it were started then. *)
Lemma read_loop_heartbeat (d : Z) (c : Client) (f : Frame) (c1 : Client) :
  on_transport (Transport_Recv d) c = (Ok f, c1) →
  Command f = "HEARTBEAT" →
  Client_read d c = Client_read d c1.
Proof.
  intros HR Hcmd.
  pose proof (Recv_Ok _ _ _ _ HR) as (Hsh & _).
  unfold Client_read.
  transitivity (read_loop (String.length (c_in (transport c))) d c1).
  - by rewrite read_loop_unfold, HR, Hcmd.
  - apply read_loop_fuel_irrel; lia.
Qed.

Lemma reads_only_ret {A} (a : A) : reads_only (ret a).
Proof. by intros c r c' [= <- <-]. Qed.

Lemma reads_only_lift {A} (x : result A) : reads_only (lift x).
Proof. by intros c r c' [= <- <-]. Qed.

Lemma reads_only_bind {A B} (m : IO A) (k : A → IO B) :
  reads_only m → (∀ a, reads_only (k a)) → reads_only (bind m k).
Proof.
  intros Hm Hk c r c'. unfold bind.
  destruct (m c) as [[a|e] c1] eqn:E; apply Hm in E as (?&?&?&?&?&?).
  - intros Hrec. apply Hk in Hrec as (?&?&?&?&?&?). repeat split; congruence.
  - intros [= <- <-]. done.
Qed.

Lemma reads_only_ReadString delim : reads_only (ReadString delim).
Proof.
  intros c r c'. unfold ReadString.
  destruct (read_until delim (c_in c)) as [[l rest]|]; by intros [= <- <-].
Qed.

Lemma reads_only_ReadAllLimit n : reads_only (ReadAllLimit n).
Proof.
  intros c r c'. unfold ReadAllLimit.
  destruct (n <=? 0); [by intros [= <- <-]|].
  destruct (_ <=? _)%nat; [by intros [= <- <-]|].
  destruct (c_rerr c) eqn:E; intros [= <- <-]; simpl; by rewrite ?E.
Qed.

Lemma reads_only_read_headers fuel hdrs : reads_only (read_headers fuel hdrs).
Proof.
  revert hdrs. induction fuel as [|fuel IH]; intros hdrs c r c'; simpl.
  - by intros [= <- <-].
  - destruct (ReadString LF c) as [[h|e] c1] eqn:E;
      apply reads_only_ReadString in E as (?&?&?&?&?&?).
    + case_bool_decide; [by intros [= <- <-]|].
      destruct (Split COLON (Trim cut_lf h)) as [|k [|v [|? ?]]];
        try (by intros [= <- <-]).
      intros Hrec. apply IH in Hrec as (?&?&?&?&?&?). repeat split; congruence.
    + by intros [= <- <-].
Qed.

Lemma reads_only_Decode f : reads_only (Decode f).
Proof.
  unfold Decode. apply reads_only_bind; [apply reads_only_ReadString|].
  intros l. case_bool_decide; [apply reads_only_ret|].
  apply reads_only_bind.
  { intros c r c'. apply reads_only_read_headers. }
  intros hdrs. apply reads_only_bind.
  { destruct (hdrs !! "content-length"); [|apply reads_only_ret].
    apply reads_only_bind; [apply reads_only_lift|].
    intros n. apply reads_only_ReadAllLimit. }
  intros body. apply reads_only_bind; [apply reads_only_ReadString|].
  intros b. apply reads_only_ret.
Qed.

Lemma Recv_reads_only d c r c1 :
  on_transport (Transport_Recv d) c = (r, c1) →
  c_out (transport c1) = c_out (transport c) ∧
  c_closed (transport c1) = c_closed (transport c) ∧
  receipts_ c1 = receipts_ c ∧ MsgCh c1 = MsgCh c ∧
  MsgCh_closed c1 = MsgCh_closed c ∧ ErrCh c1 = ErrCh c.
Proof.
  unfold on_transport, Transport_Recv.
  destruct (Decode _ _) as [r' t] eqn:E. intros [= -> <-].
  apply reads_only_Decode in E as (Ho & _ & Hc & _). simpl.
  destruct (0 <? d); simpl in *; done.
Qed.

Lemma read_trace_refl c : read_trace c c.
Proof.
  split; [done|]. split; [done|]. split; [|by left].
  exists []. rewrite app_nil_r. split; [done|]. split; [done|].
  intros n Hn. simpl. rewrite Nat.sub_0_r. split; [lia|done].
Qed.

Lemma read_trace_step c c1 c' :
  c_out (transport c1) = c_out (transport c) →
  c_closed (transport c1) = c_closed (transport c) →
  MsgCh c1 = MsgCh c → ErrCh c1 = ErrCh c → MsgCh_recv c1 = MsgCh_recv c →
  read_trace c1 c' → read_trace c c'.
Proof.
  intros Ho Hc Hm He Hr (Ho' & Hc' & (msgs & Hmsgs & Hall & Hn) & Herr).
  split; [congruence|]. split; [congruence|]. split.
  - exists msgs. rewrite <- Hm, <- Hr. done.
  - by rewrite <- He.
Qed.

Lemma Recv_recv d c r c1 :
  on_transport (Transport_Recv d) c = (r, c1) → MsgCh_recv c1 = MsgCh_recv c.
Proof.
  unfold on_transport, Transport_Recv.
  destruct (Decode _ _) as [r' t]. by intros [= -> <-].
Qed.

Lemma read_loop_trace fuel d c c' :
  ended_in (read_loop fuel d c) = Some c' → read_trace c c'.
Proof.
  revert c. induction fuel as [|fuel IH]; intros c; [done|].
  rewrite read_loop_unfold.
  destruct (on_transport (Transport_Recv d) c) as [[f|e] c1] eqn:E;
    pose proof (Recv_recv _ _ _ _ E) as Hrv;
    apply Recv_reads_only in E as (Ho & Hc & Hr & Hm & Hmc & He).
  - repeat case_bool_decide.
    + intros Hrec. apply IH in Hrec. by apply (read_trace_step c c1).
    + destruct (Headers f !! "receipt-id").
      * intros Hrec. apply IH in Hrec.
        exact (read_trace_step c _ c' Ho Hc Hm He Hrv Hrec).
      * intros [= <-]. apply (read_trace_step c c1); try done. apply read_trace_refl.
    + destruct (receive c1) as [c2|] eqn:Er.
      * intros Hrec.
        apply IH in Hrec as (Ho' & Hc' & (msgs & Hmsgs & Hall & Hn) & Herr).
        pose proof (receive_Some _ _ Er) as (Ht2 & _ & Hm2 & _ & He2).
        simpl in *. rewrite Ht2 in Ho', Hc'. rewrite Hm2 in Hmsgs. rewrite He2 in Herr.
        split; [congruence|]. split; [congruence|]. split; [|by rewrite <- He].
        exists (f :: msgs). rewrite Hmsgs, <- Hm, <- app_assoc.
        split; [done|]. split; [by constructor|].
        intros n Hcn. rewrite <- Hrv in Hcn. unfold receive in Er. rewrite Hcn in Er.
        destruct n as [|n]; [done|]. injection Er as <-. simpl in Hn.
        destruct (Hn n eq_refl) as [Hle ->]. simpl. split; [lia|done].
      * intros [= <-]. apply (read_trace_step c c1); try done. apply read_trace_refl.
    + intros [= <-]. simpl. split; [done|]. split; [done|]. split.
      * exists []. rewrite app_nil_r. split; [done|]. split; [done|].
        intros n Hn. simpl. rewrite Nat.sub_0_r. split; [lia|congruence].
      * right. exists f. split; [done|]. simpl. by f_equal.
    + intros [= <-]. apply (read_trace_step c c1); try done. apply read_trace_refl.
  - intros [= <-]. simpl. split; [done|]. split; [done|]. split; [|by left].
    exists []. rewrite app_nil_r. split; [done|]. split; [done|].
    intros n Hn. simpl. rewrite Nat.sub_0_r. split; [lia|congruence].
Qed.

(** With a receive for every frame, the loop is never blocked. *)
Lemma read_loop_receiving fuel d c c' :
  MsgCh_recv c = None → read_loop fuel d c ≠ Blocked c'.
Proof.
  revert c. induction fuel as [|fuel IH]; intros c Hn; [done|].
  rewrite read_loop_unfold.
  destruct (on_transport (Transport_Recv d) c) as [[f|e] c1] eqn:E; [|done].
  apply Recv_recv in E. rewrite <- E in Hn.
  repeat case_bool_decide; try done; try (by apply IH).
  - destruct (Headers f !! "receipt-id"); [by apply IH|done].
  - unfold receive. rewrite Hn. by apply IH.
Qed.

(** The loop is blocked only in a send the application does not take,
    and then the statements after the loop have not been run. *)
Lemma read_loop_Blocked fuel d c c' :
  read_loop fuel d c = Blocked c' →
  MsgCh_recv c' = Some 0%nat ∧
  closed (receipts_ c') = closed (receipts_ c) ∧
  MsgCh_closed c' = MsgCh_closed c.
Proof.
  revert c. induction fuel as [|fuel IH]; intros c; [done|].
  rewrite read_loop_unfold.
  destruct (on_transport (Transport_Recv d) c) as [[f|e] c1] eqn:E; [|done].
  apply Recv_reads_only in E as (_ & _ & Hr & _ & Hmc & _).
  repeat case_bool_decide; try done.
  - intros Hrec. apply IH in Hrec as (?&?&?). split; [done|]. split; congruence.
  - destruct (Headers f !! "receipt-id"); [|done].
    intros Hrec. apply IH in Hrec as (?&Hcl&?). split; [done|]. simpl in *.
    split; [|congruence]. rewrite Hcl, <- Hr. unfold Clear.
    by destruct (orders (receipts_ c1) !! s).
  - destruct (receive c1) as [c2|] eqn:Er.
    + intros Hrec. apply IH in Hrec as (?&Hcl&Hm). split; [done|].
      apply receive_Some in Er as (_ & Hr2 & _ & Hmc2 & _). simpl in *.
      split; congruence.
    + intros [= <-]. unfold receive in Er.
      destruct (MsgCh_recv c1) as [[|n]|]; try done. split; [done|]. split; congruence.
Qed.

(** X4: whatever the stream holds, the reader loop ends at the latest when
    the stream has no bytes left and reports its failure: it returns, it
    panics, or it is blocked for ever in a send on the message channel.
    However it ends, it has added to the message channel only MESSAGE
    frames, after those that were there and one for each receive the
    application has made, and to the error channel at most one frame, an
    ERROR frame; it has written nothing to the stream and has not closed
    it.  With room in the error channel (which a client has from
    [Connect] until the loop sends on it), the loop is blocked only when
    the application makes no further receive, and then the shutdown
    signal is not given and the message channel is not closed; with a
    receive for every frame it returns or panics. *)
Theorem Client_read_trace (d : Z) (c : Client) :
  (∃ c', ended_in (Client_read d c) = Some c' ∧ read_trace c c') ∧
  (ErrCh c = [] →
   ∀ c', Client_read d c = Blocked c' →
     MsgCh_recv c' = Some 0%nat ∧
     closed (receipts_ c') = closed (receipts_ c) ∧
     MsgCh_closed c' = MsgCh_closed c) ∧
  (ErrCh c = [] → MsgCh_recv c = None →
   ∃ c', stopped_in (Client_read d c) = Some c').
Proof.
  pose proof (Client_read_fuel d c) as Hfuel.
  split; [|split].
  - destruct (ended_in (Client_read d c)) as [c'|] eqn:E.
    + exists c'. split; [done|]. by apply (read_loop_trace _ d) in E.
    + by destruct (Client_read d c).
  - intros _. apply read_loop_Blocked.
  - intros _ Hn.
    destruct (Client_read d c) as [c'|msg c'|c'|] eqn:E; [by eexists..| |done].
    by destruct (read_loop_receiving _ d c c' Hn E).
Qed.

(* ===================================================================== *)
(** * The registry                                                        *)
(* ===================================================================== *)

Lemma registry_ok_new : registry_ok newReceipts.
Proof.
  split; [|split]; simpl.
  - intros id ch. by rewrite lookup_empty.
  - intros id1 id2 ch. by rewrite lookup_empty.
  - intros ch. by rewrite elem_of_empty.
Qed.

Lemma registry_ok_Mark id r : registry_ok r → registry_ok (Mark id r).2.
Proof.
  intros (Ha & Hb & Hc). split; [|split]; simpl.
  - intros id' ch [[-> <-]|[Hne Hl]]%lookup_insert_Some.
    + split; [|lia]. intros Hin. apply Hc in Hin. lia.
    + apply Ha in Hl as [? ?]. split; [done|lia].
  - intros id1 id2 ch [[-> <-]|[Hne1 Hl1]]%lookup_insert_Some
                      [[-> Heq]|[Hne2 Hl2]]%lookup_insert_Some; try done.
    + apply Ha in Hl2 as [_ ?]. lia.
    + apply Ha in Hl1 as [_ ?]. lia.
    + eauto.
  - intros ch Hin. apply Hc in Hin. lia.
Qed.

Lemma registry_ok_Clear id r : registry_ok r → registry_ok (Clear id r).
Proof.
  intros (Ha & Hb & Hc). unfold Clear.
  destruct (orders r !! id) as [ch0|] eqn:E; [|done].
  split; [|split]; simpl.
  - intros id' ch [Hne Hl]%lookup_delete_Some. split.
    + intros [->%elem_of_singleton|Hin]%elem_of_union.
      * by specialize (Hb _ _ _ E Hl).
      * by apply Ha in Hl as [? _].
    + by apply Ha in Hl as [_ ?].
  - intros id1 id2 ch [_ Hl1]%lookup_delete_Some [_ Hl2]%lookup_delete_Some. eauto.
  - intros ch [->%elem_of_singleton|Hin]%elem_of_union; [|by apply Hc].
    by apply Ha in E as [_ ?].
Qed.

Lemma registry_ok_shutdown r : registry_ok r → registry_ok (shutdown r).
Proof. by intros (Ha & Hb & Hc). Qed.

Lemma registry_ok_read_loop fuel d c c' :
  registry_ok (receipts_ c) →
  stopped_in (read_loop fuel d c) = Some c' →
  registry_ok (receipts_ c').
Proof.
  revert c. induction fuel as [|fuel IH]; intros c Hok; [done|].
  rewrite read_loop_unfold.
  destruct (on_transport (Transport_Recv d) c) as [[f|e] c1] eqn:E;
    apply Recv_reads_only in E as (_ & _ & Hr & _).
  - rewrite <- Hr in Hok. repeat case_bool_decide.
    + by apply IH.
    + destruct (Headers f !! "receipt-id").
      * apply IH. simpl. by apply registry_ok_Clear.
      * by intros [= <-].
    + destruct (receive c1) as [c2|] eqn:Er; [|done].
      apply receive_Some in Er as (_ & Hr2 & _). apply IH. simpl. by rewrite Hr2.
    + intros [= <-]. by apply registry_ok_shutdown.
    + by intros [= <-].
  - rewrite <- Hr in Hok. intros [= <-]. by apply registry_ok_shutdown.
Qed.

(** X5: the registry keeps its shape.  It has it when new, and [Mark],
    [Clear], the shutdown and the whole reader loop keep it; and in a
    registry of that shape the channel [Clear] closes is an open one, so
    that no channel is closed twice. *)
Theorem registry_ok_kept (r : receipts) (id : string) :
  registry_ok newReceipts ∧
  (registry_ok r →
   registry_ok (Mark id r).2 ∧ registry_ok (Clear id r) ∧
   registry_ok (shutdown r) ∧
   (∀ ch, orders r !! id = Some ch → ready ch r = false) ∧
   (∀ d c c', receipts_ c = r → stopped_in (Client_read d c) = Some c' →
              registry_ok (receipts_ c'))).
Proof.
  split; [apply registry_ok_new|]. intros Hok.
  split; [by apply registry_ok_Mark|]. split; [by apply registry_ok_Clear|].
  split; [by apply registry_ok_shutdown|]. split.
  - intros ch Hl. destruct Hok as (Ha & _). apply Ha in Hl as [Hnf _].
    unfold ready. by rewrite bool_decide_eq_false_2.
  - intros d c c' <-. by apply registry_ok_read_loop.
Qed.

(** X6: receipts are matched by id.  In a registry of the right shape that
    is not shut down, a caller waiting for [id1] on the channel the
    registry holds for it stays blocked when another id is cleared
    (registered or not), and returns without failure when [id1] is. *)
Theorem receipts_matched_by_id (c : Client) (id1 id2 : string) (ch1 : chan)
    (pick : bool) :
  registry_ok (receipts_ c) →
  closed (receipts_ c) = false →
  orders (receipts_ c) !! id1 = Some ch1 →
  id2 ≠ id1 →
  awaitReceipt pick id1 ch1 c = Blocks ∧
  awaitReceipt pick id1 ch1 (set_receipts (Clear id2 (receipts_ c)) c) = Blocks ∧
  awaitReceipt pick id1 ch1 (set_receipts (Clear id1 (receipts_ c)) c)
  = Returns (None, set_receipts (Clear id1 (receipts_ c)) c).
Proof.
  intros (Ha & Hb & Hc) Hcl Hl Hne.
  pose proof (Ha _ _ Hl) as [Hnf _].
  unfold awaitReceipt, ready. simpl. split; [|split].
  - by rewrite bool_decide_eq_false_2, Hcl.
  - unfold Clear. destruct (orders (receipts_ c) !! id2) as [ch2|] eqn:E2; simpl.
    + rewrite bool_decide_eq_false_2, Hcl; [done|].
      intros [->%elem_of_singleton|Hin]%elem_of_union; [|done].
      apply Hne. eauto.
    + by rewrite bool_decide_eq_false_2, Hcl.
  - unfold Clear. rewrite Hl. simpl.
    rewrite bool_decide_eq_true_2, Hcl; [done|].
    apply elem_of_union. left. by apply elem_of_singleton.
Qed.

(* ===================================================================== *)
(** * Sending with a receipt                                              *)
(* ===================================================================== *)

Lemma on_transport_keeps {A} (m : IO A) c r c' :
  on_transport m c = (r, c') →
  receipts_ c' = receipts_ c ∧ MsgCh c' = MsgCh c ∧
  MsgCh_closed c' = MsgCh_closed c ∧ ErrCh c' = ErrCh c.
Proof.
  unfold on_transport. destruct (m (transport c)) as [r' t]. by intros [= -> <-].
Qed.

(** X7: [doWithReceipt] leaves no registration behind when it fails to
    send.  If [newUUID] fails, the failure is returned and nothing has
    changed; if the send fails, its failure is returned, the stream is as
    the send left it, and the registry holds nothing for the id. *)
Theorem doWithReceipt_revokes (s : Sched) (f : string → IO unit) (c : Client) :
  (∀ e, uuid s = Err e → doWithReceipt s f c = Returns (Some e, c)) ∧
  (∀ id e t,
     uuid s = Ok id →
     f id (transport c) = (Err e, t) →
     ∃ c', doWithReceipt s f c = Returns (Some e, c') ∧
           transport c' = t ∧
           orders (receipts_ c') !! id = None ∧
           closed (receipts_ c') = closed (receipts_ c) ∧
           ∀ id', id' ≠ id → orders (receipts_ c') !! id' = orders (receipts_ c) !! id').
Proof.
  split.
  - intros e He. unfold doWithReceipt. by rewrite He.
  - intros id e t Hid Hf. unfold doWithReceipt. rewrite Hid. simpl.
    unfold on_transport. simpl. rewrite Hf. eexists. split; [done|]. simpl.
    split; [done|]. split; [apply Clear_removes|].
    unfold Clear. simpl. rewrite lookup_insert_eq. simpl. split; [done|].
    intros id' Hne. rewrite lookup_delete_ne, lookup_insert_ne by done. done.
Qed.

(** X8: [doWithReceipt] once the frame is sent, on a registry that is not
    shut down.  If the only thing that happens to the registry while the
    caller waits is that its id is cleared (the reader got its RECEIPT),
    the call returns nil; if the shutdown signal is given and its id is not
    cleared, it returns "channel closed" and the registration is gone; if
    nothing happens, it stays blocked. *)
Theorem doWithReceipt_wakes (s : Sched) (f : string → IO unit) (c c2 : Client)
    (id : string) :
  uuid s = Ok id →
  closed (receipts_ c) = false →
  on_transport (f id) (set_receipts (Mark id (receipts_ c)).2 c) = (Ok tt, c2) →
  (receipts_ (meanwhile s c2) = Clear id (receipts_ c2) →
   doWithReceipt s f c = Returns (None, meanwhile s c2)) ∧
  (receipts_ (meanwhile s c2) = shutdown (receipts_ c2) →
   registry_ok (receipts_ c) →
   ∃ c', doWithReceipt s f c = Returns (Some ErrChannelClosed, c') ∧
         orders (receipts_ c') !! id = None) ∧
  (receipts_ (meanwhile s c2) = receipts_ c2 →
   registry_ok (receipts_ c) →
   doWithReceipt s f c = Blocks).
Proof.
  intros Hid Hcl Hf.
  pose proof (on_transport_keeps _ _ _ _ Hf) as (Hr & _). simpl in Hr.
  unfold doWithReceipt. rewrite Hid. simpl in *. rewrite Hf.
  unfold awaitReceipt, ready.
  assert (fresh (receipts_ c) ∉ fired (receipts_ c2) ∨ ¬ registry_ok (receipts_ c)) as Hfresh.
  { destruct (decide (fresh (receipts_ c) ∈ fired (receipts_ c2))) as [Hin|]; [|by left].
    right. intros (_ & _ & Hc). rewrite Hr in Hin. simpl in Hin.
    apply Hc in Hin. lia. }
  split; [|split].
  - intros ->. rewrite Hr. unfold Clear. simpl. rewrite lookup_insert_eq. simpl.
    rewrite bool_decide_eq_true_2, Hcl; [done|].
    apply elem_of_union. left. by apply elem_of_singleton.
  - intros -> Hok. destruct Hfresh as [Hnf|]; [|done]. simpl.
    rewrite bool_decide_eq_false_2 by done.
    eexists. split; [done|]. simpl. apply Clear_removes.
  - intros -> Hok. destruct Hfresh as [Hnf|]; [|done].
    rewrite bool_decide_eq_false_2 by done. rewrite Hr. simpl. by rewrite Hcl.
Qed.

(* ===================================================================== *)
(** * Disconnect, Begin, Subscribe and the calls without a receipt        *)
(* ===================================================================== *)

(** X9: when [Disconnect] returns, the stream is closed, whatever happened.
    It fails only with the failure of [newUUID] or of the write of the
    DISCONNECT frame; once that frame is written, being woken by the
    shutdown signal is not a failure: it returns nil. *)
Theorem Client_Disconnect_closes (s : Sched) (rg : order) (c : Client) :
  (∀ e c', Client_Disconnect s rg c = Returns (e, c') →
     c_closed (transport c') = true ∧
     ∀ e0, e = Some e0 →
       uuid s = Err e0 ∨
       ∃ id t, uuid s = Ok id ∧ Transport_Disconnect rg id (transport c) = (Err e0, t)) ∧
  (∀ id c2,
     uuid s = Ok id →
     on_transport (Transport_Disconnect rg id)
       (set_receipts (Mark id (receipts_ c)).2 c) = (Ok tt, c2) →
     closed (receipts_ (meanwhile s c2)) = true →
     ∃ c', Client_Disconnect s rg c = Returns (None, c') ∧
           c_closed (transport c') = true).
Proof.
  split.
  - intros e c'. unfold Client_Disconnect.
    destruct (uuid s) as [id|e0] eqn:Hid.
    + simpl. unfold on_transport. simpl.
      destruct (Transport_Disconnect rg id (transport c)) as [[[]|e1] t] eqn:Hf.
      * destruct (select2 _ _ _); [|done]. intros [= <- <-]. by split.
      * intros [= <- <-]. split; [done|]. intros e0 [= <-]. right. eauto.
    + intros [= <- <-]. split; [done|]. intros e1 [= <-]. by left.
  - intros id c2 Hid Hf Hcl. unfold Client_Disconnect. rewrite Hid. simpl in *.
    rewrite Hf, Hcl. unfold select2.
    destruct (ready _ _), (pick_ch s); eexists; (split; [done|]); done.
Qed.

(** X10: [Begin] returns a transaction exactly when it returns no failure;
    the transaction is then open and carries the id that was drawn.  When
    the id cannot be drawn the failure is returned and nothing is sent. *)
Theorem Client_Begin_contract (uid : result string) (s : Sched) (rg : order)
    (receipt : bool) (c : Client) :
  (∀ otx e c', Client_Begin uid s rg receipt c = Returns (otx, e, c') →
     (e = None ↔ is_Some otx) ∧
     ∀ tx, otx = Some tx → uid = Ok (tid tx) ∧ done tx = false) ∧
  (∀ e, uid = Err e → Client_Begin uid s rg receipt c = Returns (None, Some e, c)).
Proof.
  split.
  - intros otx e c'. unfold Client_Begin. destruct uid as [id|e0].
    + destruct (receipted _ _ _ _) as [[[e1|] c1]|]; [| |done].
      * intros [= <- <- <-]. split; [|done]. split; [done|]. by intros [? ?].
      * intros [= <- <- <-]. split; [by split; eauto|]. by intros tx [= <-].
    + intros [= <- <- <-]. split; [|done]. split; [done|]. by intros [? ?].
  - by intros e ->.
Qed.

(** X11: [Subscribe] hands the subscription id it has drawn back to the
    caller whether or not the SUBSCRIBE frame could be sent; only when no
    id could be drawn does it return the empty string, and then nothing has
    been sent. *)
Theorem Client_Subscribe_id (uid : result string) (s : Sched) (rg : order)
    (dest : string) (mode : AckMode) (receipt : bool) (c : Client) :
  (∀ id id' e c', uid = Ok id →
     Client_Subscribe uid s rg dest mode receipt c = Returns (id', e, c') → id' = id) ∧
  (∀ e, uid = Err e →
     Client_Subscribe uid s rg dest mode receipt c = Returns (EmptyString, Some e, c)).
Proof.
  split.
  - intros id id' e c' ->. unfold Client_Subscribe.
    destruct (receipted _ _ _ _) as [[e1 c1]|]; [|done]. by intros [= <- <- <-].
  - by intros e ->.
Qed.

(* ===================================================================== *)
(** * The verbs on the wire                                               *)
(* ===================================================================== *)

Lemma Headers_withReceipt receipt f :
  Headers (withReceipt receipt f) = withReceiptHeader receipt (Headers f).
Proof. by destruct receipt. Qed.

Lemma Encode_bodyless rg cmd (m : gmap string string) receipt c :
  cmd ≠ "HEARTBEAT" →
  Encode rg (withReceipt receipt (mkFrame cmd m (Some (NopCloser emptyBuffer)))) c
  = Write (wire (rg (withReceiptHeader receipt m)) cmd EmptyString) c.
Proof.
  intros Hcmd.
  rewrite (Encode_wire rg _ (NopCloser emptyBuffer)); [|by destruct receipt..].
  rewrite Headers_withReceipt. by destruct receipt.
Qed.

Lemma fair_singleton rg (k v : string) : fair rg → rg {[k := v]} = [(k, v)].
Proof.
  intros Hfair. apply Permutation_singleton_r.
  rewrite (Hfair {[k := v]}). by rewrite map_to_list_singleton.
Qed.

(** The frames of the verbs, as bytes. *)
Lemma verbs_wire (rg : order) (id tid dest : string) (mode : AckMode)
    (receipt : option string) (c : Conn) :
  Transport_Heartbeat rg c = Write nl c ∧
  Transport_Ack rg id receipt c
  = Write (wire (rg (withReceiptHeader receipt {[ "id" := id ]})) "ACK" EmptyString) c ∧
  Transport_Nack rg id receipt c
  = Write (wire (rg (withReceiptHeader receipt {[ "id" := id ]})) "NACK" EmptyString) c ∧
  Transport_Subscribe rg id dest mode receipt c
  = Write (wire (rg (withReceiptHeader receipt
                       (<["ack" := mode]> (<["id" := id]> {[ "destination" := dest ]}))))
             "SUBSCRIBE" EmptyString) c ∧
  Transport_Unsubscribe rg id receipt c
  = Write (wire (rg (withReceiptHeader receipt {[ "id" := id ]})) "UNSUBSCRIBE"
             EmptyString) c ∧
  Transport_TxBegin rg tid receipt c
  = Write (wire (rg (withReceiptHeader receipt {[ "transaction" := tid ]})) "BEGIN"
             EmptyString) c ∧
  Transport_TxCommit rg tid receipt c
  = Write (wire (rg (withReceiptHeader receipt {[ "transaction" := tid ]})) "COMMIT"
             EmptyString) c ∧
  Transport_TxAbort rg tid receipt c
  = Write (wire (rg (withReceiptHeader receipt {[ "transaction" := tid ]})) "ABORT"
             EmptyString) c ∧
  Transport_TxAck rg tid id c
  = Write (wire (rg (<["transaction" := tid]> {[ "id" := id ]})) "ACK" EmptyString) c ∧
  Transport_TxNack rg tid id c
  = Write (wire (rg (<["transaction" := tid]> {[ "id" := id ]})) "NACK" EmptyString) c ∧
  Transport_Disconnect rg id c
  = Write (wire (rg {[ "receipt" := id ]}) "DISCONNECT" EmptyString) c.
Proof.
  split; [reflexivity|].
  split; [by apply (Encode_bodyless rg "ACK")|].
  split; [by apply (Encode_bodyless rg "NACK")|].
  split; [by apply (Encode_bodyless rg "SUBSCRIBE")|].
  split; [by apply (Encode_bodyless rg "UNSUBSCRIBE")|].
  split; [by apply (Encode_bodyless rg "BEGIN")|].
  split; [by apply (Encode_bodyless rg "COMMIT")|].
  split; [by apply (Encode_bodyless rg "ABORT")|].
  split; [by apply (Encode_bodyless rg "ACK" _ None)|].
  split; [by apply (Encode_bodyless rg "NACK" _ None)|].
  by apply (Encode_bodyless rg "DISCONNECT" _ None).
Qed.

(** X12: what the verbs without a body put on the stream.  Each is one
    write of the command line, the lines of its headers (with a [receipt]
    line when a receipt is asked for), an empty line and the zero byte;
    [Heartbeat] is one write of a newline.  The transactional [Ack] and
    [Nack] carry [id] and [transaction] and never a receipt. *)
Theorem verbs_on_the_wire (rg : order) (id tid dest : string) (mode : AckMode)
    (receipt : option string) (c : Conn) :
  Transport_Heartbeat rg c = Write nl c ∧
  Transport_Ack rg id receipt c
  = Write (wire (rg (withReceiptHeader receipt {[ "id" := id ]})) "ACK" EmptyString) c ∧
  Transport_Nack rg id receipt c
  = Write (wire (rg (withReceiptHeader receipt {[ "id" := id ]})) "NACK" EmptyString) c ∧
  Transport_Subscribe rg id dest mode receipt c
  = Write (wire (rg (withReceiptHeader receipt
                       (<["ack" := mode]> (<["id" := id]> {[ "destination" := dest ]}))))
             "SUBSCRIBE" EmptyString) c ∧
  Transport_Unsubscribe rg id receipt c
  = Write (wire (rg (withReceiptHeader receipt {[ "id" := id ]})) "UNSUBSCRIBE"
             EmptyString) c ∧
  Transport_TxBegin rg tid receipt c
  = Write (wire (rg (withReceiptHeader receipt {[ "transaction" := tid ]})) "BEGIN"
             EmptyString) c ∧
  Transport_TxCommit rg tid receipt c
  = Write (wire (rg (withReceiptHeader receipt {[ "transaction" := tid ]})) "COMMIT"
             EmptyString) c ∧
  Transport_TxAbort rg tid receipt c
  = Write (wire (rg (withReceiptHeader receipt {[ "transaction" := tid ]})) "ABORT"
             EmptyString) c ∧
  Transport_TxAck rg tid id c
  = Write (wire (rg (<["transaction" := tid]> {[ "id" := id ]})) "ACK" EmptyString) c ∧
  Transport_TxNack rg tid id c
  = Write (wire (rg (<["transaction" := tid]> {[ "id" := id ]})) "NACK" EmptyString) c ∧
  Transport_Disconnect rg id c
  = Write (wire (rg {[ "receipt" := id ]}) "DISCONNECT" EmptyString) c.
Proof. apply verbs_wire. Qed.

(* ===================================================================== *)
(** * The heart-beat emitter                                              *)
(* ===================================================================== *)

Lemma heartbeats_limited ticks rg c n :
  c_room (transport c) = Some n →
  heartbeats ticks rg c
  = (set_transport
       (set_out (c_out (transport c) +:+ newlines (ticks `min` n))
          (Some (n - ticks `min` n)%nat) (transport c)) c,
     bool_decide (n < ticks)%nat).
Proof.
  revert c n. induction ticks as [|ticks IH]; intros c n Hroom.
  - simpl. rewrite app_empty_r, Nat.sub_0_r, <- Hroom, set_out_same.
    by destruct c.
  - simpl. unfold on_transport.
    change (Transport_Heartbeat rg (transport c)) with (Write nl (transport c)).
    unfold Write. rewrite Hroom. simpl.
    destruct n as [|n]; simpl.
    + reflexivity.
    + rewrite (IH _ n) by (simpl; f_equal; lia). simpl.
      rewrite set_out_set_out, string_app_assoc.
      change (nl +:+ newlines (ticks `min` n)) with (newlines (S (ticks `min` n))).
      f_equal. apply bool_decide_ext. lia.
Qed.

Lemma heartbeats_unlimited ticks rg c :
  c_room (transport c) = None →
  heartbeats ticks rg c
  = (set_transport
       (set_out (c_out (transport c) +:+ newlines ticks) None (transport c)) c,
     false).
Proof.
  revert c. induction ticks as [|ticks IH]; intros c Hroom.
  - simpl. rewrite app_empty_r, <- Hroom, set_out_same. by destruct c.
  - simpl. unfold on_transport.
    change (Transport_Heartbeat rg (transport c)) with (Write nl (transport c)).
    unfold Write. rewrite Hroom. rewrite IH by done. simpl.
    by rewrite set_out_set_out, string_app_assoc.
Qed.

(** X13: the heart-beat emitter writes newline bytes and nothing else.
    With an interval that is not positive it returns at once and writes
    nothing.  Otherwise, after [ticks] ticks of its ticker it has written
    one newline per tick for as long as the stream took them, and it has
    returned exactly if a write has failed: on a stream with room for [n]
    bytes it has written [min ticks n] newlines and has returned iff
    [n < ticks]. *)
Theorem Client_write_newlines (ticks : nat) (rg : order) (d : Z) (c : Client) :
  (d ≤ 0 → Client_write ticks rg d c = (c, true)) ∧
  (0 < d → c_room (transport c) = None →
   Client_write ticks rg d c
   = (set_transport
        (set_out (c_out (transport c) +:+ newlines ticks) None (transport c)) c,
      false)) ∧
  (∀ n, 0 < d → c_room (transport c) = Some n →
   Client_write ticks rg d c
   = (set_transport
        (set_out (c_out (transport c) +:+ newlines (ticks `min` n))
           (Some (n - ticks `min` n)%nat) (transport c)) c,
      bool_decide (n < ticks)%nat)).
Proof.
  unfold Client_write. split; [|split].
  - intros Hd. by rewrite (proj2 (Z.leb_le _ _)).
  - intros Hd Hroom. rewrite (proj2 (Z.leb_gt _ _)) by done.
    by apply heartbeats_unlimited.
  - intros n Hd Hroom. rewrite (proj2 (Z.leb_gt _ _)) by done.
    by apply heartbeats_limited.
Qed.

(* ===================================================================== *)
(** * Identifiers                                                         *)
(* ===================================================================== *)

Lemma hexHi_version a : hexHi (maskByte 15 64 a) = "4"%char.
Proof. destruct a as [[] [] [] [] [] [] [] []]; reflexivity. Qed.

Lemma hexHi_variant a :
  hexHi (maskByte 63 128 a) ∈ ["8"; "9"; "a"; "b"]%char.
Proof.
  destruct a as [[] [] [] [] [] [] [] []]; vm_compute;
    repeat first [apply list_elem_of_here | apply list_elem_of_further].
Qed.

Lemma is_hex_hexHi a : is_hex (hexHi a) = true.
Proof. destruct a as [[] [] [] [] [] [] [] []]; reflexivity. Qed.

Lemma is_hex_hexLo a : is_hex (hexLo a) = true.
Proof. destruct a as [[] [] [] [] [] [] [] []]; reflexivity. Qed.

Lemma hex_length l : String.length (hex l) = (2 * length l)%nat.
Proof.
  induction l as [|a l IH]; [done|].
  change (hex (a :: l)) with (hexByte a +:+ hex l).
  rewrite string_app_length, IH. simpl. lia.
Qed.

Lemma all_hex_hex l : all_hex (hex l) = true.
Proof.
  unfold all_hex. induction l as [|a l IH]; [done|]. simpl.
  rewrite is_hex_hexHi, is_hex_hexLo. simpl. exact IH.
Qed.

(** X14: from 16 random bytes [newUUID] makes a version-4 identifier of 36
    characters: five groups of 8, 4, 4, 4 and 12 lower-case hexadecimal
    digits separated by dashes, the third group starting with 4 and the
    fourth with 8, 9, a or b. *)
Theorem newUUID_format (buf : list ascii) :
  length buf = 16%nat →
  ∃ (g1 g2 g3 g4 g5 : string) (v : ascii),
    newUUID (Ok buf)
    = Ok (g1 +:+ "-" +:+ g2 +:+ "-" +:+ String "4" g3 +:+ "-" +:+ String v g4 +:+ "-" +:+ g5) ∧
    v ∈ ["8"; "9"; "a"; "b"]%char ∧
    String.length g1 = 8%nat ∧ String.length g2 = 4%nat ∧
    String.length g3 = 3%nat ∧ String.length g4 = 3%nat ∧
    String.length g5 = 12%nat ∧
    all_hex g1 = true ∧ all_hex g2 = true ∧ all_hex g3 = true ∧
    all_hex g4 = true ∧ all_hex g5 = true.
Proof.
  intros Hlen. do 17 (destruct buf as [|? buf]; try done).
  exists (hex [a; a0; a1; a2]), (hex [a3; a4]),
    (String (hexLo (maskByte 15 64 a5)) (hexByte a6)),
    (String (hexLo (maskByte 63 128 a7)) (hexByte a8)),
    (hex [a9; a10; a11; a12; a13; a14]), (hexHi (maskByte 63 128 a7)).
  split.
  { rewrite <- (hexHi_version a5). reflexivity. }
  split; [apply hexHi_variant|].
  rewrite !hex_length, !all_hex_hex. unfold all_hex. simpl.
  rewrite !is_hex_hexHi, !is_hex_hexLo. done.
Qed.

(* ===================================================================== *)
(** * More on the negotiation, the deadline and Connect                   *)
(* ===================================================================== *)

(** X15: whatever the server's header says (overflowing numbers included),
    a negotiated interval is either zero or at least what the client asked
    for, and it is zero when the client asked for zero; a header that does
    not begin with a number, like no header, switches both heart-beats
    off. *)
Theorem negotiate_bounds (conf : Heartbeat) (v : option string) :
  (Send (negotiate conf v) = 0 ∨ Send conf ≤ Send (negotiate conf v)) ∧
  (Recv (negotiate conf v) = 0 ∨ Recv conf ≤ Recv (negotiate conf v)) ∧
  (Send conf = 0 → Send (negotiate conf v) = 0) ∧
  (Recv conf = 0 → Recv (negotiate conf v) = 0) ∧
  (∀ s, v = Some s → scanInt s = None → negotiate conf v = mkHeartbeat 0 0) ∧
  (v = None → negotiate conf v = mkHeartbeat 0 0).
Proof.
  assert ((Send (negotiate conf v) = 0 ∨ Send conf ≤ Send (negotiate conf v)) ∧
          (Recv (negotiate conf v) = 0 ∨ Recv conf ≤ Recv (negotiate conf v)) ∧
          (Send conf = 0 → Send (negotiate conf v) = 0) ∧
          (Recv conf = 0 → Recv (negotiate conf v) = 0) ∧
          (∀ s, v = Some s → scanInt s = None → negotiate conf v = mkHeartbeat 0 0))
    as (H1 & H2 & H3 & H4 & H5).
  { unfold negotiate. destruct v as [s|]; simpl.
    - destruct (Sscanf_d_d s) as [x y] eqn:E. simpl.
      rewrite !maxDuration_max.
      repeat split.
      + case_match; [right; apply Z.le_max_l|by left].
      + case_match; [right; apply Z.le_max_l|by left].
      + intros ->. done.
      + intros ->. done.
      + intros s' [= <-] Hscan. unfold Sscanf_d_d in E. rewrite Hscan in E.
        injection E as <- <-. change (wrap64 (Millisecond * 0)) with 0. simpl.
        by rewrite !andb_false_r.
    - repeat split; auto. }
  split; [done|]. split; [done|]. split; [done|]. split; [done|].
  split; [done|]. by intros ->.
Qed.

Lemma Recv_deadline d c r c1 :
  on_transport (Transport_Recv d) c = (r, c1) →
  c_deadline (transport c1)
  = if 0 <? d then Some (wrap64 (d * 2)) else c_deadline (transport c).
Proof.
  unfold on_transport, Transport_Recv.
  destruct (Decode _ _) as [r' t] eqn:E. intros [= -> <-]. simpl.
  apply reads_only_Decode in E as (_&_&_&_&_&->). by destruct (0 <? d).
Qed.

Lemma read_loop_deadline fuel d c c' :
  ended_in (read_loop fuel d c) = Some c' →
  c_deadline (transport c')
  = if 0 <? d then Some (wrap64 (d * 2)) else c_deadline (transport c).
Proof.
  revert c. induction fuel as [|fuel IH]; intros c; [done|].
  rewrite read_loop_unfold.
  destruct (on_transport (Transport_Recv d) c) as [[f|e] c1] eqn:E;
    apply Recv_deadline in E as HR; [|by intros [= <-]].
  assert (∀ c2, transport c2 = transport c1 →
            ended_in (read_loop fuel d c2) = Some c' →
            c_deadline (transport c')
            = if 0 <? d then Some (wrap64 (d * 2)) else c_deadline (transport c))
    as Hgo.
  { intros c2 Ht Hrec. apply IH in Hrec. rewrite Hrec, Ht, HR. by destruct (0 <? d). }
  repeat case_bool_decide; try (by intros [= <-]).
  - by apply Hgo.
  - destruct (Headers f !! "receipt-id"); [by apply Hgo|by intros [= <-]].
  - destruct (receive c1) as [c2|] eqn:Er; [|by intros [= <-]].
    apply receive_Some in Er as (Ht & _). by apply Hgo.
Qed.

(** X16: the reader loop reads under a deadline of twice the receive
    interval, set anew before every frame, when the interval is positive:
    that is the deadline in force when the loop ends, whether it returns,
    panics or is blocked in a send.  When the interval is not positive,
    the loop never sets a deadline. *)
Theorem Client_read_deadline (d : Z) (c : Client) :
  ∃ c', ended_in (Client_read d c) = Some c' ∧
        c_deadline (transport c')
        = if 0 <? d then Some (wrap64 (d * 2)) else c_deadline (transport c).
Proof.
  pose proof (Client_read_fuel d c) as Hfuel.
  destruct (ended_in (Client_read d c)) as [c'|] eqn:E.
  - exists c'. split; [done|]. by apply read_loop_deadline in E.
  - by destruct (Client_read d c).
Qed.

(* ===================================================================== *)
(** * How decoding fails                                                  *)
(* ===================================================================== *)


Lemma Split_length sep s : length (Split sep s) = S (count_byte sep s).
Proof.
  induction s as [|a s IH]; [done|]. simpl. unfold is_byte.
  case_bool_decide; simpl; [by rewrite IH|].
  destruct (Split sep s); simpl in *; lia.
Qed.

Lemma count_byte_app d s t : count_byte d (s +:+ t) = (count_byte d s + count_byte d t)%nat.
Proof. induction s as [|a s IH]; [done|]. simpl. rewrite IH. lia. Qed.

Lemma count_byte_has d s : has_byte (is_byte d) s = bool_decide (0 < count_byte d s)%nat.
Proof.
  induction s as [|a s IH]; [done|]. simpl. rewrite IH.
  destruct (is_byte d a); simpl; [|done].
  first [done | by rewrite bool_decide_eq_true_2 by lia].
Qed.








(* ===================================================================== *)
(** * Headers the decoder cannot read back                                *)
(* ===================================================================== *)

Lemma read_headers_step fuel hdrs c k v X :
  lf_free (k, v) →
  c_in c = header_line (k, v) +:+ X →
  read_headers (S fuel) hdrs c
  = if has_byte (is_byte COLON) (k +:+ v)
    then (Err ErrDecodeHeader, set_in X c)
    else read_headers fuel (<[k := v]> hdrs) (set_in X c).
Proof.
  intros [Hk Hv] Hin. simpl in Hk, Hv.
  assert (has_byte (is_byte LF) (k +:+ String COLON v) = false) as Hlf.
  { rewrite has_byte_app. simpl. by rewrite Hk, Hv. }
  assert (c_in c = (k +:+ String COLON v) +:+ String LF X) as Hin'.
  { rewrite Hin. unfold header_line. simpl. by rewrite !string_app_assoc. }
  simpl. unfold ReadString. rewrite Hin', (read_until_app _ _ _ Hlf).
  rewrite bool_decide_eq_false_2; last first.
  { intros Heq. apply (f_equal String.length) in Heq.
    rewrite !string_app_length in Heq. simpl in Heq. lia. }
  change (String LF EmptyString) with nl.
  rewrite (Trim_line cut_lf) by done.
  pose proof (Split_length COLON (k +:+ String COLON v)) as Hlen.
  rewrite count_byte_app in Hlen. simpl in Hlen.
  rewrite has_byte_app, !count_byte_has.
  destruct (decide (0 < count_byte COLON k + count_byte COLON v)%nat) as [Hpos|Hzero].
  - replace (bool_decide (0 < count_byte COLON k)%nat || bool_decide (0 < count_byte COLON v)%nat)
      with true; last first.
    { symmetry. apply orb_true_iff.
      destruct (decide (0 < count_byte COLON k)%nat);
        [left|right]; apply bool_decide_eq_true_2; lia. }
    destruct (Split COLON (k +:+ String COLON v)) as [|a [|b [|? ?]]]; try done.
    simpl in Hlen. lia.
  - rewrite !bool_decide_eq_false_2 by lia. simpl.
    rewrite Split_app, Split_none; [done|..];
      rewrite count_byte_has; apply bool_decide_eq_false_2; lia.
Qed.

Lemma read_headers_colon kvs :
  Forall lf_free kvs → Exists has_colon kvs →
  ∀ fuel hdrs c rest,
    c_in c = header_lines kvs +:+ nl +:+ rest →
    (length kvs < fuel)%nat →
    ∃ c', read_headers fuel hdrs c = (Err ErrDecodeHeader, c').
Proof.
  induction 1 as [|[k v] kvs Hlf _ IH]; intros Hex fuel hdrs c rest Hin Hfuel.
  - by apply Exists_nil in Hex.
  - destruct fuel as [|fuel]; [simpl in Hfuel; lia|].
    assert (c_in c = header_line (k, v) +:+ header_lines kvs +:+ nl +:+ rest) as Hin'.
    { rewrite Hin. simpl. by rewrite !string_app_assoc. }
    rewrite (read_headers_step _ _ _ _ _ _ Hlf Hin').
    destruct (has_byte (is_byte COLON) (k +:+ v)) eqn:Hc; [eauto|].
    apply Exists_cons in Hex as [Hex|Hex].
    + unfold has_colon in Hex. simpl in Hex. congruence.
    + apply (IH Hex fuel _ _ rest); [done|simpl in Hfuel; lia].
Qed.

(** X18: the encoder escapes nothing, and the decoder splits a header line
    at every colon.  So a frame with a colon in the name or the value of
    any header (and no newline in its headers) is encoded to bytes that
    the decoder rejects with "unable to decode frame header", whatever the
    order of the headers. *)
Theorem roundtrip_fails_on_colon (rg : order) (f : Frame) (b : Reader) :
  fair rg →
  Command f ≠ EmptyString →
  Command f ≠ "HEARTBEAT" →
  has_byte cut_crlf (Command f) = false →
  map_Forall (λ k v, lf_free (k, v)) (Headers f) →
  (∃ k v, Headers f !! k = Some v ∧ has_colon (k, v)) →
  Body f = Some b → r_err b = None → r_close b = None →
  roundtrip rg f = Err ErrDecodeHeader.
Proof.
  intros Hfair Hne Hhb Hcmd Hclean (k & v & Hkv & Hcolon) Hb Herr Hclose.
  unfold roundtrip. rewrite (Encode_pipe rg f b) by done. simpl.
  assert (Forall lf_free (rg (Headers f))) as Hkvs.
  { apply Forall_forall. intros [k' v'] Hin.
    apply (fair_elem_of _ _ _ _ Hfair) in Hin. by apply Hclean in Hin. }
  assert (Exists has_colon (rg (Headers f))) as Hex.
  { apply Exists_exists. exists (k, v). split; [|done].
    by apply (fair_elem_of _ _ _ _ Hfair). }
  assert (has_byte (is_byte LF) (Command f) = false) as Hlf.
  { revert Hcmd. apply has_byte_weaken. unfold cut_crlf, is_byte.
    intros a ->. apply orb_true_r. }
  unfold Decode, bind.
  unfold ReadString at 1. simpl c_in.
  change (Command f +:+ nl +:+ ?x) with (Command f +:+ String LF x).
  rewrite (read_until_app _ _ _ Hlf).
  rewrite bool_decide_eq_false_2; last first.
  { intros Heq. apply (f_equal String.length) in Heq.
    rewrite string_app_length in Heq. simpl in Heq.
    destruct (Command f); [done|simpl in Heq; lia]. }
  edestruct (read_headers_colon _ Hkvs Hex) as [c' ->]; [reflexivity| |done].
  simpl. rewrite !string_app_length.
  pose proof (header_lines_length (rg (Headers f))). lia.
Qed.

(* ===================================================================== *)
(** * A body that cannot be read                                          *)
(* ===================================================================== *)

Lemma mergeHeader_Body l f : Body (fold_left mergeHeader l f) = Body f.
Proof.
  revert f. induction l as [|kv l IH]; intros f; simpl; [done|].
  rewrite IH. unfold mergeHeader. by case_bool_decide.
Qed.

Lemma Encode_body_failure rg f b e c :
  Command f ≠ "HEARTBEAT" → Body f = Some b → r_err b = Some e →
  Encode rg f c
  = bind (Write (unterminated (rg (Headers f)) (Command f) (r_bytes b))) (λ _, fail e) c.
Proof.
  intros Hcmd Hb Herr. unfold Encode, unterminated.
  rewrite bool_decide_eq_false_2 by done.
  rewrite Hb. unfold Copy, CloseBody. rewrite Herr.
  rewrite (bind_ext (Write (Command f +:+ nl)) _
             (λ _, bind (Write (header_lines (rg (Headers f)) +:+ nl +:+ r_bytes b))
                     (λ _, fail e)) c).
  { rewrite bind_Write_Write. by rewrite string_app_assoc. }
  intros [] c1.
  rewrite (bind_ext (write_headers (rg (Headers f))) _
             (λ _, bind (Write (nl +:+ r_bytes b)) (λ _, fail e)) c1).
  { rewrite <- bind_Write_Write. apply bind_ext_l, write_headers_Write. }
  intros [] c2.
  rewrite (bind_ext (Write nl) _ (λ _, bind (Write (r_bytes b)) (λ _, fail e)) c2).
  { apply bind_Write_Write. }
  intros [] c3.
  unfold bind, fail.
  by destruct (Write (r_bytes b) c3) as [[[]|e2] c4].
Qed.

(** X19: [Send] with a body whose [Read] fails (after yielding some bytes).
    When the length of the body is measured by copying it (every reader
    that is not an [io.ReadCloser] with a [Len] of its own), [Send] and
    [TxSend] return the failure and write nothing.  When the body is such
    a [ReadCloser], its [Len] is trusted, and the failure comes out of the
    encoder after the frame has been written up to the bytes that were
    read, with no terminator. *)
Theorem Transport_Send_body_failure (rg : order) (tid dest : string)
    (hdrs : option (gmap string string)) (bodyType : string) (b : Reader)
    (receipt : option string) (e : error) (c : Conn) :
  r_err b = Some e →
  (r_closer b = false ∨ r_len b = None →
   Transport_Send rg dest hdrs bodyType (Some b) receipt c = (Err e, c) ∧
   Transport_TxSend rg tid dest hdrs bodyType (Some b) c = (Err e, c)) ∧
  (r_closer b = true → is_Some (r_len b) →
   ∃ f, sendFrame rg dest hdrs bodyType (Some b) receipt = Ok f ∧
        Transport_Send rg dest hdrs bodyType (Some b) receipt c
        = bind (Write (unterminated (rg (Headers f)) "SEND" (r_bytes b)))
            (λ _, fail e) c).
Proof.
  intros Herr. split.
  - intros Hmeasured.
    assert (makeSendFrame rg dest hdrs bodyType (Some b) = Err e) as Hmk.
    { unfold makeSendFrame, measureBody, NewFrame. simpl.
      destruct (r_closer b) eqn:Hc; simpl.
      - destruct Hmeasured as [?|Hlen]; [done|]. by rewrite Hlen, Herr.
      - by rewrite Herr. }
    unfold Transport_Send, Transport_TxSend, sendFrame. rewrite Hmk. done.
  - intros Hc [n Hlen].
    assert (∃ f0, makeSendFrame rg dest hdrs bodyType (Some b) = Ok f0 ∧
                  Command f0 = "SEND" ∧ Body f0 = Some b) as (f0 & Hmk & Hcmd & Hb).
    { unfold makeSendFrame, measureBody, NewFrame. simpl. rewrite Hc. simpl.
      rewrite Hlen. destruct hdrs as [m|]; eexists; (split; [done|]).
      - by rewrite mergeHeader_Command, mergeHeader_Body.
      - done. }
    exists (withReceipt receipt f0).
    unfold Transport_Send, sendFrame. rewrite Hmk. split; [done|].
    unfold bind at 1, lift.
    assert (Command (withReceipt receipt f0) = "SEND") as Hcmd'
      by (by destruct receipt).
    rewrite (Encode_body_failure rg _ b e).
    + by rewrite Hcmd'.
    + by rewrite Hcmd'.
    + by destruct receipt.
    + done.
Qed.

(* ===================================================================== *)
(** * What Connect returns                                                *)
(* ===================================================================== *)

Lemma Write_Ok s c c' : Write s c = (Ok tt, c') → c_out c' = c_out c +:+ s.
Proof.
  unfold Write. destruct (c_room c); [destruct (_ <=? _)%nat|];
    by intros [= <-].
Qed.

Lemma connectFrame_shape ts conf :
  Command (connectFrame ts conf) = "CONNECT" ∧
  Body (connectFrame ts conf) = Some (NopCloser emptyBuffer).
Proof. unfold connectFrame. by repeat case_bool_decide. Qed.

(** X20: [Connect] returns a client only when the stream was opened, the
    TLS handshake (if one was asked for) succeeded before its timer fired,
    the CONNECT frame was written and the response decoded was a CONNECTED
    frame.  The client then holds that stream, not closed by [Connect],
    with the CONNECT frame as the only bytes written; of the bytes that
    follow the response, those the buffered reader of [Connect] had read
    ahead are lost, and the client reads on after them.  Its registry is
    empty, its channels are empty and open, and the heart-beat object is
    the one negotiated from the [heart-beat] header of the response. *)
Theorem Connect_success (w : World) (rg : order) (ts : Heartbeat → string)
    (addr : string) (conf : option Config) (tr : option TransportConfig)
    (cl : Client) (hb : Heartbeat) (oc : option Conn) :
  Connect w rg ts addr conf tr = (Ok (cl, hb), oc) →
  ∃ conn0 conn1 conn2 resp,
    Dial (trOrDefault w tr) addr = Ok conn0 ∧
    (is_Some (TLSConfig (trOrDefault w tr)) → tlsResult w (trOrDefault w tr) = None) ∧
    Encode rg (connectFrame ts (orDefault conf)) conn0 = (Ok tt, conn1) ∧
    Decode zeroFrame conn1 = (Ok resp, conn2) ∧
    Command resp = "CONNECTED" ∧
    hb = negotiate (Heartbeat_ (orDefault conf)) (Headers resp !! "heart-beat") ∧
    transport cl = set_in (drop_bytes (read_ahead w) (c_in conn2)) conn2 ∧
    oc = Some (transport cl) ∧
    c_closed (transport cl) = c_closed conn0 ∧
    c_out (transport cl)
    = c_out conn0 +:+ wire (rg (Headers (connectFrame ts (orDefault conf)))) "CONNECT"
                        EmptyString ∧
    receipts_ cl = newReceipts ∧ MsgCh cl = [] ∧ MsgCh_closed cl = false ∧
    ErrCh cl = [] ∧ MsgCh_recv cl = receives w.
Proof.
  unfold Connect. fold (trOrDefault w tr).
  destruct (Dial (trOrDefault w tr) addr) as [conn0|e0]; [|done].
  destruct (match TLSConfig (trOrDefault w tr) with Some _ => _ | None => _ end)
    as [e1|] eqn:Htls; [done|].
  destruct (Encode _ _ conn0) as [[[]|e2] conn1] eqn:HE; [|done].
  destruct (Decode zeroFrame conn1) as [[resp|e3] conn2] eqn:HD; [|done].
  case_bool_decide as Hcmd; [done|].
  intros [= <- <- <-]. exists conn0, conn1, conn2, resp.
  pose proof (connectFrame_shape ts (orDefault conf)) as [Hc Hb].
  pose proof HE as HE'.
  rewrite (Encode_wire rg _ (NopCloser emptyBuffer)) in HE'
    by (by rewrite ?Hc).
  apply Write_Ok in HE'. rewrite Hc in HE'.
  pose proof (keeps_open_Encode _ _ _ _ _ HE) as Hcl1.
  pose proof (reads_only_Decode _ _ _ _ HD) as (Ho2 & _ & Hcl2 & _).
  split; [done|]. split.
  { intros [cfg Hcfg]. by rewrite Hcfg in Htls. }
  split; [done|]. split; [done|]. split; [done|].
  split; [done|]. split; [done|]. split; [done|]. split; [simpl; congruence|].
  split; [simpl; by rewrite Ho2, HE'|]. done.
Qed.

Lemma Decode_body_reads c g c' k v :
  Decode zeroFrame c = (Ok g, c') →
  Headers g !! k = Some v →
  ∃ s, Body g = Some (NopCloser (bytesReader s)).
Proof.
  unfold Decode. intros H.
  apply bind_Ok in H as (l & c1 & H1 & H).
  case_bool_decide.
  { injection H as <- <-. simpl. by rewrite lookup_empty. }
  apply bind_Ok in H as (hdrs & c2 & H2 & H).
  apply bind_Ok in H as (body & c3 & H3 & H).
  apply bind_Ok in H as (b & c4 & H4 & H).
  injection H as <- <-. simpl. eauto.
Qed.

(** X21: how [Connect] reports a response that is not CONNECTED.  The
    stream is closed, and the failure is "server response has no
    content-type" when the response has no [content-type] header, "bad
    content-type" with its value when it is not [text/plain], and
    otherwise the text of the body of the response. *)
Theorem Connect_rejected (w : World) (rg : order) (ts : Heartbeat → string)
    (addr : string) (conf : option Config) (tr : TransportConfig)
    (conn0 conn1 conn2 : Conn) (resp : Frame) :
  Dial tr addr = Ok conn0 →
  TLSConfig tr = None →
  Encode rg (connectFrame ts (orDefault conf)) conn0 = (Ok tt, conn1) →
  Decode zeroFrame conn1 = (Ok resp, conn2) →
  Command resp ≠ "CONNECTED" →
  ∃ e, Connect w rg ts addr conf (Some tr) = (Err e, Some (conn_Close conn2)) ∧
       match Headers resp !! "content-type" with
       | None => e = ErrNoContentType
       | Some ct =>
           if bool_decide (ct = "text/plain")
           then ∃ text, body_bytes resp = Some text ∧ e = ErrServer text
           else e = ErrBadContentType ct
       end.
Proof.
  intros HD HT HE HDec Hcmd. exists (rejection resp). split.
  - unfold Connect. rewrite HD, HT, HE, HDec.
    by rewrite bool_decide_eq_true_2.
  - unfold rejection. destruct (Headers resp !! "content-type") as [ct|] eqn:Hct; [|done].
    destruct (Decode_body_reads _ _ _ _ _ HDec Hct) as [s Hs].
    unfold body_bytes. rewrite Hs. simpl.
    repeat case_bool_decide; try done. eauto.
Qed.

(* ===================================================================== *)
(** * The round trip of SEND frames                                       *)
(* ===================================================================== *)

Lemma is_sep_lower a : is_sep (lower_byte a) = is_sep a.
Proof. destruct a as [[] [] [] [] [] [] [] []]; reflexivity. Qed.

Lemma is_sep_to_byte z :
  0 ≤ z < 256 → z ≠ 10 → z ≠ 58 → is_sep (to_byte z) = false.
Proof.
  intros Hz H10 H58. unfold is_sep, is_byte, to_byte.
  rewrite !bool_decide_eq_false_2; [done|..]; intros Heq;
    apply (f_equal nat_of_ascii) in Heq;
    rewrite nat_ascii_embedding in Heq by lia; vm_compute nat_of_ascii in Heq; lia.
Qed.

Lemma is_sep_byte_val a :
  is_sep a = false → byte_val a ≠ 10 ∧ byte_val a ≠ 58.
Proof.
  unfold is_sep, is_byte, byte_val. intros [H1 H2]%orb_false_elim.
  apply bool_decide_eq_false_1 in H1, H2.
  split; intros Heq.
  - apply H1. rewrite <- (ascii_nat_embedding a).
    replace (nat_of_ascii a) with 10%nat by lia. done.
  - apply H2. rewrite <- (ascii_nat_embedding a).
    replace (nat_of_ascii a) with 58%nat by lia. done.
Qed.

(** A rune that is written is written without a newline or a colon,
    unless it is one. *)
Lemma sep_free_WriteRune r :
  0 ≤ r → r ≠ 10 → r ≠ 58 → has_byte is_sep (WriteRune r) = false.
Proof.
  intros H0 H10 H58. unfold WriteRune.
  repeat case_match; simpl;
    rewrite ?is_sep_to_byte; try done; try lia;
    repeat match goal with
           | H : (_ <=? _) = _ |- _ => first [apply Z.leb_le in H|apply Z.leb_gt in H]
           | H : (_ || _) = false |- _ => apply orb_false_elim in H as [? ?]
           | H : (_ <? _) = _ |- _ => first [apply Z.ltb_lt in H|apply Z.ltb_ge in H]
           end;
    try (Z.div_mod_to_equations; lia).
Qed.

(** The rune decoded from a text is its first byte, when that is ASCII,
    and is above ASCII otherwise. *)
Lemma DecodeRuneInString_cases a s r w :
  DecodeRuneInString (String a s) = (r, w) →
  r = byte_val a ∧ r < 128 ∨ 127 < r.
Proof.
  unfold DecodeRuneInString, cont, RuneError.
  repeat case_match; intros [= <- <-]; try (by right); try (left; split; [done|lia]);
    right;
    repeat match goal with
           | H : Some _ = Some _ |- _ => injection H as <-
           | H : (_ && _) = true |- _ => apply andb_prop in H as [? ?]
           | H : (_ || _) = false |- _ => apply orb_false_elim in H as [? ?]
           | H : (_ <=? _) = _ |- _ => first [apply Z.leb_le in H|apply Z.leb_gt in H]
           | H : (_ <? _) = _ |- _ => first [apply Z.ltb_lt in H|apply Z.ltb_ge in H]
           | H : (_ =? _) = _ |- _ => first [apply Z.eqb_eq in H|apply Z.eqb_neq in H]
           end;
    Z.div_mod_to_equations; lia.
Qed.

Lemma sep_free_Map_from skip s :
  has_byte is_sep s = false →
  has_byte is_sep (Map_from unicode_ToLower skip s) = false.
Proof.
  revert skip. induction s as [|a s IH]; intros skip; [done|].
  intros [Ha Hs]%orb_false_elim. destruct skip as [|k]; [|by apply IH].
  change (Map_from unicode_ToLower 0 (String a s))
    with (let '(r, w) := DecodeRuneInString (String a s) in
          (if 0 <=? unicode_ToLower r then WriteRune (unicode_ToLower r)
           else EmptyString) +:+ Map_from unicode_ToLower (w - 1) s).
  destruct (DecodeRuneInString (String a s)) as [r w] eqn:E.
  rewrite has_byte_app, (IH _ Hs), orb_false_r.
  destruct (0 <=? unicode_ToLower r) eqn:E0; [|done].
  apply Z.leb_le in E0.
  apply DecodeRuneInString_cases in E as [[-> Hlt]|Hgt].
  - apply is_sep_byte_val in Ha as [H10 H58].
    apply sep_free_WriteRune; [done|..]; unfold unicode_ToLower, MaxASCII in *;
      repeat case_match; lia.
  - destruct (To_LowerCase_text r) as [H10 H58]; [done|].
    apply sep_free_WriteRune; [done|..]; unfold unicode_ToLower, MaxASCII in *;
      rewrite (proj2 (Z.leb_gt _ _)) by lia; done.
Qed.

(** Lower-casing brings neither a newline nor a colon into a name. *)
Lemma sep_free_ToLower s :
  has_byte is_sep s = false → has_byte is_sep (ToLower s) = false.
Proof.
  intros Hs. unfold ToLower. destruct (isASCII s).
  - rewrite <- Hs. clear Hs. induction s as [|a s IH]; [done|]. simpl.
    by rewrite is_sep_lower, IH.
  - by apply sep_free_Map_from.
Qed.

Lemma sep_free_uint d : has_byte is_sep (NilEmpty.string_of_uint d) = false.
Proof. induction d; simpl; done. Qed.

Lemma sep_free_Itoa z : has_byte is_sep (Itoa z) = false.
Proof.
  unfold Itoa. destruct z as [|p|p]; [done|..]; simpl Z.to_int;
    simpl NilZero.string_of_int; unfold NilZero.string_of_uint;
    destruct (Pos.to_uint p) eqn:E; try done; rewrite <- E;
    try apply sep_free_uint; simpl; apply sep_free_uint.
Qed.

Lemma mergeHeader_clean l f :
  Forall clean_header l → clean_headers (Headers f) →
  clean_headers (Headers (fold_left mergeHeader l f)).
Proof.
  intros Hl. revert f. induction Hl as [|[k v] l [Hk Hv] _ IH]; intros f Hf; [done|].
  simpl. apply IH. unfold mergeHeader. case_bool_decide; [done|].
  simpl. apply map_Forall_insert_2; [|done].
  split; simpl in *; [by apply sep_free_ToLower|done].
Qed.

Lemma makeSendFrame_body rg dest hdrs bodyType body f :
  makeSendFrame rg dest hdrs bodyType body = Ok f →
  (match body with Some b => r_err b = None ∧ r_close b = None | None => True end) →
  Command f = "SEND" ∧
  ∃ b', Body f = Some b' ∧ r_err b' = None ∧ r_close b' = None ∧
        r_bytes b' = bytes_of body.
Proof.
  intros (f0 & H0 & ->)%makeSendFrame_Ok Hbody.
  assert (Command f0 = "SEND" ∧
          ∃ b', Body f0 = Some b' ∧ r_err b' = None ∧ r_close b' = None ∧
                r_bytes b' = bytes_of body) as [Hcmd Hb].
  { revert H0. unfold measureBody, NewFrame. simpl.
    destruct body as [b|]; simpl.
    - destruct Hbody as [Herr Hclose]. destruct (r_closer b) eqn:Hc; simpl.
      + destruct (r_len b); [intros [= <-]; simpl; eauto 10|].
        rewrite Herr, Hclose. intros [= <-]. simpl. eauto 10.
      + rewrite Herr. intros [= <-]. simpl. eauto 10.
    - intros [= <-]. simpl. eauto 10. }
  destruct hdrs as [m|]; [|done].
  by rewrite mergeHeader_Command, mergeHeader_Body.
Qed.

(** X22: the SEND frames of [Transport.Send] survive the wire.  When the
    destination, the content type, the receipt id and the caller's headers
    have no newline and no colon in them and the body can be sent, the
    frame [Send] builds is decoded from its encoding with its command, all
    its headers (the computed [content-length] among them) and the bytes of
    its body, whatever the order in which the maps are walked. *)
Theorem SEND_roundtrip (rg : order) (dest : string)
    (hdrs : option (gmap string string)) (bodyType : string)
    (body : option Reader) (receipt : option string) :
  fair rg →
  has_byte is_sep dest = false →
  has_byte is_sep bodyType = false →
  (∀ r, receipt = Some r → has_byte is_sep r = false) →
  (∀ m, hdrs = Some m → clean_headers m) →
  sendable body →
  ∃ f g, sendFrame rg dest hdrs bodyType body receipt = Ok f ∧
         roundtrip rg f = Ok g ∧
         Command g = "SEND" ∧ Headers g = Headers f ∧
         body_bytes g = Some (bytes_of body) ∧
         Headers g !! "content-length"
         = Some (Itoa (Z.of_nat (String.length (bytes_of body)))).
Proof.
  intros Hfair Hdest Htype Hreceipt Hhdrs (Hbody & Hlen & Hrange).
  destruct (makeSendFrame rg dest hdrs bodyType body) as [f0|e] eqn:Hmk; last first.
  { exfalso. revert Hmk. unfold makeSendFrame, measureBody, NewFrame. simpl.
    destruct body as [b|]; simpl.
    - destruct Hbody as [Herr Hclose]. destruct (r_closer b); simpl.
      + destruct (r_len b); [by destruct hdrs|]. rewrite Herr, Hclose.
        by destruct hdrs.
      + rewrite Herr. by destruct hdrs.
    - by destruct hdrs. }
  pose proof (makeSendFrame_body _ _ _ _ _ _ Hmk Hbody)
    as (Hcmd & b' & Hb' & Herr' & Hclose' & Hbytes).
  pose proof (makeSendFrame_managed _ _ _ _ _ _ Hmk) as (_ & _ & Hcl & _).
  assert (clean_headers (Headers f0)) as Hclean0.
  { apply makeSendFrame_Ok in Hmk as (f1 & H1 & ->).
    apply measureBody_headers in H1.
    assert (clean_headers (Headers f1)) as Hc1.
    { rewrite H1. repeat apply map_Forall_insert_2; try apply map_Forall_empty;
        split; simpl; try done. apply sep_free_Itoa. }
    destruct hdrs as [m|]; [|done].
    apply mergeHeader_clean; [|done].
    apply Forall_forall. intros [k v] Hin.
    apply (fair_elem_of _ _ _ _ Hfair) in Hin. by apply (Hhdrs m eq_refl) in Hin. }
  set (f := withReceipt receipt f0).
  assert (sendFrame rg dest hdrs bodyType body receipt = Ok f) as Hsend
    by (unfold sendFrame; by rewrite Hmk).
  assert (Headers f !! "content-length"
          = Some (Itoa (Z.of_nat (String.length (bytes_of body))))) as Hcl'.
  { unfold f. destruct receipt; simpl; [rewrite lookup_insert_ne by done|];
      by rewrite Hcl, Hlen. }
  destruct (roundtrip_sized rg f b'
              (Itoa (Z.of_nat (String.length (bytes_of body)))))
    as (g & Hg & Hgc & Hgh & Hgb); try done.
  - unfold f. by destruct receipt; simpl; rewrite Hcmd.
  - unfold f. by destruct receipt; simpl; rewrite Hcmd.
  - unfold f. by destruct receipt; simpl; rewrite Hcmd.
  - unfold f. destruct receipt as [r|]; simpl; [|done].
    apply map_Forall_insert_2; [|done]. split; simpl; [done|]. by apply Hreceipt.
  - unfold f. by destruct receipt.
  - rewrite Hbytes. by apply Atoi_Itoa.
  - exists f, g. split; [done|]. split; [done|]. split.
    { rewrite Hgc. unfold f. by destruct receipt. }
    split; [done|]. split.
    { rewrite Hgb. unfold body_bytes, f.
      destruct receipt; simpl; rewrite Hb'; simpl; by rewrite Hbytes. }
    by rewrite Hgh.
Qed.

(* ===================================================================== *)
(** * Heart-beats on the way in, and a transaction on the way out         *)
(* ===================================================================== *)

Lemma Recv_deadline_irrel d t x :
  (0 <? d) = true →
  Transport_Recv d (SetReadDeadline x t) = Transport_Recv d t.
Proof. intros Hd. unfold Transport_Recv. rewrite Hd. by destruct t. Qed.

Lemma read_loop_deadline_irrel fuel d c x :
  (0 <? d) = true →
  read_loop fuel d (set_transport (SetReadDeadline x (transport c)) c)
  = read_loop fuel d c.
Proof.
  intros Hd. destruct fuel as [|fuel]; [done|].
  rewrite !read_loop_unfold. unfold on_transport. simpl.
  rewrite Recv_deadline_irrel by done.
  by destruct (Transport_Recv d (transport c)) as [[f|e] t].
Qed.

(** X23: a heart-beat of the peer is invisible.  When the next byte on the
    stream is a newline, the reader loop ends exactly as it does on the
    stream without that byte. *)
Theorem heartbeat_discarded (d : Z) (c : Client) (inp : string) :
  c_in (transport c) = nl +:+ inp →
  Client_read d c = Client_read d (set_transport (set_in inp (transport c)) c).
Proof.
  intros Hin.
  set (t1 := if 0 <? d then SetReadDeadline (wrap64 (d * 2)) (transport c)
             else transport c).
  assert (on_transport (Transport_Recv d) c
          = (Ok (mkFrame "HEARTBEAT" ∅ None), set_transport (set_in inp t1) c)) as HR.
  { unfold on_transport, Transport_Recv. fold t1.
    assert (c_in t1 = nl +:+ inp) as Hin1 by (unfold t1; by destruct (0 <? d)).
    unfold Decode, bind, ReadString. rewrite Hin1. simpl. done. }
  rewrite (read_loop_heartbeat d c _ _ HR) by done.
  unfold t1. destruct (0 <? d) eqn:Hd; [|done].
  exact (read_loop_deadline_irrel (S (String.length inp)) d
           (set_transport (set_in inp (transport c)) c) (wrap64 (d * 2)) Hd).
Qed.

(** X24: a transaction on the wire.  On a stream that takes every write,
    [Begin] without a receipt writes the BEGIN frame with the transaction
    id it drew and returns an open transaction; [Commit] on it writes the
    COMMIT frame with the same id and leaves the transaction done; an
    [Abort] after that sends nothing and returns nil.  When no id can be
    drawn, [Begin] returns the failure, no transaction, and sends
    nothing. *)
Theorem transaction_on_the_wire (s : Sched) (rg : order) (c : Client) (id : string) :
  fair rg →
  c_room (transport c) = None →
  ∃ c1 c2,
    Client_Begin (Ok id) s rg false c = Returns (Some (mkTx id false), None, c1) ∧
    c_out (transport c1)
    = c_out (transport c) +:+ "BEGIN" +:+ nl +:+ "transaction:" +:+ id +:+ nl +:+ nl +:+ nul ∧
    Tx_Commit s rg false (mkTx id false) c1 = Returns (None, mkTx id true, c2) ∧
    c_out (transport c2)
    = c_out (transport c1) +:+ "COMMIT" +:+ nl +:+ "transaction:" +:+ id +:+ nl +:+ nl +:+ nul ∧
    (∀ receipt, Tx_Abort s rg receipt (mkTx id true) c2 = Returns (None, mkTx id true, c2)) ∧
    (∀ e, Client_Begin (Err e) s rg false c = Returns (None, Some e, c)).
Proof.
  intros Hfair Hroom.
  pose proof (verbs_wire rg id id id AutoMode None) as Hverbs.
  set (t1 := set_out (c_out (transport c) +:+ wire [("transaction", id)] "BEGIN" EmptyString)
               None (transport c)).
  set (t2 := set_out (c_out t1 +:+ wire [("transaction", id)] "COMMIT" EmptyString)
               None t1).
  assert (Transport_TxBegin rg id None (transport c) = (Ok tt, t1)) as HB.
  { destruct (Hverbs (transport c)) as (_&_&_&_&_&->&_). simpl withReceiptHeader.
    rewrite fair_singleton by done. by rewrite Write_unlimited. }
  assert (Transport_TxCommit rg id None t1 = (Ok tt, t2)) as HC.
  { destruct (Hverbs t1) as (_&_&_&_&_&_&->&_). simpl withReceiptHeader.
    rewrite fair_singleton by done. by rewrite Write_unlimited. }
  exists (set_transport t1 c), (set_transport t2 (set_transport t1 c)).
  split; [|split; [|split; [|split; [|split]]]].
  - unfold Client_Begin, receipted, plain, on_transport. by rewrite HB.
  - unfold t1, wire, header_lines, header_line. simpl.
    by rewrite !string_app_assoc.
  - unfold Tx_Commit, plain, on_transport. simpl. by rewrite HC.
  - unfold t2, wire, header_lines, header_line. simpl.
    by rewrite !string_app_assoc.
  - done.
  - done.
Qed.

End Stomp.

(* ===================================================================== *)
(** * The properties at work on examples                                  *)
(* ===================================================================== *)

(** The texts of the examples are ASCII: the case tables are not
    consulted, and the examples are run with tables without an entry. *)
#[export] Existing Instance noCaseTables.

Lemma read_panics_on_violation_witness :
  let inp := "RECEIPT" +:+ nl +:+ nl +:+ nul in
  Client_read 0 (clientOn inp)
  = Panicked "stomp: received a receipt frame without an ID"
      (set_transport (pipe EmptyString) (clientOn inp)).
Proof.
  intros inp.
  pose (f := mkFrame "RECEIPT" ∅ (Some (NopCloser (bytesReader nul)))).
  assert (on_transport (Transport_Recv 0) (clientOn inp)
          = (Ok f, set_transport (pipe EmptyString) (clientOn inp))) as HR
    by reflexivity.
  assert (violation f) as Hv by (left; split; reflexivity).
  exact (proj1 (proj2 (read_panics_on_violation 0 0 _ _ _ HR Hv))).
Defined.

(** C5, as the claim has it, fails: the loop does not return on these
    frames, so nothing can reach the error path. *)
Lemma read_violation_not_reported :
  ¬ (∀ d c f c1,
       on_transport (Transport_Recv d) c = (Ok f, c1) →
       violation f →
       ∃ c', Client_read d c = Exited c').
Proof.
  intros H.
  pose (inp := "BOGUS" +:+ nl +:+ nl +:+ nul).
  pose (f := mkFrame "BOGUS" ∅ (Some (NopCloser (bytesReader nul)))).
  assert (on_transport (Transport_Recv 0) (clientOn inp)
          = (Ok f, set_transport (pipe EmptyString) (clientOn inp))) as HR
    by reflexivity.
  assert (violation f) as Hv.
  { right. rewrite !not_elem_of_cons. repeat split; try done. apply not_elem_of_nil. }
  destruct (H _ _ _ _ HR Hv) as [c' Hc'].
  pose proof (read_loop_violation (String.length inp) 0 _ _ _ HR Hv) as Hp.
  unfold Client_read in Hc'. simpl c_in in Hc'. congruence.
Qed.

Lemma read_exit_unblocks_waiters_witness :
  let c := set_receipts (Mark "r-1" newReceipts).2
             (clientOn ("ERROR" +:+ nl +:+ nl +:+ nul)) in
  ∃ c', Client_read 0 c = Exited c' ∧
        awaitReceipt true "r-1" 0%nat c'
        = Returns (Some ErrChannelClosed,
                   set_receipts (Clear "r-1" (receipts_ c')) c').
Proof.
  intros c.
  destruct (Client_read 0 c) as [c'| | |] eqn:E; [|by vm_compute in E..].
  exists c'. split; [done|].
  destruct (read_exit_unblocks_waiters 0 c) as (_ & _ & _ & H & _).
  destruct (H c' E) as (_ & _ & Hw).
  apply Hw.
  assert (c' = closeAll (push_ErrCh
                 (mkFrame "ERROR" ∅ (Some (NopCloser (bytesReader nul))))
                 (set_transport (pipe EmptyString) c))) as ->.
  { assert (Client_read 0 c = Exited (closeAll (push_ErrCh
                 (mkFrame "ERROR" ∅ (Some (NopCloser (bytesReader nul))))
                 (set_transport (pipe EmptyString) c)))) by reflexivity.
    congruence. }
  reflexivity.
Defined.

Lemma Tx_done_is_terminal_witness :
  let t := mkTx "tx-1" true in
  let c := clientOn EmptyString in
  done t = true ∧
  Tx_Commit idle map_to_list true t c = Returns (Some ErrTxDone, t, c) ∧
  Tx_Abort idle map_to_list true t c = Returns (None, t, c) ∧
  (∀ e t' c',
     Tx_Commit idle map_to_list false (mkTx "tx-1" false)
       (set_transport (brokenPipe EmptyString) c) = Returns (e, t', c') →
     done t' = true).
Proof.
  intros t c.
  pose proof (Tx_done_is_terminal idle map_to_list t c) as [H _].
  specialize (H eq_refl) as (_ & _ & _ & HC & HA).
  split; [reflexivity|]. split; [apply HC|]. split; [apply HA|].
  intros e t' c' Hret.
  pose proof (Tx_done_is_terminal idle map_to_list (mkTx "tx-1" false)
                (set_transport (brokenPipe EmptyString) c)) as (_ & H2 & _).
  exact (proj1 (H2 _ _ _ _ Hret)).
Defined.

Lemma negotiate_agreed_witness :
  negotiate (mkHeartbeat (1000 * Millisecond) (2000 * Millisecond)) (Some "500,3000")
  = mkHeartbeat (agreed (1000 * Millisecond) 3000) (agreed (2000 * Millisecond) 500).
Proof.
  refine (proj1 (negotiate_agreed
                   (mkHeartbeat (1000 * Millisecond) (2000 * Millisecond))
                   "500,3000" 500 3000 _ _ _)); reflexivity.
Defined.

(** C4, as the claim has it (for every value of the header), fails: a
    number of milliseconds beyond what a [time.Duration] holds wraps
    around, here to zero, and switches the heart-beat off. *)
Lemma negotiate_wraps_around :
  ¬ (∀ (conf : Heartbeat) (v : string) (x y : Z),
       Sscanf_d_d v = (x, y) →
       negotiate conf (Some v)
       = mkHeartbeat (agreed (Send conf) y) (agreed (Recv conf) x)).
Proof.
  intros H.
  specialize (H (mkHeartbeat (1000 * Millisecond) (2000 * Millisecond))
                "500,288230376151711744" 500 288230376151711744 eq_refl).
  vm_compute in H. discriminate H.
Qed.

Lemma Connect_send_failure_leaves_stream_open_witness :
  ∃ conn',
    Connect quiet map_to_list (λ _, "0,0") "broker:61613" None
      (Some (plainDial (brokenPipe EmptyString)))
    = (Err (ErrIO "broken pipe"), Some conn') ∧
    c_closed conn' = false.
Proof.
  eexists.
  refine (Connect_send_failure_leaves_stream_open quiet map_to_list (λ _, "0,0")
            "broker:61613" None (plainDial (brokenPipe EmptyString))
            (brokenPipe EmptyString) _ (ErrIO "broken pipe") _ _ _);
    reflexivity.
Defined.

Lemma makeSendFrame_merges_lowercased_witness :
  ∃ f, makeSendFrame map_to_list "/queue/a"
         (Some {[ "Foo" := "bar"; "Content-Length" := "99" ]}) "text/plain"
         (Some (bytesReader "hello")) = Ok f ∧
       Headers f !! "content-length" = Some "5" ∧
       Headers f !! "foo" = Some "bar".
Proof.
  eexists. split; [reflexivity|].
  match goal with
  | |- Headers ?f !! _ = _ ∧ _ =>
      pose proof (makeSendFrame_merges_lowercased map_to_list "/queue/a"
                    {[ "Foo" := "bar"; "Content-Length" := "99" ]} "text/plain"
                    (Some (bytesReader "hello")) f fair_map_to_list eq_refl)
        as ((_ & _ & Hlen & _) & _ & Huniq & _)
  end.
  split; [exact Hlen|].
  apply (Huniq "Foo" "bar"); [reflexivity| |].
  - apply (bool_decide_eq_false_1 _). vm_compute. reflexivity.
  - intros k' [v' Hk'] Hlow.
    apply lookup_insert_Some in Hk' as [[<- _]|[_ Hk']]; [done|].
    apply lookup_singleton_Some in Hk' as [<- _].
    vm_compute in Hlow. discriminate Hlow.
Defined.

(** C8, as the claim has it (the other headers of the caller are merged
    in), fails for a name with a capital letter: the frame does not have
    that name. *)
Lemma makeSendFrame_renames_headers :
  ¬ (∀ (rg : order) (dest : string) (hdrs : gmap string string)
       (bodyType : string) (body : option Reader) (f : Frame),
       fair rg →
       makeSendFrame rg dest (Some hdrs) bodyType body = Ok f →
       ∀ k v, hdrs !! k = Some v → ToLower k ∉ forbidden →
              Headers f !! k = Some v).
Proof.
  intros H.
  specialize (H map_to_list "/queue/a" {[ "Foo" := "bar" ]} "text/plain" None _
                fair_map_to_list eq_refl "Foo" "bar" eq_refl).
  assert (ToLower "Foo" ∉ forbidden) as Hnf
    by (apply (bool_decide_eq_false_1 _); vm_compute; reflexivity).
  specialize (H Hnf). vm_compute in H. discriminate H.
Qed.

Lemma roundtrip_with_content_length_witness :
  let f := setHeader "content-length" "5"
             (NewFrame "SEND" (Some (bytesReader "hello"))) in
  ∃ g, roundtrip map_to_list f = Ok g ∧
       Command g = Command f ∧ Headers g = Headers f ∧
       body_bytes g = body_bytes f.
Proof.
  intros f.
  apply (roundtrip_with_content_length map_to_list f
           (NopCloser (bytesReader "hello")) "5");
    try reflexivity; try discriminate.
  - apply fair_map_to_list.
  - apply map_Forall_insert_2; [split; reflexivity|apply map_Forall_empty].
Defined.

Example roundtrip_of_a_SEND_frame :
  ∃ f g, sendFrame map_to_list "/queue/a" (Some {[ "Foo" := "bar" ]}) "text/plain"
           (Some (bytesReader "hello")) (Some "r-1") = Ok f ∧
         roundtrip map_to_list f = Ok g ∧
         Command g = "SEND" ∧ Headers g = Headers f ∧ body_bytes g = Some "hello".
Proof.
  eexists. eexists. split; [reflexivity|].
  split; [vm_compute; reflexivity|]. by vm_compute.
Qed.

Lemma Encode_is_Write_witness :
  Encode map_to_list (setHeader "id" "42" (NewFrame "ACK" None)) (pipe EmptyString)
  = Write (wire [("id", "42")] "ACK" EmptyString) (pipe EmptyString).
Proof.
  rewrite (Encode_is_Write map_to_list (setHeader "id" "42" (NewFrame "ACK" None))
             (NopCloser emptyBuffer));
    [vm_compute; reflexivity|discriminate|reflexivity..].
Defined.

Lemma Client_read_trace_witness :
  let c := receiving (Some 0%nat)
             (clientOn ("MESSAGE" +:+ nl +:+ nl +:+ nul +:+ "ERROR" +:+ nl +:+ nl +:+ nul)) in
  ∃ c', Client_read 0 c = Blocked c' ∧
        c_in (transport c') = "ERROR" +:+ nl +:+ nl +:+ nul ∧
        MsgCh c' = [] ∧ ErrCh c' = [] ∧
        closed (receipts_ c') = false ∧ MsgCh_closed c' = false.
Proof.
  intros c.
  destruct (Client_read 0 c) as [c'|msg c'|c'|] eqn:E; try (by vm_compute in E).
  exists c'. split; [done|].
  destruct (Client_read_trace 0 c) as (_ & HB & _).
  destruct (HB eq_refl c' E) as (_ & -> & ->).
  vm_compute in E. injection E as <-. repeat split.
Defined.

Lemma registry_ok_kept_witness :
  registry_ok (Mark "r-1" newReceipts).2 ∧ registry_ok (Clear "r-1" newReceipts).
Proof.
  pose proof (registry_ok_kept newReceipts "r-1") as [Hnew Hkept].
  destruct (Hkept Hnew) as (HM & HC & _). by split.
Defined.

Lemma receipts_matched_by_id_witness :
  let c := set_receipts (Mark "r-1" newReceipts).2 (clientOn EmptyString) in
  awaitReceipt true "r-1" 0%nat (set_receipts (Clear "r-2" (receipts_ c)) c) = Blocks.
Proof.
  intros c.
  refine (proj1 (proj2 (receipts_matched_by_id c "r-1" "r-2" 0%nat true _ _ _ _))).
  - apply registry_ok_Mark, registry_ok_new.
  - reflexivity.
  - reflexivity.
  - discriminate.
Defined.

Lemma doWithReceipt_revokes_witness :
  ∃ c', doWithReceipt idle (λ rid, Transport_Ack map_to_list "m-1" (Some rid))
          (set_transport (brokenPipe EmptyString) (clientOn EmptyString))
        = Returns (Some (ErrIO "broken pipe"), c') ∧
        orders (receipts_ c') !! "2f1c" = None.
Proof.
  destruct (proj2 (doWithReceipt_revokes idle
                     (λ rid, Transport_Ack map_to_list "m-1" (Some rid))
                     (set_transport (brokenPipe EmptyString) (clientOn EmptyString)))
              "2f1c" (ErrIO "broken pipe") _ eq_refl eq_refl)
    as (c' & H & _ & Ho & _).
  exists c'. by split.
Defined.

Lemma doWithReceipt_wakes_witness :
  ∃ c', doWithReceipt (receiptArrives "2f1c")
          (λ rid, Transport_Ack map_to_list "m-1" (Some rid)) (clientOn EmptyString)
        = Returns (None, c').
Proof.
  eexists.
  refine (proj1 (doWithReceipt_wakes (receiptArrives "2f1c")
                   (λ rid, Transport_Ack map_to_list "m-1" (Some rid))
                   (clientOn EmptyString) _ "2f1c" eq_refl eq_refl _) _).
  - vm_compute. reflexivity.
  - reflexivity.
Defined.

Lemma Client_Disconnect_closes_witness :
  ∃ c', Client_Disconnect idle map_to_list
          (set_transport (brokenPipe EmptyString) (clientOn EmptyString))
        = Returns (Some (ErrIO "broken pipe"), c') ∧
        c_closed (transport c') = true.
Proof.
  eexists. split; [vm_compute; reflexivity|].
  refine (proj1 (proj1 (Client_Disconnect_closes idle map_to_list
                          (set_transport (brokenPipe EmptyString) (clientOn EmptyString)))
                   (Some (ErrIO "broken pipe")) _ _)).
  vm_compute. reflexivity.
Defined.

Lemma Client_Begin_contract_witness :
  ∃ tx c',
    Client_Begin (Ok "t-1") idle map_to_list false (clientOn EmptyString)
    = Returns (Some tx, None, c') ∧
    tid tx = "t-1" ∧ done tx = false.
Proof.
  destruct (Client_Begin (Ok "t-1") idle map_to_list false (clientOn EmptyString))
    as [[[otx e] c']|] eqn:E; [|by vm_compute in E].
  destruct (proj1 (Client_Begin_contract (Ok "t-1") idle map_to_list false
                     (clientOn EmptyString)) otx e c' E) as [Hiff Htx].
  assert (e = None) as -> by (vm_compute in E; by injection E as _ <- _).
  destruct (proj1 Hiff eq_refl) as [tx ->].
  exists tx, c'. split; [done|].
  destruct (Htx tx eq_refl) as [[= <-] Hdone]. by split.
Defined.

Lemma Client_Subscribe_id_witness :
  ∃ c', Client_Subscribe (Ok "s-1") idle map_to_list "/queue/a" ClientMode false
          (set_transport (brokenPipe EmptyString) (clientOn EmptyString))
        = Returns ("s-1", Some (ErrIO "broken pipe"), c').
Proof.
  destruct (Client_Subscribe (Ok "s-1") idle map_to_list "/queue/a" ClientMode false
              (set_transport (brokenPipe EmptyString) (clientOn EmptyString)))
    as [[[id' e] c']|] eqn:H.
  - exists c'.
    rewrite <- (proj1 (Client_Subscribe_id (Ok "s-1") idle map_to_list "/queue/a"
                         ClientMode false
                         (set_transport (brokenPipe EmptyString) (clientOn EmptyString)))
                  "s-1" id' e c' eq_refl H).
    vm_compute in H. by injection H as <- <- <-.
  - vm_compute in H. discriminate.
Defined.

Lemma Client_write_newlines_witness :
  ∃ c', Client_write 5 map_to_list 1000
          (set_transport (mkConn EmptyString EOF EmptyString (Some 3%nat)
                            (ErrIO "broken pipe") false None) (clientOn EmptyString))
        = (c', true) ∧
        c_out (transport c') = nl +:+ nl +:+ nl.
Proof.
  eexists. split.
  - refine (proj2 (proj2 (Client_write_newlines 5 map_to_list 1000 _)) 3%nat _ _);
      reflexivity.
  - reflexivity.
Defined.

Lemma newUUID_format_witness :
  ∃ (g1 g2 g3 g4 g5 : string) (v : ascii),
    newUUID (Ok (replicate 16 "255"%char))
    = Ok (g1 +:+ "-" +:+ g2 +:+ "-" +:+ String "4" g3 +:+ "-" +:+ String v g4 +:+ "-" +:+ g5) ∧
    v ∈ ["8"; "9"; "a"; "b"]%char ∧
    String.length g1 = 8%nat ∧ String.length g2 = 4%nat ∧
    String.length g3 = 3%nat ∧ String.length g4 = 3%nat ∧
    String.length g5 = 12%nat ∧
    all_hex g1 = true ∧ all_hex g2 = true ∧ all_hex g3 = true ∧
    all_hex g4 = true ∧ all_hex g5 = true.
Proof.
  apply (newUUID_format (replicate 16 "255"%char)). reflexivity.
Defined.

Lemma negotiate_bounds_witness :
  negotiate (mkHeartbeat 0 (2000 * Millisecond)) (Some "500,3000")
  = mkHeartbeat 0 (2000 * Millisecond) ∧
  negotiate (mkHeartbeat (1000 * Millisecond) (2000 * Millisecond)) (Some "soon")
  = mkHeartbeat 0 0.
Proof.
  split; [reflexivity|].
  refine (proj1 (proj2 (proj2 (proj2 (proj2 (negotiate_bounds
            (mkHeartbeat (1000 * Millisecond) (2000 * Millisecond)) (Some "soon"))))))
            "soon" eq_refl _).
  reflexivity.
Defined.

Lemma Client_read_deadline_witness :
  ∃ c', ended_in (Client_read 1000 (clientOn nl)) = Some c' ∧
        c_deadline (transport c') = Some 2000.
Proof. exact (Client_read_deadline 1000 (clientOn nl)). Defined.


Lemma roundtrip_fails_on_colon_witness :
  roundtrip map_to_list (setHeader "when" "12:30" (NewFrame "SEND" None))
  = Err ErrDecodeHeader.
Proof.
  apply (roundtrip_fails_on_colon map_to_list _ (NopCloser emptyBuffer));
    try reflexivity; try discriminate.
  - apply fair_map_to_list.
  - apply map_Forall_insert_2; [split; reflexivity|apply map_Forall_empty].
  - exists "when", "12:30". split; reflexivity.
Defined.

Lemma Transport_Send_body_failure_witness :
  let b := mkReader "par" (Some (ErrIO "disk")) false None None in
  Transport_Send map_to_list "/queue/a" None "text/plain" (Some b) None (pipe EmptyString)
  = (Err (ErrIO "disk"), pipe EmptyString).
Proof.
  intros b.
  refine (proj1 (proj1 (Transport_Send_body_failure map_to_list "tx" "/queue/a" None
                          "text/plain" b None (ErrIO "disk") (pipe EmptyString) _) _)).
  - reflexivity.
  - by left.
Defined.

Lemma Connect_success_witness :
  ∃ cl hb,
    Connect (eager 1) map_to_list (λ _, "1000,2000") "broker:61613"
      (Some (mkConfig "/" "me" "secret"
               (mkHeartbeat (1000 * Millisecond) (2000 * Millisecond))))
      (Some (plainDial (pipe (c_in accepting +:+ nl +:+ "MESSAGE" +:+ nl +:+ nl +:+ nul))))
    = (Ok (cl, hb), Some (transport cl)) ∧
    c_in (transport cl) = "MESSAGE" +:+ nl +:+ nl +:+ nul ∧
    receipts_ cl = newReceipts ∧ c_closed (transport cl) = false.
Proof.
  assert (∃ cl hb oc,
    Connect (eager 1) map_to_list (λ _, "1000,2000") "broker:61613"
      (Some (mkConfig "/" "me" "secret"
               (mkHeartbeat (1000 * Millisecond) (2000 * Millisecond))))
      (Some (plainDial (pipe (c_in accepting +:+ nl +:+ "MESSAGE" +:+ nl +:+ nl +:+ nul))))
    = (Ok (cl, hb), oc)) as (cl & hb & oc & HC).
  { eexists _, _, _. vm_compute. reflexivity. }
  destruct (Connect_success _ _ _ _ _ _ cl hb oc HC)
    as (conn0 & conn1 & conn2 & resp & HD & _ & HE & HDe & _ & _ & Ht & Hoc & Hcl & _ &
        Hr & _).
  exists cl, hb. subst oc. split; [exact HC|].
  vm_compute in HD. injection HD as <-.
  vm_compute in HE. injection HE as <-.
  vm_compute in HDe. injection HDe as <- <-.
  split; [by rewrite Ht|]. split; [exact Hr|]. by rewrite Hcl.
Defined.

Lemma Connect_rejected_witness :
  ∃ conn,
    Connect quiet map_to_list (λ _, "0,0") "broker:61613" None
      (Some (plainDial refusing)) = (Err (ErrServer "bad login"), Some conn) ∧
    c_closed conn = true.
Proof.
  set (conn1 := (Encode map_to_list (connectFrame (λ _, "0,0") (orDefault None))
                   refusing).2).
  set (resp := match (Decode zeroFrame conn1).1 with
               | Ok g => g | Err _ => zeroFrame end).
  set (conn2 := (Decode zeroFrame conn1).2).
  destruct (Connect_rejected quiet map_to_list (λ _, "0,0") "broker:61613" None
              (plainDial refusing) refusing conn1 conn2 resp)
    as (e & HC & He).
  - reflexivity.
  - reflexivity.
  - vm_compute. reflexivity.
  - vm_compute. reflexivity.
  - vm_compute. discriminate.
  - exists (conn_Close conn2). split; [|reflexivity].
    rewrite HC. f_equal. vm_compute in He.
    destruct He as (text & [= <-] & ->). reflexivity.
Defined.

Lemma SEND_roundtrip_witness :
  ∃ f g, sendFrame map_to_list "/queue/a" (Some {[ "Foo" := "bar" ]}) "text/plain"
           (Some (bytesReader "hello")) (Some "r-1") = Ok f ∧
         roundtrip map_to_list f = Ok g ∧
         Command g = "SEND" ∧ Headers g = Headers f ∧
         body_bytes g = Some "hello" ∧
         Headers g !! "content-length" = Some "5".
Proof.
  apply (SEND_roundtrip map_to_list "/queue/a" (Some {[ "Foo" := "bar" ]})
           "text/plain" (Some (bytesReader "hello")) (Some "r-1")).
  - apply fair_map_to_list.
  - reflexivity.
  - reflexivity.
  - by intros r [= <-].
  - intros m [= <-]. apply map_Forall_singleton. split; reflexivity.
  - repeat split; reflexivity.
Defined.

Lemma heartbeat_discarded_witness :
  Client_read 0 (clientOn (nl +:+ "ERROR" +:+ nl +:+ nl +:+ nul))
  = Client_read 0 (clientOn ("ERROR" +:+ nl +:+ nl +:+ nul)).
Proof.
  apply (heartbeat_discarded 0 (clientOn (nl +:+ "ERROR" +:+ nl +:+ nl +:+ nul))).
  reflexivity.
Defined.

Lemma transaction_on_the_wire_witness :
  ∃ c1 c2,
    Client_Begin (Ok "t-1") idle map_to_list false (clientOn EmptyString)
    = Returns (Some (mkTx "t-1" false), None, c1) ∧
    Tx_Commit idle map_to_list false (mkTx "t-1" false) c1
    = Returns (None, mkTx "t-1" true, c2) ∧
    c_out (transport c2)
    = "BEGIN" +:+ nl +:+ "transaction:t-1" +:+ nl +:+ nl +:+ nul +:+
      "COMMIT" +:+ nl +:+ "transaction:t-1" +:+ nl +:+ nl +:+ nul.
Proof.
  destruct (transaction_on_the_wire idle map_to_list (clientOn EmptyString) "t-1"
              fair_map_to_list eq_refl)
    as (c1 & c2 & HB & Ho1 & HC & Ho2 & _).
  exists c1, c2. split; [exact HB|]. split; [exact HC|].
  rewrite Ho2, Ho1. simpl. by rewrite !string_app_assoc.
Defined.

(** Beyond ASCII, with the four entries of [someCaseTables]: a letter with
    an accent changes case, a byte that is not UTF-8 comes out as U+FFFD,
    and a caller's header whose name lower-cases to a protected name is
    dropped like any other spelling of it. *)
Example ToUpper_beyond_ASCII :
  @ToUpper someCaseTables "café" = "CAFÉ" ∧
  @ToUpper someCaseTables (String "a" (String "255" (String "b" EmptyString)))
  = String "A" (String "239" (String "191" (String "189" (String "B" EmptyString)))).
Proof. split; reflexivity. Qed.

Lemma NewFrame_normalises_body_witness :
  Command (NewFrame "send" None) = "SEND" ∧
  Command (@NewFrame someCaseTables "café" None) = "CAFÉ".
Proof.
  split.
  - destruct (NewFrame_normalises_body "send" None) as (_ & _ & _ & _ & H & _).
    exact (H eq_refl).
  - destruct (@NewFrame_normalises_body someCaseTables "café" None)
      as (_ & _ & _ & _ & _ & H).
    exact (H eq_refl).
Defined.

Example ToLower_beyond_ASCII :
  @ToLower someCaseTables "İd" = "id" ∧
  @ToLower someCaseTables "Éa" = "éa" ∧
  @ToLower someCaseTables (String "226" (String "132" (String "170" EmptyString)))
  = "k".
Proof. repeat split; reflexivity. Qed.

Example makeSendFrame_beyond_ASCII :
  ∃ f, @makeSendFrame someCaseTables map_to_list "/queue/a"
         (Some {[ "İd" := "7"; "Éa" := "1" ]}) "text/plain" None = Ok f ∧
       Headers f !! "id" = None ∧ Headers f !! "İd" = None ∧
       Headers f !! "Éa" = None ∧ Headers f !! "éa" = Some "1".
Proof. eexists. split; [reflexivity|]. repeat split; by vm_compute. Qed.

(** What [Sscanf] takes for a number: decimal digits, after white space
    of Unicode; an underscore ends the number. *)
Example Sscanf_d_d_tokens :
  Sscanf_d_d "500,3_000" = (500, 3) ∧
  Sscanf_d_d "5_00,3000" = (5, 0) ∧
  Sscanf_d_d (String "194" (String "160" "500,3000")) = (500, 3000) ∧
  Sscanf_d_d (String "160" "500,3000") = (0, 0).
Proof. repeat split; reflexivity. Qed.
